(** * EKF-SLAM (slam/EKFSLAM.py): a shallow embedding and its properties

    The estimator is numpy code.  An array is modelled as its shape together
    with an index function.  The array operations and the measurement
    Jacobian are written over a class of scalars, instantiated at the real
    numbers (ideal arithmetic) and at IEEE binary64 (primitive floats); the
    motion model, the prediction, the state augmentation and the update are
    over the reals; the consistency metrics, whose subject is the behaviour
    of division by zero, are over binary64.  Exceptions are values of an
    error monad; the shapes of the operands of a product are taken to agree,
    as they do on every state the filter builds. *)

From Stdlib Require Import Floats.
From Stdlib Require Import Reals Lra Lia ZArith List Bool ClassicalEpsilon.
Import ListNotations.

(** ** Exceptions *)

Inductive exn : Set :=
| AssertionError
| TypeError
| ValueError
| LinAlgError
| ZeroDivisionError.

Inductive result (A : Type) : Type :=
| Ok (a : A)
| Raise (e : exn).

Arguments Ok {A} a.
Arguments Raise {A} e.

Definition bind {A B : Type} (m : result A) (k : A -> result B) : result B :=
  match m with
  | Ok a => k a
  | Raise e => Raise e
  end.

Declare Scope py_scope.
Delimit Scope py_scope with py.
Notation "x <- m ;; k" := (bind m (fun x => k))
  (at level 61, m at next level, right associativity) : py_scope.
Notation "' p <- m ;; k" := (bind m (fun x => match x with p => k end))
  (at level 61, p pattern, m at next level, right associativity) : py_scope.
Notation "m ;;; k" := (bind m (fun _ => k))
  (at level 61, right associativity) : py_scope.

(** [assert c, msg] on a condition over the reals: the condition is a
    proposition, decided classically. *)
Definition assert (c : Prop) : result unit :=
  if excluded_middle_informative c then Ok tt else Raise AssertionError.

(** [assert] on a condition that computes. *)
Definition assertb (c : bool) : result unit :=
  if c then Ok tt else Raise AssertionError.

(** [try: body except E: handler]. *)
Definition exn_eqb (a b : exn) : bool :=
  match a, b with
  | AssertionError, AssertionError | TypeError, TypeError
  | ValueError, ValueError | LinAlgError, LinAlgError
  | ZeroDivisionError, ZeroDivisionError => true
  | _, _ => false
  end.

Definition try_except {A : Type} (body : result A) (E : exn) (handler : result A)
  : result A :=
  match body with
  | Ok a => Ok a
  | Raise e => if exn_eqb e E then handler else Raise e
  end.

(** What a function returns, or [d] where it fails. *)
Definition value_of {A : Type} (d : A) (r : result A) : A :=
  match r with
  | Ok a => a
  | Raise _ => d
  end.

(** ** Scalars *)

Class Scalar (T : Type) : Type := {
  np_zero : T;
  np_one : T;
  np_add : T -> T -> T;
  np_sub : T -> T -> T;
  np_mul : T -> T -> T;
  np_div : T -> T -> T;
  np_neg : T -> T;
  np_sqrt : T -> T
}.

Class Trig (T : Type) : Type := {
  np_cos : T -> T;
  np_sin : T -> T;
  np_pi : T
}.

Declare Scope np_scope.
Delimit Scope np_scope with np.
Notation "a + b" := (np_add a b) : np_scope.
Notation "a - b" := (np_sub a b) : np_scope.
Notation "a * b" := (np_mul a b) : np_scope.
Notation "a / b" := (np_div a b) : np_scope.
Notation "- a" := (np_neg a) : np_scope.

#[export] Instance R_scalar : Scalar R := {
  np_zero := 0%R;
  np_one := 1%R;
  np_add := Rplus;
  np_sub := Rminus;
  np_mul := Rmult;
  np_div := Rdiv;
  np_neg := Ropp;
  np_sqrt := R_sqrt.sqrt
}.

#[export] Instance R_trig : Trig R := {
  np_cos := cos;
  np_sin := sin;
  np_pi := PI
}.

(** numpy float64. *)
#[export] Instance float64_scalar : Scalar float := {
  np_zero := 0%float;
  np_one := 1%float;
  np_add := PrimFloat.add;
  np_sub := PrimFloat.sub;
  np_mul := PrimFloat.mul;
  np_div := PrimFloat.div;
  np_neg := PrimFloat.opp;
  np_sqrt := PrimFloat.sqrt
}.

(** The transcendental functions of binary64 come from the C library;
    they are parameters of the instance. *)
Definition float64_pi : float := 0x1.921fb54442d18p+1%float.

Definition float64_trig (libm_cos libm_sin : float -> float) : Trig float := {|
  np_cos := libm_cos;
  np_sin := libm_sin;
  np_pi := float64_pi
|}.

(** ** ndarrays *)

(** A one-dimensional array: its length and its entries. *)
Record vec (T : Type) : Type := mkvec { vlen : nat; vget : nat -> T }.
(** A two-dimensional array: its shape and its entries. *)
Record mat (T : Type) : Type := mkmat { nrows : nat; ncols : nat; mget : nat -> nat -> T }.

Arguments mkvec {T} vlen vget.
Arguments vlen {T} v.
Arguments vget {T} v i.
Arguments mkmat {T} nrows ncols mget.
Arguments nrows {T} m.
Arguments ncols {T} m.
Arguments mget {T} m i j.

Definition vec_of_list {T : Type} (d : T) (l : list T) : vec T :=
  mkvec (length l) (fun i => nth i l d).

Definition mat_of_rows {T : Type} (d : T) (c : nat) (l : list (list T)) : mat T :=
  mkmat (length l) c (fun i j => nth j (nth i l []) d).

(** [within a b i]: index [i] lies in the slice [a : a + b]. *)
Definition within (a b i : nat) : bool := (a <=? i)%nat && (i <? a + b)%nat.

Section Slicing.
Context {T : Type}.

(** [v[a:b]]; numpy clips the slice to the array. *)
Definition vslice (v : vec T) (a b : nat) : vec T :=
    mkvec (Nat.min b (vlen v) - a) (fun i => vget v (a + i)).

(** [v[a:]] *)
Definition vfrom (v : vec T) (a : nat) : vec T :=
    mkvec (vlen v - a) (fun i => vget v (a + i)).

(** [M[r0:r1, c0:c1]] *)
Definition mslice (M : mat T) (r0 r1 c0 c1 : nat) : mat T :=
    mkmat (Nat.min r1 (nrows M) - r0) (Nat.min c1 (ncols M) - c0)
          (fun i j => mget M (r0 + i) (c0 + j)).

(** [M[:, j]] and [M[i, :]] *)
Definition mcol (M : mat T) (j : nat) : vec T :=
    mkvec (nrows M) (fun i => mget M i j).
Definition mrow (M : mat T) (i : nat) : vec T :=
    mkvec (ncols M) (fun j => mget M i j).

(** [M.T] *)
Definition transpose (M : mat T) : mat T :=
    mkmat (ncols M) (nrows M) (fun i j => mget M j i).

(** [v[a : a + len w] = w] *)
Definition set_vslice (v : vec T) (a : nat) (w : vec T) : vec T :=
    mkvec (vlen v)
          (fun i => if within a (vlen w) i then vget w (i - a) else vget v i).

(** [M[r0 : r0 + nrows B, c0 : c0 + ncols B] = B] *)
Definition set_block (M : mat T) (r0 c0 : nat) (B : mat T) : mat T :=
    mkmat (nrows M) (ncols M)
          (fun i j => if within r0 (nrows B) i && within c0 (ncols B) j
                      then mget B (i - r0) (j - c0) else mget M i j).

(** [M[r0 : r0 + len w, c] = w] *)
Definition set_colslice (M : mat T) (r0 c : nat) (w : vec T) : mat T :=
    mkmat (nrows M) (ncols M)
          (fun i j => if within r0 (vlen w) i && (j =? c)%nat
                      then vget w (i - r0) else mget M i j).

(** [M[r, c0 : c0 + len w] = w] *)
Definition set_rowslice (M : mat T) (r c0 : nat) (w : vec T) : mat T :=
    mkmat (nrows M) (ncols M)
          (fun i j => if (i =? r)%nat && within c0 (vlen w) j
                      then vget w (j - c0) else mget M i j).

(** [v[i] = a] *)
Definition set_ventry (v : vec T) (i : nat) (a : T) : vec T :=
  mkvec (vlen v) (fun k => if (k =? i)%nat then a else vget v k).

(** [M[i][j] = a] *)
Definition set_entry (M : mat T) (i j : nat) (a : T) : mat T :=
    mkmat (nrows M) (ncols M)
          (fun i' j' => if (i' =? i)%nat && (j' =? j)%nat then a else mget M i' j').

(** [np.block([v, w])] on one-dimensional arrays *)
Definition vappend (v w : vec T) : vec T :=
    mkvec (vlen v + vlen w)
          (fun i => if (i <? vlen v)%nat then vget v i else vget w (i - vlen v)).

(** [M.ravel()], [M.flatten()]: row-major *)
Definition ravel (M : mat T) : vec T :=
    mkvec (nrows M * ncols M) (fun p => mget M (p / ncols M) (p mod ncols M)).

(** [v.reshape((-1, 2))]: fails when the length is odd. *)
Definition reshape_pairs (v : vec T) : result (mat T) :=
    if (vlen v mod 2 =? 0)%nat
    then Ok (mkmat (vlen v / 2) 2 (fun i j => vget v (2 * i + j)))
    else Raise ValueError.

(** [m = eta[3:].reshape((-1, 2)).T]: column [j] is the [j]-th landmark. *)
Definition landmarks_of (eta : vec T) : result (mat T) :=
    bind (reshape_pairs (vfrom eta 3)) (fun m' => Ok (transpose m')).

(** The indices selected by a boolean mask, in increasing order. *)
Definition mask_indices (mask : vec bool) : list nat :=
    filter (fun i => vget mask i) (seq 0 (vlen mask)).

(** [v[idx]] for a list of indices *)
Definition vtake (v : vec T) (idx : list nat) : vec T :=
    mkvec (length idx) (fun p => vget v (nth p idx 0%nat)).

(** [v[mask]] *)
Definition vmask (v : vec T) (mask : vec bool) : vec T :=
    vtake v (mask_indices mask).

(** [M[idx]]: rows selected by index *)
Definition mtake_rows (M : mat T) (idx : list nat) : mat T :=
    mkmat (length idx) (ncols M) (fun p j => mget M (nth p idx 0%nat) j).

(** [M[:, idx]] *)
Definition mtake_cols (M : mat T) (idx : list nat) : mat T :=
    mkmat (nrows M) (length idx) (fun i q => mget M i (nth q idx 0%nat)).
End Slicing.

Section Linalg.
Context {T : Type} {ST : Scalar T}.
Local Open Scope np_scope.

Definition np_two : T := np_one + np_one.

(** Sum of [g 0 .. g (n-1)], accumulated from the left. *)
Fixpoint np_sum (n : nat) (g : nat -> T) : T :=
    match n with
    | O => np_zero
    | S k => np_sum k g + g k
    end.

Definition vzeros (n : nat) : vec T := mkvec n (fun _ => np_zero).
Definition mzeros (r c : nat) : mat T := mkmat r c (fun _ _ => np_zero).

(** [np.eye(r, c)] *)
Definition eye (r c : nat) : mat T :=
    mkmat r c (fun i j => if (i =? j)%nat then np_one else np_zero).

(** [np.empty_like]: storage whose content is not specified; every entry
    is written before it is read. *)
Definition vempty_like (v : vec T) : vec T := vzeros (vlen v).

Definition vadd (v w : vec T) : vec T :=
    mkvec (vlen v) (fun i => vget v i + vget w i).
Definition vsub (v w : vec T) : vec T :=
    mkvec (vlen v) (fun i => vget v i - vget w i).
Definition vneg (v : vec T) : vec T :=
    mkvec (vlen v) (fun i => - vget v i).
(** [a * v] and [v / a] for a scalar [a] *)
Definition vscale (a : T) (v : vec T) : vec T :=
    mkvec (vlen v) (fun i => a * vget v i).
Definition vdivs (v : vec T) (a : T) : vec T :=
    mkvec (vlen v) (fun i => vget v i / a).

Definition madd (A B : mat T) : mat T :=
    mkmat (nrows A) (ncols A) (fun i j => mget A i j + mget B i j).
Definition mneg (A : mat T) : mat T :=
    mkmat (nrows A) (ncols A) (fun i j => - mget A i j).

(** [v @ w], [A @ B], [A @ v], [v @ A] *)
Definition dot (v w : vec T) : T :=
    np_sum (vlen v) (fun k => vget v k * vget w k).
Definition matmul (A B : mat T) : mat T :=
    mkmat (nrows A) (ncols B)
          (fun i j => np_sum (ncols A) (fun k => mget A i k * mget B k j)).
Definition matvec (A : mat T) (v : vec T) : vec T :=
    mkvec (nrows A) (fun i => np_sum (ncols A) (fun k => mget A i k * vget v k)).
Definition vecmat (v : vec T) (A : mat T) : vec T :=
    mkvec (ncols A) (fun j => np_sum (vlen v) (fun k => vget v k * mget A k j)).

(** [np.linalg.norm(v, 2)] on a one-dimensional array *)
Definition norm2 (v : vec T) : T := np_sqrt (dot v v).

(** [np.kron(A, B)] *)
Definition kron (A B : mat T) : mat T :=
    mkmat (nrows A * nrows B) (ncols A * ncols B)
          (fun i j => mget A (i / nrows B) (j / ncols B)
                      * mget B (i mod nrows B) (j mod ncols B)).

(** [scipy.linalg.block_diag(A, B)] *)
Definition block_diag (A B : mat T) : mat T :=
    mkmat (nrows A + nrows B) (ncols A + ncols B)
          (fun i j =>
             if (i <? nrows A)%nat
             then (if (j <? ncols A)%nat then mget A i j else np_zero)
             else (if (j <? ncols A)%nat then np_zero
                   else mget B (i - nrows A) (j - ncols A))).
End Linalg.

Declare Scope mat_scope.
Delimit Scope mat_scope with mat.
Infix "@" := matmul (at level 40, left associativity) : mat_scope.

(** Modelled from the spec: utils.rotmat2d is not among the sources; the
    spec gives [rotation_matrix_2d(theta) -> 2x2 orthonormal matrix], the
    counter-clockwise rotation by [theta]. *)
Definition rotmat2d {T : Type} {ST : Scalar T} {TT : Trig T} (theta : T) : mat T :=
  mkmat 2 2 (fun i j =>
    match i, j with
    | O, O => np_cos theta
    | O, _ => np_neg (np_sin theta)
    | _, O => np_sin theta
    | _, _ => np_cos theta
    end).

(** Modelled from the spec: utils.wrapToPi is not among the sources; the
    spec gives [wrap_to_pi(angle) -> angle in (-pi, pi]], the representative
    of the angle modulo [2 pi] in that interval. *)
Definition wrapToPi (a : R) : R :=
  (a + 2 * PI * IZR (up ((PI - a) / (2 * PI)) - 1))%R.

(** [np.arctan2] on the reals. *)
Definition arctan2 (y x : R) : R :=
  if Rlt_dec 0 x then atan (y / x)
  else if Rlt_dec x 0 then
         (if Rle_dec 0 y then atan (y / x) + PI else atan (y / x) - PI)%R
  else if Rlt_dec 0 y then (PI / 2)%R
  else if Rlt_dec y 0 then (- PI / 2)%R
  else 0%R.

(** ** The filter object *)

(** The dataclass [EKFSLAM]; its fields [Q] and [R] are the process and
    the measurement noise covariances. *)
Record EKFSLAM : Type := mkEKFSLAM {
  Qcov : mat R;
  Rcov : mat R;
  do_asso : bool;
  alphas : vec R;
  sensor_offset : vec R
}.

(** ** Motion model *)

Section MotionModel.
Local Open Scope R_scope.

(** [EKFSLAM.f] *)
Definition f (x u : vec R) : vec R :=
    let uprev := vget u 0 in
    let vprev := vget u 1 in
    let phiprev := wrapToPi (vget u 2) in
    let xprev := vget x 0 in
    let yprev := vget x 1 in
    let psiprev := wrapToPi (vget x 2) in
    vec_of_list 0
      [ xprev + uprev * cos psiprev - vprev * sin psiprev;
        yprev + uprev * sin psiprev + vprev * sin psiprev;
        phiprev + psiprev ].

(** [EKFSLAM.Fx] *)
Definition Fx (x u : vec R) : mat R :=
    let uk := vget u 0 in
    let vk := vget u 1 in
    let psik := vget x 2 in
    let Fx := eye 3 3 in
    let arg1 := - uk * sin psik - vk * cos psik in
    let arg2 := uk * cos psik - vk * sin psik in
    let Fx := set_entry Fx 0 2 arg1 in
    let Fx := set_entry Fx 1 2 arg2 in
    Fx.

(** [EKFSLAM.Fu] *)
Definition Fu (x u : vec R) : mat R :=
    let psik := vget x 2 in
    let Fu := mzeros 3 3 in
    let Fu := set_entry Fu 0 0 (cos psik) in
    let Fu := set_entry Fu 1 1 (cos psik) in
    let Fu := set_entry Fu 2 2 1 in
    let Fu := set_entry Fu 1 0 (sin psik) in
    let Fu := set_entry Fu 0 1 (-1 * sin psik) in
    Fu.

(** The composition the spec describes, in its own words: the body-frame
    displacement rotated by the old heading and added to the old position,
    the heading increment added to the old heading and wrapped. *)
Definition rigid_body_composition (x u : vec R) : vec R :=
    vec_of_list 0
      [ vget x 0 + vget u 0 * cos (vget x 2) - vget u 1 * sin (vget x 2);
        vget x 1 + vget u 0 * sin (vget x 2) + vget u 1 * cos (vget x 2);
        wrapToPi (vget x 2 + vget u 2) ].

(** [l] is the partial derivative of component [i] of [g] with respect to
    component [k] of its argument, at [x]. *)
Definition partial_derivative (g : vec R -> vec R) (i k : nat) (x : vec R) (l : R)
  : Prop :=
  derivable_pt_lim (fun t => vget (g (set_ventry x k t)) i) (vget x k) l.
End MotionModel.

(** ** Conditions of the assertions *)

Section Conditions.
Local Open Scope R_scope.

(** [np.allclose(A, B)] with numpy's default tolerances. *)
Definition allclose (A B : mat R) : Prop :=
    forall i j, (i < nrows A)%nat -> (j < ncols A)%nat ->
      Rabs (mget A i j - mget B i j) <= 1e-8 + 1e-5 * Rabs (mget B i j).

(** [v] is not the zero vector of length [n]. *)
Definition nonzero (n : nat) (v : nat -> R) : Prop :=
    exists i, (i < n)%nat /\ v i <> 0.

(** [l] is an eigenvalue of [A] (with a real eigenvector). *)
Definition eigval (A : mat R) (l : R) : Prop :=
    exists v, nonzero (nrows A) v /\
      forall i, (i < nrows A)%nat ->
        np_sum (ncols A) (fun j => mget A i j * v j) = l * v i.

(** [np.all(np.linalg.eigvals(A) >= 0)] and [... > 0], as applied to the
    covariance matrices, whose spectrum is real. *)
Definition eigvals_ge0 (A : mat R) : Prop := forall l, eigval A l -> 0 <= l.
Definition eigvals_gt0 (A : mat R) : Prop := forall l, eigval A l -> 0 < l.

(** [a.shape * 2 == A.shape] *)
Definition shape_twice (a : vec R) (A : mat R) : Prop :=
    vlen a = nrows A /\ vlen a = ncols A.

(** The quadratic form of [A] at [v], and the textbook notions. *)
Definition qform (A : mat R) (v : nat -> R) : R :=
    np_sum (nrows A) (fun i => np_sum (ncols A) (fun j => v i * mget A i j * v j)).

Definition symmetric (A : mat R) : Prop :=
    nrows A = ncols A /\
    forall i j, (i < nrows A)%nat -> (j < nrows A)%nat -> mget A i j = mget A j i.

Definition psd (A : mat R) : Prop := forall v, 0 <= qform A v.
Definition pd (A : mat R) : Prop := forall v, nonzero (nrows A) v -> 0 < qform A v.

(** The vector [F^T w] on the pose entries, [w] on the others. *)
Definition pose_mix (F : mat R) (w : nat -> R) : nat -> R :=
  fun k => if (k <? 3)%nat then np_sum 3 (fun i => mget F i k * w i) else w k.

(** [Gx^T u], and a state vector shifted by it on the pose entries. *)
Definition Gx_pull (Gx : mat R) (K : nat) (u : nat -> R) : nat -> R :=
  fun c => np_sum K (fun a => mget Gx a c * u a).

Definition pose_shift (g w : nat -> R) : nat -> R :=
  fun i => w i + (if (i <? 3)%nat then g i else 0).

(** A state estimate as the spec's data model has it. *)
Definition valid_state (eta : vec R) (P : mat R) : Prop :=
    (3 <= vlen eta)%nat /\ shape_twice eta P /\ symmetric P /\ psd P.

(** The number of landmarks of a state vector. *)
Definition landmark_count (eta : vec R) : nat := (vlen eta - 3) / 2.
End Conditions.

(** ** Prediction *)

Section Predict.
Local Open Scope py_scope.
Local Open Scope mat_scope.

(** The covariance prediction of [predict]: [P] is updated in place, the
    robot block, then the robot-map block, then the map-robot block. *)
Definition predict_cov (Q Fx Fu P : mat R) : mat R :=
    let P := set_block P 0 0
               (madd (Fx @ mslice P 0 3 0 3 @ transpose Fx)
                     (Fu @ Q @ transpose Fu)) in
    let P := set_block P 0 3 (Fx @ mslice P 0 3 3 (ncols P)) in
    let P := set_block P 3 0 (mslice P 3 (nrows P) 0 3 @ transpose Fx) in
    P.

(** [EKFSLAM.predict] *)
Definition predict (self : EKFSLAM) (eta : vec R) (P : mat R) (z_odo : vec R)
    : result (vec R * mat R) :=
    assert (allclose P (transpose P)) ;;;
    assert (eigvals_ge0 P) ;;;
    assert (shape_twice eta P) ;;;
    let etapred := vempty_like eta in
    let x := vslice eta 0 3 in
    let etapred := set_vslice etapred 0 (f x z_odo) in
    let etapred := set_vslice etapred 3 (vfrom eta 3) in
    let Fx := Fx x z_odo in
    let Fu := Fu x z_odo in
    let P := predict_cov (Qcov self) Fx Fu P in
    assert (allclose P (transpose P)) ;;;
    assert (eigvals_gt0 P) ;;;
    assert (shape_twice etapred P) ;;;
    Ok (etapred, P).
End Predict.

(** ** Measurement model *)

Section MeasurementModel.
Local Open Scope R_scope.
Local Open Scope py_scope.

(** [EKFSLAM.h] *)
Definition h (self : EKFSLAM) (eta : vec R) : result (vec R) :=
    let x := vslice eta 0 3 in
    m <- landmarks_of eta ;;
    let Rot := rotmat2d (- vget x 2) in
    let n_landmarks := ncols m in
    let delta_m :=
      mkmat 2 n_landmarks (fun r i => vget (vsub (mcol m i) (vslice x 0 2)) r) in
    let zpredcart :=
      mkmat 2 n_landmarks
        (fun r i => vget (vsub (matvec Rot (mcol delta_m i)) (sensor_offset self)) r) in
    let zpred_r := mkvec n_landmarks (fun i => norm2 (mcol zpredcart i)) in
    let zpred_theta :=
      mkvec n_landmarks (fun i => arctan2 (mget zpredcart 1 i) (mget zpredcart 0 i)) in
    let zpred := mkmat 2 n_landmarks
                   (fun r i => match r with O => vget zpred_r i | _ => vget zpred_theta i end) in
    let zpred := ravel (transpose zpred) in
    assertb (vlen zpred =? vlen eta - 3)%nat ;;;
    Ok zpred.
End MeasurementModel.

(** The position of landmark [i] relative to the sensor, in the sensor's
    frame, coordinate by coordinate: the offset of the landmark from the
    robot, turned by minus the heading, less the sensor offset. *)
Definition landmark_in_sensor_frame (self : EKFSLAM) (eta : vec R) (i : nat) : R * R :=
  let psi := vget eta 2 in
  let dx := (vget eta (3 + 2 * i) - vget eta 0)%R in
  let dy := (vget eta (3 + 2 * i + 1) - vget eta 1)%R in
  ((cos psi * dx + sin psi * dy - vget (sensor_offset self) 0)%R,
   (- sin psi * dx + cos psi * dy - vget (sensor_offset self) 1)%R).

Section MeasurementJacobian.
Context {T : Type} {ST : Scalar T} {TT : Trig T}.
Variable sensor_offset_ : vec T.
Local Open Scope np_scope.
Local Open Scope py_scope.

(** The buffers the loop of [h_jac] works on. *)
Record h_jac_bufs : Type := mk_h_jac_bufs {
    buf_H : mat T;
    buf_jac_z_cb : mat T;
    buf_Hx : mat T;
    buf_Hm : mat T
}.

(** One iteration of the loop over the landmarks. *)
Definition h_jac_body (delta_m zc : mat T) (zpred_r : vec T) (Rpihalf : mat T)
             (st : h_jac_bufs) (i : nat) : h_jac_bufs :=
    let indx := (2 * i)%nat in
    let indm := (3 + i * 2)%nat in
    let jac_z_cb :=
      set_colslice (buf_jac_z_cb st) 0 2 (matvec (mneg Rpihalf) (mcol delta_m i)) in
    let zci := mcol zc i in
    let ri := vget zpred_r i in
    let Hx := set_rowslice (buf_Hx st) 0 0 (vecmat (vdivs zci ri) jac_z_cb) in
    let Hx := set_rowslice Hx 1 0
                (vdivs (vecmat (vecmat zci (transpose Rpihalf)) jac_z_cb) (ri * ri)) in
    let Hm := set_rowslice (buf_Hm st) 0 0 (vdivs zci ri) in
    let Hm := set_rowslice Hm 1 0 (vdivs (vecmat (vneg zci) Rpihalf) (ri * ri)) in
    let H := set_block (buf_H st) indx 0 Hx in
    let H := set_block H indx indm Hm in
    mk_h_jac_bufs H jac_z_cb Hx Hm.

(** The first loops of [h_jac]: the position of each landmark relative to
    the robot ([delta_m]) and to the sensor ([zc]) in the world frame, and
    the predicted ranges ([zpred_r]). *)
Definition h_jac_delta_m (eta : vec T) (m : mat T) : mat T :=
    let x := vslice eta 0 3 in
    mkmat 2 (ncols m) (fun r i => vget (vsub (mcol m i) (vslice x 0 2)) r).

Definition h_jac_zc (eta : vec T) (m : mat T) : mat T :=
    let x := vslice eta 0 3 in
    let Rot := rotmat2d (vget x 2) in
    let delta_m := h_jac_delta_m eta m in
    mkmat 2 (ncols m)
      (fun r i => vget (vsub (mcol delta_m i) (matvec Rot sensor_offset_)) r).

Definition h_jac_zpred_r (eta : vec T) (m : mat T) : vec T :=
    let zc := h_jac_zc eta m in
    mkvec (ncols m) (fun i => norm2 (mcol zc i)).

(** [EKFSLAM.h_jac] *)
Definition h_jac (eta : vec T) : result (mat T) :=
    m <- landmarks_of eta ;;
    let numM := ncols m in
    let delta_m := h_jac_delta_m eta m in
    let zc := h_jac_zc eta m in
    let zpred_r := h_jac_zpred_r eta m in
    let Rpihalf := rotmat2d (np_pi / np_two) in
    let H := mzeros (2 * numM) (3 + 2 * numM) in
    let jac_z_cb := mneg (eye 2 3) in
    let Hx := mzeros 2 3 in
    let Hm := mzeros 2 2 in
    let st := fold_left (h_jac_body delta_m zc zpred_r Rpihalf) (seq 0 numM)
                        (mk_h_jac_bufs H jac_z_cb Hx Hm) in
    Ok (buf_H st).

(** What the loop of [h_jac] maintains: the shapes of its buffers, and the
    zeros of [H] outside the pose columns and the landmark's own columns. *)
Definition h_jac_inv (L : nat) (st : h_jac_bufs) : Prop :=
  nrows (buf_H st) = (2 * L)%nat /\ ncols (buf_H st) = (3 + 2 * L)%nat
  /\ nrows (buf_Hx st) = 2%nat /\ ncols (buf_Hx st) = 3%nat
  /\ nrows (buf_Hm st) = 2%nat /\ ncols (buf_Hm st) = 2%nat
  /\ forall r c, (3 <= c)%nat -> c <> (3 + 2 * (r / 2))%nat ->
                 c <> (3 + 2 * (r / 2) + 1)%nat -> mget (buf_H st) r c = np_zero.
End MeasurementJacobian.

(** What the loop of [h_jac] never changes in its buffer [jac_z_cb]: the
    shape, and minus the identity in the first two columns. *)
Definition h_jac_pose_cols (st : h_jac_bufs (T := R)) : Prop :=
  nrows (buf_jac_z_cb st) = 2%nat /\ ncols (buf_jac_z_cb st) = 3%nat
  /\ forall a b, (b < 2)%nat ->
       mget (buf_jac_z_cb st) a b = (- (if (a =? b)%nat then 1 else 0))%R.

(** The two rows of the Jacobian of range and bearing for one landmark,
    written out: [dx, dy] is the landmark relative to the robot, [zx, zy]
    the landmark relative to the sensor, both in the world frame, [rho] the
    range; columns 0-2 are the pose, columns 3 and 4 the landmark. *)
Definition polar_jacobian (dx dy zx zy rho : R) (a c : nat) : R :=
  match a, c with
  | O, O => - zx / rho
  | O, S O => - zy / rho
  | O, S (S O) => (zx * dy - zy * dx) / rho
  | O, S (S (S O)) => zx / rho
  | O, _ => zy / rho
  | _, O => zy / (rho * rho)
  | _, S O => - zx / (rho * rho)
  | _, S (S O) => - (zx * dx + zy * dy) / (rho * rho)
  | _, S (S (S O)) => - zy / (rho * rho)
  | _, _ => zx / (rho * rho)
  end%R.

(** ** State augmentation *)

Section StateAugmenter.
Local Open Scope R_scope.
Local Open Scope py_scope.
Local Open Scope mat_scope.

(** The arrays the loop of [add_landmarks] fills. *)
Record add_bufs : Type := mk_add_bufs {
    buf_lmnew : vec R;
    buf_Gx : mat R;
    buf_Rall : mat R
}.

(** The Jacobian [Gz] of the new landmark with respect to the measurement
    [(zrj, zphij)], as the loop computes it. *)
Definition Gz_of (psi zrj zphij : R) : mat R :=
    let rot := rotmat2d (zphij + psi) in
    let IGz := eye 2 2 in
    let IGz := set_entry IGz 1 1 zrj in
    rot @ IGz.

(** One iteration of the loop over the new measurements. *)
Definition add_landmarks_body (self : EKFSLAM) (eta z : vec R)
             (sensor_offset_world sensor_offset_world_der : vec R)
             (st : add_bufs) (j : nat) : add_bufs :=
    let ind := (2 * j)%nat in
    let zj := vslice z ind (ind + 2) in
    let zrj := vget zj 0 in
    let zphij := vget zj 1 in
    let psi := vget eta 2 in
    let x_z := zrj * cos zphij in
    let y_z := zrj * sin zphij in
    let z_c := vec_of_list 0 [x_z; y_z] in
    let lmnew :=
      set_vslice (buf_lmnew st) ind
        (vadd (vadd (vec_of_list 0 [vget eta 0; vget eta 1])
                    (matvec (rotmat2d psi) z_c))
              sensor_offset_world) in
    let Gx := set_block (buf_Gx st) ind 0 (eye 2 2) in
    let vec_ := vec_of_list 0 [- sin (zphij + psi); cos (zphij + psi)] in
    let Gx := set_colslice Gx ind 2 (vadd (vscale zrj vec_) sensor_offset_world_der) in
    let Gz := Gz_of psi zrj zphij in
    let Gz_c := Gz @ Rcov self @ transpose Gz in
    let Rall := set_block (buf_Rall st) ind ind Gz_c in
    mk_add_bufs lmnew Gx Rall.

(** The covariance of the augmented state in [add_landmarks]: the block
    diagonal of [P] and the new landmarks' block, then the two corners. *)
Definition augment_cov (P Gx Rall : mat R) : mat R :=
    let n := nrows P in
    let block2 := madd (Gx @ mslice P 0 3 0 3 @ transpose Gx) Rall in
    let Padded := block_diag P block2 in
    let Pcolon_x := mslice P 0 (nrows P) 0 3 in
    let Padded := set_block Padded 0 n (Pcolon_x @ transpose Gx) in
    let Padded :=
      set_block Padded n 0
        (transpose (mslice Padded 0 n n (ncols Padded))) in
    Padded.

(** The set-up and the loop of [add_landmarks]. *)
Definition add_landmarks_loop (self : EKFSLAM) (eta z : vec R) : add_bufs :=
    let numLmk := (vlen z / 2)%nat in
    let lmnew := vempty_like z in
    let Gx := mzeros (numLmk * 2) 3 in
    let Rall := mzeros (numLmk * 2) (numLmk * 2) in
    let sensor_offset_world := matvec (rotmat2d (vget eta 2)) (sensor_offset self) in
    let sensor_offset_world_der :=
      matvec (rotmat2d (vget eta 2 + PI / 2)) (sensor_offset self) in
    fold_left
      (add_landmarks_body self eta z sensor_offset_world sensor_offset_world_der)
      (seq 0 numLmk) (mk_add_bufs lmnew Gx Rall).

(** [EKFSLAM.add_landmarks] *)
Definition add_landmarks (self : EKFSLAM) (eta : vec R) (P : mat R) (z : vec R)
    : result (vec R * mat R) :=
    let st := add_landmarks_loop self eta z in
    let lmnew := buf_lmnew st in
    let Gx := buf_Gx st in
    let Rall := buf_Rall st in
    assertb (vlen lmnew mod 2 =? 0)%nat ;;;
    let etaadded := vappend eta lmnew in
    let Padded := augment_cov P Gx Rall in
    assert (shape_twice etaadded Padded) ;;;
    assert (allclose Padded (transpose Padded)) ;;;
    assert (eigvals_ge0 Padded) ;;;
    Ok (etaadded, Padded).

(** The noise block of the [j]-th new landmark and the matrix [Rall] that
    the loop of [add_landmarks] assembles from these blocks. *)
Definition landmark_noise (self : EKFSLAM) (eta z : vec R) (j : nat) : mat R :=
    let zj := vslice z (2 * j) (2 * j + 2) in
    let Gz := Gz_of (vget eta 2) (vget zj 0) (vget zj 1) in
    Gz @ Rcov self @ transpose Gz.

Definition Rall_closed (self : EKFSLAM) (eta z : vec R) (a b : nat) : R :=
    if (a / 2 =? b / 2)%nat
    then mget (landmark_noise self eta z (a / 2)) (a mod 2) (b mod 2)
    else 0.

(** What the loop of [add_landmarks] maintains after [j] iterations. *)
Definition add_inv (self : EKFSLAM) (eta z : vec R) (K j : nat) (st : add_bufs) : Prop :=
    vlen (buf_lmnew st) = vlen z
    /\ nrows (buf_Gx st) = K /\ ncols (buf_Gx st) = 3%nat
    /\ nrows (buf_Rall st) = K /\ ncols (buf_Rall st) = K
    /\ forall a b, mget (buf_Rall st) a b
                   = if (a <? 2 * j)%nat && (b <? 2 * j)%nat
                     then Rall_closed self eta z a b else 0.
End StateAugmenter.

(** ** Association and correction *)

Section Updater.
(** External collaborators: the JCBB association search and scipy's
    Cholesky routines. *)
Variable JCBB : vec R -> vec R -> mat R -> R -> R -> vec Z.
Variable cho_factor : mat R -> result (mat R * bool).
Variable cho_solve : mat R * bool -> mat R -> mat R.

Local Open Scope R_scope.
Local Open Scope py_scope.
Local Open Scope mat_scope.

(** [a > -1], [a == -1] on an integer array *)
Definition gt_m1 (a : vec Z) : vec bool := mkvec (vlen a) (fun i => (-1 <? vget a i)%Z).
Definition eq_m1 (a : vec Z) : vec bool := mkvec (vlen a) (fun i => (vget a i =? -1)%Z).

(** A boolean array of the length of [z] with [m[::2] = b; m[1::2] = b]. *)
Definition pair_mask (z : vec R) (b : vec bool) : vec bool :=
    mkvec (vlen z) (fun p => vget b (p / 2)).

(** [np.any] *)
Definition np_any (b : vec bool) : bool :=
    existsb (fun i => vget b i) (seq 0 (vlen b)).

(** What [associate] hands back: a tuple, or [None]. *)
Definition associate (self : EKFSLAM) (z zpred : vec R) (H S : mat R)
    : result (option (vec R * vec R * mat R * mat R * vec Z)) :=
    if do_asso self then
      let a := JCBB z zpred S (vget (alphas self) 0) (vget (alphas self) 1) in
      let zinds := pair_mask z (gt_m1 a) in
      let zass := vmask z zinds in
      let matched := map (fun i => Z.to_nat (vget a i)) (mask_indices (gt_m1 a)) in
      let zbarinds :=
        map (fun p => if (p mod 2 =? 0)%nat
                      then (2 * nth (p / 2) matched 0)%nat
                      else (2 * nth (p / 2) matched 0 + 1)%nat)
            (seq 0 (vlen zass)) in
      let zpredass := vtake zpred zbarinds in
      let Sass := mtake_cols (mtake_rows S zbarinds) zbarinds in
      let Hass := mtake_rows H zbarinds in
      assertb (vlen zpredass =? vlen zass)%nat ;;;
      assertb ((nrows Sass =? vlen zpredass)%nat && (ncols Sass =? vlen zpredass)%nat) ;;;
      assertb (nrows Hass =? vlen zpredass)%nat ;;;
      Ok (Some (zass, zpredass, Hass, Sass, a))
    else
      Ok None.

(** Unpacking the value of [associate] into five names: a [TypeError] on
    [None]. *)
Definition unpack5 {A : Type} (r : option A) : result A :=
    match r with
    | Some t => Ok t
    | None => Raise TypeError
    end.

(** [v[1::2] = utils.wrapToPi(v[1::2])] *)
Definition wrap_bearings (v : vec R) : vec R :=
    mkvec (vlen v) (fun p => if (p mod 2 =? 1)%nat then wrapToPi (vget v p) else vget v p).

(** [jo[np.diag_indices(jo.shape[0])] += 1] *)
Definition add_identity (jo : mat R) : mat R :=
    mkmat (nrows jo) (ncols jo)
          (fun i j => if (i =? j)%nat && (i <? nrows jo)%nat
                      then mget jo i j + 1 else mget jo i j).

(** [EKFSLAM.update]; [z] has one row per detection. *)
Definition update (self : EKFSLAM) (eta : vec R) (P : mat R) (z : mat R)
    : result (vec R * mat R * R * vec Z) :=
    let numLmk := ((Z.of_nat (vlen eta) - 3) / 2)%Z in
    assertb ((Z.of_nat (vlen eta) - 3) mod 2 =? 0)%Z ;;;
    '(etaupd, Pupd, NIS, a, z) <-
      (if (0 <? numLmk)%Z then
         zpred <- h self eta ;;
         H <- h_jac (sensor_offset self) eta ;;
         let big_R := kron (eye (Z.to_nat numLmk) (Z.to_nat numLmk)) (Rcov self) in
         let S := madd (H @ P @ transpose H) big_R in
         assertb ((nrows S =? vlen zpred)%nat && (ncols S =? vlen zpred)%nat) ;;;
         let z := ravel z in
         r <- associate self z zpred H S ;;
         '(za, zpred, Ha, Sa, a) <- unpack5 r ;;
         if (vlen za =? 0)%nat then
           Ok (eta, P, 1, a, z)
         else
           let v := vsub za zpred in
           let v := wrap_bearings v in
           Slow <- cho_factor Sa ;;
           let S_inv := cho_solve Slow (eye (nrows Sa) (nrows Sa)) in
           let W := P @ transpose Ha @ S_inv in
           let etaupd := vadd eta (matvec W v) in
           let jo := mneg W @ Ha in
           let jo := add_identity jo in
           let dim_big_R := (ncols W / 2)%nat in
           let big_R := kron (eye dim_big_R dim_big_R) (Rcov self) in
           let Pupd := madd (jo @ P @ transpose jo) (W @ big_R @ transpose W) in
           let NIS := dot (vecmat v S_inv) v in
           assert (allclose Pupd (transpose Pupd)) ;;;
           assert (eigvals_gt0 Pupd) ;;;
           Ok (etaupd, Pupd, NIS, a, z)
       else
         let a := mkvec (nrows z) (fun _ => (-1)%Z) in
         let z := ravel z in
         Ok (eta, P, 1, a, z)) ;;
    '(etaupd, Pupd) <-
      (if do_asso self then
         let is_new_lmk := eq_m1 a in
         if np_any is_new_lmk then
           let z_new_inds := pair_mask z is_new_lmk in
           let z_new := vmask z z_new_inds in
           add_landmarks self etaupd Pupd z_new
         else Ok (etaupd, Pupd)
       else Ok (etaupd, Pupd)) ;;
    assert (allclose Pupd (transpose Pupd)) ;;;
    assert (eigvals_ge0 Pupd) ;;;
    Ok (etaupd, Pupd, NIS, a).
End Updater.

(** ** Consistency metrics *)

Section ConsistencyMetrics.
(** External collaborators on float64: [utils.wrapToPi] and
    [np.linalg.solve] (which raises [LinAlgError] on a singular matrix). *)
Variable wrapToPi64 : float -> float.
Variable solve : mat float -> vec float -> result (vec float).

Local Open Scope py_scope.

(** [a / b] on numpy float64 scalars: the quotient of IEEE 754, an
    infinity or a NaN when [b] is zero; no exception is raised. *)
Definition float64_truediv (a b : float) : result float := Ok (PrimFloat.div a b).

(** [A[np.isnan(A)] = 1.0] *)
Definition replace_nan (v : vec float) : vec float :=
    mkvec (vlen v) (fun i => if PrimFloat.is_nan (vget v i) then 1%float else vget v i).

(** [np.all(v >= 0)] *)
Definition all_ge0 (v : vec float) : bool :=
    forallb (fun i => PrimFloat.leb 0%float (vget v i)) (seq 0 (vlen v)).

(** [EKFSLAM.NEESes] *)
Definition NEESes (x : vec float) (P : mat float) (x_gt : vec float)
    : result (vec float) :=
    assertb (vlen x =? 3)%nat ;;;
    assertb ((nrows P =? 3)%nat && (ncols P =? 3)%nat) ;;;
    assertb (vlen x_gt =? 3)%nat ;;;
    let d_x := vsub x x_gt in
    let d_x := set_ventry d_x 2 (wrapToPi64 (vget d_x 2)) in
    assertb (PrimFloat.leb (PrimFloat.opp float64_pi) (vget d_x 2)
             && PrimFloat.leb (vget d_x 2) float64_pi) ;;;
    let d_p := vslice d_x 0 2 in
    let P_p := mslice P 0 2 0 2 in
    assertb (vlen d_p =? 2)%nat ;;;
    let d_heading := vget d_x 2 in
    let P_heading := mget P 2 2 in
    s_all <- solve P d_x ;;
    let NEES_all := dot d_x s_all in
    s_pos <- solve P_p d_p ;;
    let NEES_pos := dot d_p s_pos in
    NEES_heading <-
      try_except (float64_truediv (PrimFloat.mul d_heading d_heading) P_heading)
                 ZeroDivisionError (Ok 1%float) ;;
    let NEESes := vec_of_list 0%float [NEES_all; NEES_pos; NEES_heading] in
    let NEESes := replace_nan NEESes in
    assertb (all_ge0 NEESes) ;;;
    Ok NEESes.
End ConsistencyMetrics.

(** ** A reference linear solver

    [np.linalg.solve] is LAPACK's gesv.  The function below is a model of it
    on float64, used to run [NEESes] on concrete inputs: Gaussian elimination
    with partial pivoting on the rows of [A | b], then back substitution;
    [LinAlgError] on a zero pivot. *)

Section Gesv.
Local Open Scope py_scope.

Definition axpy_row (l : float) (piv r : list float) : list float :=
  map (fun '(a, p) => PrimFloat.sub a (PrimFloat.mul l p)) (combine r piv).

(** Index of the first row whose leading entry has the largest magnitude. *)
Definition pivot_index (rows : list (list float)) : nat :=
  let '(best, _, _) :=
    fold_left
      (fun '(best, bv, i) r =>
         let a := PrimFloat.abs (hd 0%float r) in
         if PrimFloat.ltb bv a then (i, a, S i) else (best, bv, S i))
      rows (0%nat, (-1)%float, 0%nat) in
  best.

Fixpoint replace_nth {A : Type} (k : nat) (a : A) (l : list A) : list A :=
  match l, k with
  | [], _ => []
  | _ :: t, O => a :: t
  | x :: t, S k' => x :: replace_nth k' a t
  end.

(** The rows of the upper-triangular factor, each with its right-hand side;
    row [k] starts at column [k]. *)
Fixpoint lu_rows (fuel : nat) (rows : list (list float)) : result (list (list float)) :=
  match fuel, rows with
  | O, _ | _, [] => Ok []
  | S fuel', r0 :: rest0 =>
    let p := pivot_index rows in
    let piv := nth p rows [] in
    let rest := if (p =? 0)%nat then rest0 else replace_nth (p - 1) r0 rest0 in
    let a := hd 0%float piv in
    if PrimFloat.eqb a 0%float then Raise LinAlgError
    else
      let rest' :=
        map (fun r => tl (axpy_row (PrimFloat.div (hd 0%float r) a) piv r)) rest in
      upper <- lu_rows fuel' rest' ;;
      Ok (piv :: upper)
  end.

Fixpoint back_subst (rows : list (list float)) : list float :=
  match rows with
  | [] => []
  | r :: rs =>
    let xs := back_subst rs in
    let coefs := firstn (length xs) (tl r) in
    let s := fold_left (fun acc '(u, x) => PrimFloat.sub acc (PrimFloat.mul u x))
                       (combine coefs xs) (last r 0%float) in
    PrimFloat.div s (hd 0%float r) :: xs
  end.

Definition gesv (A : mat float) (b : vec float) : result (vec float) :=
  let n := nrows A in
  let rows :=
    map (fun i => map (fun j => mget A i j) (seq 0 n) ++ [vget b i]) (seq 0 n) in
  U <- lu_rows n rows ;;
  Ok (vec_of_list 0%float (back_subst U)).
End Gesv.

(** * Properties *)

(** ** The error monad *)

Lemma assert_true (c : Prop) : c -> assert c = Ok tt.
Proof.
  intros Hc. unfold assert.
  destruct (excluded_middle_informative c) as [_ | Hn]; [reflexivity | contradiction].
Qed.

Lemma assert_false (c : Prop) : ~ c -> assert c = Raise AssertionError.
Proof.
  intros Hc. unfold assert.
  destruct (excluded_middle_informative c) as [H | _]; [contradiction | reflexivity].
Qed.

Lemma assert_ok_inv (c : Prop) (u : unit) : assert c = Ok u -> c.
Proof.
  unfold assert.
  destruct (excluded_middle_informative c) as [H | _]; [trivial | discriminate].
Qed.

Lemma assert_bind_inv {A : Type} (c : Prop) (k : unit -> result A) (r : A) :
  bind (assert c) k = Ok r -> c /\ k tt = Ok r.
Proof.
  unfold assert.
  destruct (excluded_middle_informative c) as [H | _]; cbn [bind];
    [auto | discriminate].
Qed.

(** ** Angles *)

Section Angles.
Local Open Scope R_scope.

Lemma wrapToPi_range (a : R) : - PI < wrapToPi a <= PI.
Proof.
  unfold wrapToPi.
  pose proof PI_RGT_0 as Hpi.
  set (r := (PI - a) / (2 * PI)).
  destruct (archimed r) as [Hup1 Hup2].
  rewrite minus_IZR.
  assert (Hr : 2 * PI * r = PI - a) by (unfold r; field; lra).
  split; nra.
Qed.

Lemma wrapToPi_id (a : R) : - PI < a <= PI -> wrapToPi a = a.
Proof.
  intros [Hlo Hhi]. unfold wrapToPi.
  pose proof PI_RGT_0 as Hpi.
  assert (Hup : up ((PI - a) / (2 * PI)) = 1%Z).
  { symmetry. apply tech_up.
    - apply Rmult_lt_reg_r with (2 * PI); [lra |].
      unfold Rdiv. rewrite Rmult_assoc, Rinv_l by lra. lra.
    - apply Rmult_le_reg_r with (2 * PI); [lra |].
      rewrite Rmult_plus_distr_r. unfold Rdiv.
      rewrite Rmult_assoc, Rinv_l by lra. lra. }
  rewrite Hup. simpl. lra.
Qed.

Lemma wrapToPi_0 : wrapToPi 0 = 0.
Proof. apply wrapToPi_id. pose proof PI_RGT_0. lra. Qed.

Lemma PI_gt_3 : 3 < PI.
Proof. pose proof PI2_3_2. unfold PI2 in *. lra. Qed.

Lemma wrapToPi_3 : wrapToPi 3 = 3.
Proof. apply wrapToPi_id. pose proof PI_gt_3. lra. Qed.
End Angles.

(** ** Motion model *)

Section MotionModelFacts.
Local Open Scope R_scope.

(** C1.  [f] is not the rigid-body composition.  With the pose at the origin
    and a purely lateral unit displacement, [f] leaves [y] at 0 where the
    composition moves it to 1 (the lateral term carries [sin] instead of
    [cos]); and from heading 3 with heading increment 3, [f] returns the
    heading 6, which lies outside (-pi, pi]. *)
Theorem f_is_not_the_rigid_body_composition :
  (vget (f (vec_of_list 0 [0; 0; 0]) (vec_of_list 0 [0; 1; 0])) 1 = 0
   /\ vget (rigid_body_composition (vec_of_list 0 [0; 0; 0]) (vec_of_list 0 [0; 1; 0])) 1 = 1)
  /\ (vget (f (vec_of_list 0 [0; 0; 3]) (vec_of_list 0 [0; 0; 3])) 2 = 6
      /\ ~ (- PI < 6 <= PI)).
Proof.
  split; [split | split]; cbn.
  - rewrite wrapToPi_0, sin_0. ring.
  - rewrite sin_0, cos_0. ring.
  - rewrite wrapToPi_3. ring.
  - pose proof PI_4. lra.
Qed.

Lemma derivable_pt_lim_affine (a b x : R) :
  derivable_pt_lim (fun t => a + b * t) x b.
Proof.
  intros eps Heps. exists (mkposreal 1 Rlt_0_1). intros h Hh _.
  replace ((a + b * (x + h) - (a + b * x)) / h - b) with 0 by (field; assumption).
  rewrite Rabs_R0. assumption.
Qed.

Lemma derivable_pt_lim_trig (a b c x : R) :
  derivable_pt_lim (fun t => a + b * cos t + c * sin t) x (- b * sin x + c * cos x).
Proof.
  apply derivable_pt_lim_ext
    with (f := (fct_cte a + mult_real_fct b cos + mult_real_fct c sin)%F).
  - intros z. reflexivity.
  - replace (- b * sin x + c * cos x) with (0 + b * - sin x + c * cos x) by ring.
    repeat apply derivable_pt_lim_plus.
    + apply derivable_pt_lim_const.
    + apply derivable_pt_lim_scal, derivable_pt_lim_cos.
    + apply derivable_pt_lim_scal, derivable_pt_lim_sin.
Qed.

(** The position rows of [Fx] and [Fu] are the partial derivatives of the
    rigid-body composition. *)
Lemma Fx_jacobian_of_composition (x u : vec R) (i k : nat) :
  (i < 2)%nat -> (k < 3)%nat ->
  partial_derivative (fun x' => rigid_body_composition x' u) i k x (mget (Fx x u) i k).
Proof.
  intros Hi Hk. unfold partial_derivative.
  destruct i as [| [| i]]; [| | lia];
    (destruct k as [| [| [| k]]]; [| | | lia]); cbn.
  - eapply derivable_pt_lim_ext;
      [| apply (derivable_pt_lim_affine
                  (vget u 0 * cos (vget x 2) - vget u 1 * sin (vget x 2)) 1)].
    intros z. cbn. ring.
  - eapply derivable_pt_lim_ext;
      [| apply (derivable_pt_lim_affine
                  (vget x 0 + vget u 0 * cos (vget x 2) - vget u 1 * sin (vget x 2)) 0)].
    intros z. cbn. ring.
  - eapply derivable_pt_lim_ext;
      [| replace (- vget u 0 * sin (vget x 2) - vget u 1 * cos (vget x 2))
           with (- vget u 0 * sin (vget x 2) + - vget u 1 * cos (vget x 2)) by ring;
         apply (derivable_pt_lim_trig (vget x 0) (vget u 0) (- vget u 1))].
    intros z. cbn. ring.
  - eapply derivable_pt_lim_ext;
      [| apply (derivable_pt_lim_affine
                  (vget x 1 + vget u 0 * sin (vget x 2) + vget u 1 * cos (vget x 2)) 0)].
    intros z. cbn. ring.
  - eapply derivable_pt_lim_ext;
      [| apply (derivable_pt_lim_affine
                  (vget u 0 * sin (vget x 2) + vget u 1 * cos (vget x 2)) 1)].
    intros z. cbn. ring.
  - eapply derivable_pt_lim_ext;
      [| replace (vget u 0 * cos (vget x 2) - vget u 1 * sin (vget x 2))
           with (- vget u 1 * sin (vget x 2) + vget u 0 * cos (vget x 2)) by ring;
         apply (derivable_pt_lim_trig (vget x 1) (vget u 1) (vget u 0))].
    intros z. cbn. ring.
Qed.

Lemma Fu_jacobian_of_composition (x u : vec R) (i k : nat) :
  (i < 2)%nat -> (k < 3)%nat ->
  partial_derivative (rigid_body_composition x) i k u (mget (Fu x u) i k).
Proof.
  intros Hi Hk. unfold partial_derivative.
  destruct i as [| [| i]]; [| | lia];
    (destruct k as [| [| [| k]]]; [| | | lia]); cbn.
  - eapply derivable_pt_lim_ext;
      [| apply (derivable_pt_lim_affine
                  (vget x 0 - vget u 1 * sin (vget x 2)) (cos (vget x 2)))].
    intros z. cbn. ring.
  - eapply derivable_pt_lim_ext;
      [| apply (derivable_pt_lim_affine
                  (vget x 0 + vget u 0 * cos (vget x 2)) (-1 * sin (vget x 2)))].
    intros z. cbn. ring.
  - eapply derivable_pt_lim_ext;
      [| apply (derivable_pt_lim_affine
                  (vget x 0 + vget u 0 * cos (vget x 2) - vget u 1 * sin (vget x 2)) 0)].
    intros z. cbn. ring.
  - eapply derivable_pt_lim_ext;
      [| apply (derivable_pt_lim_affine
                  (vget x 1 + vget u 1 * cos (vget x 2)) (sin (vget x 2)))].
    intros z. cbn. ring.
  - eapply derivable_pt_lim_ext;
      [| apply (derivable_pt_lim_affine
                  (vget x 1 + vget u 0 * sin (vget x 2)) (cos (vget x 2)))].
    intros z. cbn. ring.
  - eapply derivable_pt_lim_ext;
      [| apply (derivable_pt_lim_affine
                  (vget x 1 + vget u 0 * sin (vget x 2) + vget u 1 * cos (vget x 2)) 0)].
    intros z. cbn. ring.
Qed.

(** The heading-increment row of [Fu] is the unit vector (0, 0, 1). *)
Lemma Fu_heading_row (x u : vec R) :
  mget (Fu x u) 2 0 = 0 /\ mget (Fu x u) 2 1 = 0 /\ mget (Fu x u) 2 2 = 1.
Proof. cbn. auto. Qed.

(** C2.  [Fu] is not the Jacobian of [f] as [f] is written.  At the pose
    (0, 0, 0) with odometry (0, 1, 0), the derivative of the [y] component
    of [f] with respect to the lateral displacement is 0, whereas [Fu] has 1
    in that place; the value of [Fu] is therefore not a derivative of [f]. *)
Theorem Fu_is_not_the_jacobian_of_f :
  let x := vec_of_list 0 [0; 0; 0] in
  let u := vec_of_list 0 [0; 1; 0] in
  partial_derivative (f x) 1 1 u 0
  /\ mget (Fu x u) 1 1 = 1
  /\ ~ partial_derivative (f x) 1 1 u (mget (Fu x u) 1 1).
Proof.
  cbv zeta.
  assert (Hd : partial_derivative (f (vec_of_list 0 [0; 0; 0])) 1 1
                 (vec_of_list 0 [0; 1; 0]) 0).
  { unfold partial_derivative.
    eapply derivable_pt_lim_ext; [| apply (derivable_pt_lim_affine 0 0)].
    intros z. cbn. rewrite wrapToPi_0, sin_0. ring. }
  assert (Hv : mget (Fu (vec_of_list 0 [0; 0; 0]) (vec_of_list 0 [0; 1; 0])) 1 1 = 1).
  { cbn. apply cos_0. }
  split; [exact Hd | split; [exact Hv |]].
  intros Hc. rewrite Hv in Hc.
  pose proof (uniqueness_limite _ _ _ _ Hd Hc). lra.
Qed.
End MotionModelFacts.

(** ** Measurement Jacobian *)

Section MeasurementJacobianFacts.
Context {T : Type} {ST : Scalar T} {TT : Trig T}.
Variable offset : vec T.

Lemma half_even (i : nat) : (2 * i / 2 = i)%nat.
Proof. rewrite Nat.mul_comm. apply Nat.div_mul. lia. Qed.

Lemma half_odd (i : nat) : ((2 * i + 1) / 2 = i)%nat.
Proof.
  rewrite Nat.mul_comm, Nat.div_add_l by lia. cbn. lia.
Qed.

Lemma within_spec (a b i : nat) : within a b i = true <-> (a <= i < a + b)%nat.
Proof.
  unfold within. rewrite andb_true_iff, Nat.leb_le, Nat.ltb_lt. tauto.
Qed.

Lemma within_false (a b i : nat) : ~ (a <= i < a + b)%nat -> within a b i = false.
Proof.
  intros H. destruct (within a b i) eqn:E; [| reflexivity].
  apply within_spec in E. contradiction.
Qed.

Lemma within_true (a b i : nat) : (a <= i < a + b)%nat -> within a b i = true.
Proof. apply within_spec. Qed.

Lemma h_jac_body_inv (L : nat) (delta_m zc : mat T) (zpred_r : vec T) (Rp : mat T)
      (st : h_jac_bufs) (i : nat) :
  h_jac_inv L st -> h_jac_inv L (h_jac_body delta_m zc zpred_r Rp st i).
Proof.
  intros (HrH & HcH & HrX & HcX & HrM & HcM & Hz).
  unfold h_jac_inv, h_jac_body.
  cbn [buf_H buf_Hx buf_Hm buf_jac_z_cb nrows ncols mget set_block set_rowslice].
  repeat (split; [assumption |]).
  intros r c Hc N1 N2.
  rewrite HrX, HcX, HrM, HcM.
  assert (E1 : within (2 * i) 2 r && within (3 + i * 2) 2 c = false).
  { destruct (within (2 * i) 2 r) eqn:Er; [| reflexivity].
    apply within_spec in Er. cbn.
    apply within_false. intros Hw.
    assert (Hr2 : (r / 2 = i)%nat).
    { assert (Hcase : (r = 2 * i \/ r = 2 * i + 1)%nat) by lia.
      destruct Hcase as [-> | ->]; [apply half_even | apply half_odd]. }
    rewrite Hr2 in N1, N2. lia. }
  rewrite E1.
  assert (E2 : within (2 * i) 2 r && within 0 3 c = false).
  { rewrite (within_false 0 3 c) by lia. apply andb_false_r. }
  rewrite E2. apply Hz; assumption.
Qed.

Lemma h_jac_loop_inv (L : nat) (delta_m zc : mat T) (zpred_r : vec T) (Rp : mat T)
      (l : list nat) (st : h_jac_bufs) :
  h_jac_inv L st ->
  h_jac_inv L (fold_left (h_jac_body delta_m zc zpred_r Rp) l st).
Proof.
  revert st. induction l as [| i l IH]; intros st Hst; cbn.
  - exact Hst.
  - apply IH, h_jac_body_inv, Hst.
Qed.

Lemma reshape_pairs_ok (v : vec T) (L : nat) :
  vlen v = (2 * L)%nat ->
  reshape_pairs v = Ok (mkmat L 2 (fun i j => vget v (2 * i + j))).
Proof.
  intros Hv. unfold reshape_pairs. rewrite Hv.
  replace (2 * L mod 2)%nat with 0%nat
    by (symmetry; rewrite Nat.mul_comm; apply Nat.Div0.mod_mul).
  cbn [Nat.eqb]. rewrite half_even. reflexivity.
Qed.

Lemma landmarks_of_ok (eta : vec T) (L : nat) :
  vlen eta = (3 + 2 * L)%nat ->
  landmarks_of eta
  = Ok (transpose (mkmat L 2 (fun i j => vget (vfrom eta 3) (2 * i + j)))).
Proof.
  intros Heta. unfold landmarks_of.
  rewrite (reshape_pairs_ok (vfrom eta 3) L) by (cbn; lia).
  reflexivity.
Qed.

Lemma h_jac_returns (eta : vec T) (L : nat) :
  vlen eta = (3 + 2 * L)%nat ->
  exists st, h_jac offset eta = Ok (buf_H st) /\ h_jac_inv L st.
Proof.
  intros Heta. unfold h_jac.
  rewrite (landmarks_of_ok eta L Heta).
  cbn [bind transpose ncols nrows].
  eexists. split; [reflexivity |].
  apply h_jac_loop_inv. unfold h_jac_inv. cbn.
  repeat (split; [reflexivity |]). intros; reflexivity.
Qed.

(** C7.  For a state with [L] landmarks, [h_jac] returns a matrix of shape
    (2L, 3 + 2L) in which the two rows of landmark [i] are zero in every
    column other than the pose columns 0-2 and the landmark's own columns
    3+2i and 3+2i+1. *)
Theorem h_jac_block_sparse (eta : vec T) (L : nat) :
  vlen eta = (3 + 2 * L)%nat ->
  exists H, h_jac offset eta = Ok H
    /\ nrows H = (2 * L)%nat /\ ncols H = (3 + 2 * L)%nat
    /\ forall i r c, (i < L)%nat -> r = (2 * i)%nat \/ r = (2 * i + 1)%nat ->
         (3 <= c < 3 + 2 * L)%nat -> c <> (3 + 2 * i)%nat -> c <> (3 + 2 * i + 1)%nat ->
         mget H r c = np_zero.
Proof.
  intros Heta.
  destruct (h_jac_returns eta L Heta) as (st & Hst & Hinv).
  exists (buf_H st). split; [exact Hst |].
  destruct Hinv as (HrH & HcH & _ & _ & _ & _ & Hz).
  split; [exact HrH | split; [exact HcH |]].
  intros i r c Hi Hr Hc N1 N2. apply Hz; [lia | |].
  - destruct Hr as [-> | ->]; [rewrite half_even | rewrite half_odd]; assumption.
  - destruct Hr as [-> | ->]; [rewrite half_even | rewrite half_odd]; assumption.
Qed.
Lemma h_jac_body_untouched (L : nat) (delta_m zc : mat T) (zpred_r : vec T) (Rp : mat T)
      (st : h_jac_bufs) (i j c : nat) :
  h_jac_inv L st -> i <> j ->
  mget (buf_H (h_jac_body delta_m zc zpred_r Rp st j)) (2 * i) c
  = mget (buf_H st) (2 * i) c.
Proof.
  intros (_ & _ & HrX & HcX & HrM & HcM & _) Hij.
  unfold h_jac_body.
  cbn [buf_H buf_Hx buf_Hm buf_jac_z_cb nrows ncols mget set_block set_rowslice].
  rewrite HrX, HrM, (within_false (2 * j) 2 (2 * i)) by lia.
  reflexivity.
Qed.

Lemma h_jac_loop_untouched (L : nat) (delta_m zc : mat T) (zpred_r : vec T) (Rp : mat T)
      (l : list nat) (st : h_jac_bufs) (i c : nat) :
  h_jac_inv L st -> ~ In i l ->
  mget (buf_H (fold_left (h_jac_body delta_m zc zpred_r Rp) l st)) (2 * i) c
  = mget (buf_H st) (2 * i) c.
Proof.
  revert st. induction l as [| j l IH]; intros st Hst Hin; cbn [fold_left].
  - reflexivity.
  - rewrite IH.
    + apply (h_jac_body_untouched L); [exact Hst |].
      intros ->. apply Hin. left. reflexivity.
    + apply h_jac_body_inv, Hst.
    + intros Hc. apply Hin. right. exact Hc.
Qed.

Lemma h_jac_body_entry (L : nat) (delta_m zc : mat T) (zpred_r : vec T) (Rp : mat T)
      (st : h_jac_bufs) (i b : nat) :
  h_jac_inv L st -> nrows zc = 2%nat -> (b < 2)%nat ->
  mget (buf_H (h_jac_body delta_m zc zpred_r Rp st i)) (2 * i) (3 + 2 * i + b)
  = np_div (mget zc b i) (vget zpred_r i).
Proof.
  intros (_ & _ & HrX & HcX & HrM & HcM & _) Hzc Hb.
  unfold h_jac_body.
  cbn [buf_H buf_Hx buf_Hm buf_jac_z_cb nrows ncols mget set_block set_rowslice
       vlen vget vdivs mcol vecmat vneg].
  rewrite HrM, HcM, Hzc.
  rewrite (within_true (2 * i) 2 (2 * i)) by lia.
  rewrite (within_true (3 + i * 2) 2 (3 + 2 * i + b)) by lia.
  cbn [andb].
  replace (2 * i - 2 * i)%nat with 0%nat by lia.
  replace (3 + 2 * i + b - (3 + i * 2))%nat with b by lia.
  cbn [Nat.eqb andb].
  rewrite (within_true 0 2 b) by lia.
  rewrite Nat.sub_0_r. reflexivity.
Qed.

Lemma h_jac_loop_entry (L : nat) (delta_m zc : mat T) (zpred_r : vec T) (Rp : mat T)
      (l : list nat) (st : h_jac_bufs) (i b : nat) :
  h_jac_inv L st -> nrows zc = 2%nat -> (b < 2)%nat -> NoDup l -> In i l ->
  mget (buf_H (fold_left (h_jac_body delta_m zc zpred_r Rp) l st)) (2 * i) (3 + 2 * i + b)
  = np_div (mget zc b i) (vget zpred_r i).
Proof.
  intros Hst Hzc Hb. revert st Hst.
  induction l as [| j l IH]; intros st Hst Hnd Hin; cbn [fold_left].
  - destruct Hin.
  - inversion Hnd as [| ? ? Hnotin Hnd']; subst.
    destruct (Nat.eq_dec j i) as [-> | Hne].
    + rewrite (h_jac_loop_untouched L) by (auto using h_jac_body_inv).
      apply (h_jac_body_entry L); assumption.
    + apply IH; [apply h_jac_body_inv, Hst | exact Hnd' |].
      destruct Hin as [-> | Hin]; [contradiction | exact Hin].
Qed.

(** C10.  In any arithmetic, for a state with [L] landmarks and a landmark
    [i] whose predicted range, as [h_jac] computes it, is zero, [h_jac]
    returns a matrix whose entries in landmark [i]'s own columns of the range
    row are the components of the sensor-to-landmark vector divided by that
    zero: the quotient is taken as it comes, without a test on the range. *)
Theorem h_jac_divides_by_zero_range (eta : vec T) (L i : nat) (m : mat T) :
  vlen eta = (3 + 2 * L)%nat -> (i < L)%nat ->
  landmarks_of eta = Ok m ->
  vget (h_jac_zpred_r offset eta m) i = np_zero ->
  exists H, h_jac offset eta = Ok H
    /\ mget H (2 * i) (3 + 2 * i) = np_div (mget (h_jac_zc offset eta m) 0 i) np_zero
    /\ mget H (2 * i) (3 + 2 * i + 1) = np_div (mget (h_jac_zc offset eta m) 1 i) np_zero.
Proof.
  intros Heta Hi Hm Hr. unfold h_jac. rewrite Hm.
  rewrite (landmarks_of_ok eta L Heta) in Hm. injection Hm as Hm.
  cbn [bind]. eexists. split; [reflexivity |].
  assert (Hn : ncols m = L) by (rewrite <- Hm; reflexivity).
  rewrite Hn.
  assert (Hst : h_jac_inv L (mk_h_jac_bufs (mzeros (2 * L) (3 + 2 * L))
                                           (mneg (eye 2 3)) (mzeros 2 3) (mzeros 2 2))).
  { unfold h_jac_inv. cbn. repeat (split; [reflexivity |]). intros; reflexivity. }
  rewrite <- Hr. split.
  - replace (3 + 2 * i)%nat with (3 + 2 * i + 0)%nat by lia.
    apply (h_jac_loop_entry L); [exact Hst | reflexivity | lia | apply seq_NoDup |].
    apply in_seq. lia.
  - apply (h_jac_loop_entry L); [exact Hst | reflexivity | lia | apply seq_NoDup |].
    apply in_seq. lia.
Qed.
End MeasurementJacobianFacts.

Section MeasurementJacobianExamples.
Local Open Scope R_scope.

(** Over the reals: a landmark at the world position of the sensor has
    predicted range zero in [h_jac]. *)
Lemma coincident_landmark_range_zero (offset eta : vec R) (L i : nat) (m : mat R) :
  vlen eta = (3 + 2 * L)%nat -> (i < L)%nat ->
  landmarks_of eta = Ok m ->
  vget eta (3 + 2 * i) = vget eta 0 + vget (matvec (rotmat2d (vget eta 2)) offset) 0 ->
  vget eta (3 + 2 * i + 1) = vget eta 1 + vget (matvec (rotmat2d (vget eta 2)) offset) 1 ->
  mget (h_jac_zc offset eta m) 0 i = 0
  /\ mget (h_jac_zc offset eta m) 1 i = 0
  /\ vget (h_jac_zpred_r offset eta m) i = 0.
Proof.
  intros Heta Hi Hm H0 H1.
  rewrite (landmarks_of_ok eta L Heta) in Hm. injection Hm as Hm. subst m.
  unfold h_jac_zpred_r, norm2, dot.
  cbn [h_jac_zc h_jac_delta_m mget mcol vget vlen vsub vslice vfrom transpose nrows ncols
       np_sum np_add np_mul np_sub np_zero np_sqrt R_scalar Nat.add].
  replace (3 + 2 * i)%nat with (S (S (S (i + (i + 0) + 0)))) in H0 by lia.
  replace (3 + 2 * i + 1)%nat with (S (S (S (i + (i + 0) + 1)))) in H1 by lia.
  rewrite H0, H1.
  set (o0 := vget (matvec _ offset) 0).
  set (o1 := vget (matvec _ offset) 1).
  assert (E0 : vget eta 0 + o0 - vget eta 0 - o0 = 0) by ring.
  assert (E1 : vget eta 1 + o1 - vget eta 1 - o1 = 0) by ring.
  rewrite E0, E1.
  repeat split; try reflexivity.
  replace (0 + 0 * 0 + 0 * 0) with 0 by ring. apply sqrt_0.
Qed.

(** At float64: with the robot at (1, 2) heading 0, no sensor offset and a
    landmark at (1, 2), the entries of [h_jac] in the landmark's columns of
    the range row are NaN. *)
Lemma h_jac_float64_nan (libm_cos libm_sin : float -> float) :
  libm_cos 0%float = 1%float -> libm_sin 0%float = 0%float ->
  exists H,
    h_jac (TT := float64_trig libm_cos libm_sin)
          (vec_of_list 0%float [0; 0]%float)
          (vec_of_list 0%float [1; 2; 0; 1; 2]%float) = Ok H
    /\ PrimFloat.is_nan (mget H 0 3) = true
    /\ PrimFloat.is_nan (mget H 0 4) = true.
Proof.
  intros Hc Hs. eexists. split; [reflexivity |].
  cbn. rewrite Hc, Hs. split; vm_compute; reflexivity.
Qed.
End MeasurementJacobianExamples.

(** ** Update without association *)

Section UpdaterFacts.
Variable JCBB : vec R -> vec R -> mat R -> R -> R -> vec Z.
Variable cho_factor : mat R -> result (mat R * bool).
Variable cho_solve : mat R * bool -> mat R -> mat R.

Lemma h_returns (self : EKFSLAM) (eta : vec R) (L : nat) :
  vlen eta = (3 + 2 * L)%nat ->
  exists zpred, h self eta = Ok zpred /\ vlen zpred = (2 * L)%nat.
Proof.
  intros Heta. unfold h.
  rewrite (landmarks_of_ok eta L Heta).
  cbn [bind transpose ncols nrows ravel vlen].
  rewrite Heta.
  replace (L * 2 =? 3 + 2 * L - 3)%nat with true
    by (symmetry; apply Nat.eqb_eq; lia).
  cbn [assertb bind].
  eexists. split; [reflexivity |]. cbn [vlen ravel transpose nrows ncols]. lia.
Qed.

(** C9.  With [do_asso = False] and at least one landmark in the state,
    [associate] hands back [None] and [update] fails with a [TypeError] when
    it takes that value apart; no correction is computed. *)
Theorem update_without_association_fails
        (self : EKFSLAM) (eta : vec R) (P : mat R) (z : mat R) (L : nat) :
  do_asso self = false ->
  vlen eta = (3 + 2 * L)%nat -> (1 <= L)%nat -> shape_twice eta P ->
  (forall zf zpred H S, associate JCBB self zf zpred H S = Ok None)
  /\ update JCBB cho_factor cho_solve self eta P z = Raise TypeError.
Proof.
  intros Hasso Heta HL _.
  assert (Hnone : forall zf zpred H S, associate JCBB self zf zpred H S = Ok None).
  { intros. unfold associate. rewrite Hasso. reflexivity. }
  split; [exact Hnone |].
  unfold update. rewrite Heta.
  replace (Z.of_nat (3 + 2 * L) - 3)%Z with (Z.of_nat L * 2)%Z by lia.
  rewrite Z.mod_mul, Z.div_mul by lia.
  cbn [Z.eqb assertb bind].
  replace (0 <? Z.of_nat L)%Z with true by (symmetry; apply Z.ltb_lt; lia).
  destruct (h_returns self eta L Heta) as (zpred & Hh & Hlen).
  destruct (h_jac_returns (sensor_offset self) eta L Heta) as (st & HH & Hinv).
  destruct Hinv as (HrH & _).
  rewrite Hh, HH. cbn [bind madd matmul transpose nrows ncols].
  rewrite HrH, Hlen, Nat.eqb_refl. cbn [andb assertb bind].
  rewrite Hnone. reflexivity.
Qed.
End UpdaterFacts.

(** ** Consistency metrics *)

Section ConsistencyMetricsFacts.
Variable wrapToPi64 : float -> float.

(** Whenever [NEESes] returns, its heading component is the quotient
    [d_heading ** 2 / P_heading] of IEEE arithmetic, replaced by 1 only when
    that quotient is a NaN. *)
Lemma NEESes_heading_component (solve : mat float -> vec float -> result (vec float))
      (x : vec float) (P : mat float) (x_gt v : vec float) :
  NEESes wrapToPi64 solve x P x_gt = Ok v ->
  let d_heading := wrapToPi64 (PrimFloat.sub (vget x 2) (vget x_gt 2)) in
  let q := PrimFloat.div (PrimFloat.mul d_heading d_heading) (mget P 2 2) in
  vget v 2 = if PrimFloat.is_nan q then 1%float else q.
Proof.
  unfold NEESes. intros Hv.
  repeat match type of Hv with
         | bind (assertb ?c) _ = _ => destruct c; cbn [assertb bind] in Hv; [| discriminate]
         | bind (solve ?A ?b) _ = _ => destruct (solve A b); cbn [bind] in Hv; [| discriminate]
         end.
  cbn [float64_truediv try_except bind] in Hv.
  match type of Hv with
  | bind (assertb ?c) _ = _ => destruct c; cbn [assertb bind] in Hv; [| discriminate]
  end.
  injection Hv as <-. reflexivity.
Qed.

(** C8.  [NEESes] hands back an infinite heading component.  With the
    covariance [[1,0,0],[0,1,1],[0,1,0]] (so [P[2,2] = 0]) and the error
    (0, 1, 1), and with the positive definite covariance diag(1, 1, 2^-1022)
    and the error (0, 0, 3), the call returns and its heading component is
    [+inf], not 1.0. *)
Theorem NEESes_propagates_infinity :
  wrapToPi64 1%float = 1%float -> wrapToPi64 3%float = 3%float ->
  (exists v,
      NEESes wrapToPi64 gesv (vec_of_list 0%float [0; 1; 1]%float)
             (mat_of_rows 0%float 3 [[1; 0; 0]; [0; 1; 1]; [0; 1; 0]]%float)
             (vec_of_list 0%float [0; 0; 0]%float) = Ok v
      /\ vget v 2 = infinity)
  /\ (exists v,
      NEESes wrapToPi64 gesv (vec_of_list 0%float [0; 0; 3]%float)
             (mat_of_rows 0%float 3 [[1; 0; 0]; [0; 1; 0]; [0; 0; 0x1p-1022]]%float)
             (vec_of_list 0%float [0; 0; 0]%float) = Ok v
      /\ vget v 2 = infinity).
Proof.
  intros H1 H3.
  assert (E1 : PrimFloat.sub 1 0 = 1%float) by reflexivity.
  assert (E3 : PrimFloat.sub 3 0 = 3%float) by reflexivity.
  split.
  - unfold NEESes.
    cbn [vec_of_list vlen length Nat.eqb assertb bind mat_of_rows nrows ncols andb
         vsub vget nth set_ventry np_sub float64_scalar].
    rewrite E1, H1.
    eexists. split; [vm_compute; reflexivity | vm_compute; reflexivity].
  - unfold NEESes.
    cbn [vec_of_list vlen length Nat.eqb assertb bind mat_of_rows nrows ncols andb
         vsub vget nth set_ventry np_sub float64_scalar].
    rewrite E3, H3.
    eexists. split; [vm_compute; reflexivity | vm_compute; reflexivity].
Qed.
End ConsistencyMetricsFacts.

(** ** Sums and quadratic forms over the reals *)

Section SumFacts.
Local Open Scope R_scope.

Lemma np_sum_S (n : nat) (g : nat -> R) : np_sum (S n) g = np_sum n g + g n.
Proof. reflexivity. Qed.

Lemma np_sum_O (g : nat -> R) : np_sum 0 g = 0.
Proof. reflexivity. Qed.

Lemma np_sum_ext (n : nat) (g1 g2 : nat -> R) :
  (forall i, (i < n)%nat -> g1 i = g2 i) -> np_sum n g1 = np_sum n g2.
Proof.
  induction n as [| n IH]; intros H; [reflexivity |].
  rewrite !np_sum_S, IH, H by auto with arith. reflexivity.
Qed.

Lemma np_sum_zero (n : nat) (g : nat -> R) :
  (forall i, (i < n)%nat -> g i = 0) -> np_sum n g = 0.
Proof.
  induction n as [| n IH]; intros H; [reflexivity |].
  rewrite np_sum_S, IH, H by auto with arith. ring.
Qed.

Lemma np_sum_plus (n : nat) (g1 g2 : nat -> R) :
  np_sum n (fun i => g1 i + g2 i) = np_sum n g1 + np_sum n g2.
Proof.
  induction n as [| n IH]; [rewrite !np_sum_O; ring |].
  rewrite !np_sum_S, IH. ring.
Qed.

Lemma np_sum_scal (n : nat) (c : R) (g : nat -> R) :
  np_sum n (fun i => c * g i) = c * np_sum n g.
Proof.
  induction n as [| n IH]; [rewrite !np_sum_O; ring |].
  rewrite !np_sum_S, IH. ring.
Qed.

Lemma np_sum_swap (n m : nat) (g : nat -> nat -> R) :
  np_sum n (fun i => np_sum m (fun j => g i j))
  = np_sum m (fun j => np_sum n (fun i => g i j)).
Proof.
  induction n as [| n IH].
  - rewrite np_sum_O. symmetry. apply np_sum_zero. intros; apply np_sum_O.
  - rewrite np_sum_S, IH, <- np_sum_plus. apply np_sum_ext.
    intros j _. rewrite np_sum_S. reflexivity.
Qed.

Lemma np_sum_split (n m : nat) (g : nat -> R) :
  np_sum (n + m) g = np_sum n g + np_sum m (fun i => g (n + i)%nat).
Proof.
  induction m as [| m IH].
  - rewrite Nat.add_0_r, np_sum_O. ring.
  - rewrite Nat.add_succ_r, !np_sum_S, IH. ring.
Qed.

Lemma np_sum_ge0 (n : nat) (g : nat -> R) :
  (forall i, (i < n)%nat -> 0 <= g i) -> 0 <= np_sum n g.
Proof.
  induction n as [| n IH]; intros H; [rewrite np_sum_O; lra |].
  rewrite np_sum_S.
  assert (0 <= np_sum n g) by auto with arith.
  assert (0 <= g n) by auto with arith. lra.
Qed.

Lemma np_sum_squares_pos (n : nat) (v : nat -> R) :
  nonzero n v -> 0 < np_sum n (fun i => v i * v i).
Proof.
  intros (k & Hk & Hv).
  induction n as [| n IH]; [lia |].
  rewrite np_sum_S.
  assert (Hsq : forall a : R, 0 <= a * a) by (intros; nra).
  destruct (Nat.eq_dec k n) as [-> | Hne].
  - assert (0 <= np_sum n (fun i => v i * v i))
      by (apply np_sum_ge0; intros; apply Hsq).
    assert (0 < v n * v n) by nra. lra.
  - assert (0 < np_sum n (fun i => v i * v i)) by (apply IH; lia).
    pose proof (Hsq (v n)). lra.
Qed.

(** A double sum over [(n + m) x (n + m)] splits into its four blocks. *)
Lemma np_sum_blocks (n m : nat) (g : nat -> nat -> R) :
  np_sum (n + m) (fun i => np_sum (n + m) (fun j => g i j))
  = np_sum n (fun i => np_sum n (fun j => g i j))
    + np_sum n (fun i => np_sum m (fun j => g i (n + j)%nat))
    + np_sum m (fun i => np_sum n (fun j => g (n + i)%nat j))
    + np_sum m (fun i => np_sum m (fun j => g (n + i)%nat (n + j)%nat)).
Proof.
  rewrite np_sum_split.
  rewrite (np_sum_ext n _ (fun i => np_sum n (fun j => g i j)
                                   + np_sum m (fun j => g i (n + j)%nat)))
    by (intros; apply np_sum_split).
  rewrite (np_sum_ext m _ (fun i => np_sum n (fun j => g (n + i)%nat j)
                                   + np_sum m (fun j => g (n + i)%nat (n + j)%nat)))
    by (intros; apply np_sum_split).
  rewrite !np_sum_plus. ring.
Qed.

Lemma np_sum_3 (g : nat -> R) : np_sum 3 g = g 0%nat + g 1%nat + g 2%nat.
Proof. cbn. ring. Qed.

Lemma np_sum_2 (g : nat -> R) : np_sum 2 g = g 0%nat + g 1%nat.
Proof. cbn. ring. Qed.

(** A positive semi-definite matrix has no negative eigenvalue, a positive
    definite one only positive eigenvalues. *)
Lemma qform_eigen (A : mat R) (l : R) (v : nat -> R) :
  nrows A = ncols A ->
  (forall i, (i < nrows A)%nat ->
     np_sum (ncols A) (fun j => mget A i j * v j) = l * v i) ->
  qform A v = l * np_sum (nrows A) (fun i => v i * v i).
Proof.
  intros Hsq Hev. unfold qform.
  rewrite <- np_sum_scal. apply np_sum_ext. intros i Hi.
  rewrite (np_sum_ext _ _ (fun j => v i * (mget A i j * v j)))
    by (intros; ring).
  rewrite np_sum_scal, Hev by assumption. ring.
Qed.

Lemma psd_eigvals_ge0 (A : mat R) : nrows A = ncols A -> psd A -> eigvals_ge0 A.
Proof.
  intros Hsq Hpsd l (v & Hnz & Hev).
  pose proof (Hpsd v) as Hq.
  rewrite (qform_eigen A l v Hsq Hev) in Hq.
  pose proof (np_sum_squares_pos _ _ Hnz). nra.
Qed.

Lemma pd_eigvals_gt0 (A : mat R) : nrows A = ncols A -> pd A -> eigvals_gt0 A.
Proof.
  intros Hsq Hpd l (v & Hnz & Hev).
  pose proof (Hpd v Hnz) as Hq.
  rewrite (qform_eigen A l v Hsq Hev) in Hq.
  pose proof (np_sum_squares_pos _ _ Hnz). nra.
Qed.

Lemma symmetric_allclose (A : mat R) : symmetric A -> allclose A (transpose A).
Proof.
  intros [Hsq Hs] i j Hi Hj. cbn [transpose mget].
  rewrite (Hs i j) by lia.
  replace (mget A j i - mget A j i) with 0 by ring.
  rewrite Rabs_R0. pose proof (Rabs_pos (mget A j i)). lra.
Qed.
End SumFacts.

(** ** Prediction *)

Section PredictionFacts.
Local Open Scope R_scope.

Section BlockFacts.
Context {T : Type}.

Lemma set_block_in (M B : mat T) (r0 c0 i j : nat) :
  (r0 <= i < r0 + nrows B)%nat -> (c0 <= j < c0 + ncols B)%nat ->
  mget (set_block M r0 c0 B) i j = mget B (i - r0) (j - c0).
Proof.
  intros Hi Hj. cbn [set_block mget].
  rewrite (within_true r0 _ i), (within_true c0 _ j) by assumption. reflexivity.
Qed.

Lemma set_block_out (M B : mat T) (r0 c0 i j : nat) :
  ~ ((r0 <= i < r0 + nrows B)%nat /\ (c0 <= j < c0 + ncols B)%nat) ->
  mget (set_block M r0 c0 B) i j = mget M i j.
Proof.
  intros H. cbn [set_block mget].
  destruct (within r0 (nrows B) i) eqn:Ei; [| reflexivity].
  destruct (within c0 (ncols B) j) eqn:Ej; [| reflexivity].
  apply within_spec in Ei, Ej. tauto.
Qed.

Lemma nrows_set_block (M B : mat T) (r0 c0 : nat) : nrows (set_block M r0 c0 B) = nrows M.
Proof. reflexivity. Qed.

Lemma ncols_set_block (M B : mat T) (r0 c0 : nat) : ncols (set_block M r0 c0 B) = ncols M.
Proof. reflexivity. Qed.
End BlockFacts.

Lemma pose_mix_map (F : mat R) (w : nat -> R) (b : nat) : pose_mix F w (3 + b) = w (3 + b)%nat.
Proof.
  unfold pose_mix. replace (3 + b <? 3)%nat with false; [reflexivity |].
  symmetry. apply Nat.ltb_ge. lia.
Qed.

Section PredictFacts.
Variables (Q F G P : mat R) (m : nat).
Hypothesis HF1 : nrows F = 3%nat.
Hypothesis HF2 : ncols F = 3%nat.
Hypothesis HG1 : nrows G = 3%nat.
Hypothesis HG2 : ncols G = 3%nat.
Hypothesis HQ1 : nrows Q = 3%nat.
Hypothesis HQ2 : ncols Q = 3%nat.
Hypothesis HP1 : nrows P = (3 + m)%nat.
Hypothesis HP2 : ncols P = (3 + m)%nat.

Ltac shapes :=
  cbn [nrows ncols matmul madd mslice set_block transpose];
  rewrite ?HF1, ?HF2, ?HG1, ?HG2, ?HQ2, ?HP1, ?HP2; try lia.

Lemma predict_cov_shape :
  nrows (predict_cov Q F G P) = (3 + m)%nat /\ ncols (predict_cov Q F G P) = (3 + m)%nat.
Proof. unfold predict_cov. cbn [set_block nrows ncols]. auto. Qed.

Lemma predict_cov_rr (i j : nat) : (i < 3)%nat -> (j < 3)%nat ->
  mget (predict_cov Q F G P) i j
  = np_sum 3 (fun d => np_sum 3 (fun c => mget F i c * mget P c d) * mget F j d)
    + np_sum 3 (fun d => np_sum 3 (fun c => mget G i c * mget Q c d) * mget G j d).
Proof.
  intros Hi Hj. unfold predict_cov.
  rewrite set_block_out by shapes.
  rewrite set_block_out by shapes.
  rewrite set_block_in by shapes.
  cbn [mget madd matmul mslice transpose nrows ncols].
  rewrite ?HF1, ?HF2, ?HG1, ?HG2, ?HQ2, ?HP1, ?HP2, !Nat.sub_0_r.
  replace (Nat.min 3 (3 + m)) with 3%nat by lia. reflexivity.
Qed.

Lemma predict_cov_rm (i j : nat) : (i < 3)%nat -> (3 <= j < 3 + m)%nat ->
  mget (predict_cov Q F G P) i j = np_sum 3 (fun k => mget F i k * mget P k j).
Proof.
  intros Hi Hj. unfold predict_cov.
  rewrite set_block_out by shapes.
  rewrite set_block_in by shapes.
  cbn [mget matmul mslice nrows ncols].
  rewrite ?HF2, !Nat.sub_0_r.
  apply np_sum_ext. intros k Hk.
  rewrite set_block_out by shapes.
  replace (3 + (j - 3))%nat with j by lia. reflexivity.
Qed.

Lemma predict_cov_mr (i j : nat) : (3 <= i < 3 + m)%nat -> (j < 3)%nat ->
  mget (predict_cov Q F G P) i j = np_sum 3 (fun k => mget P i k * mget F j k).
Proof.
  intros Hi Hj. unfold predict_cov.
  rewrite set_block_in by shapes.
  cbn [mget matmul mslice transpose nrows ncols].
  rewrite !ncols_set_block, ?HP1, ?HP2, !Nat.sub_0_r.
  replace (Nat.min 3 (3 + m)) with 3%nat by lia.
  apply np_sum_ext. intros k Hk.
  rewrite set_block_out by shapes.
  rewrite set_block_out by shapes.
  replace (3 + (i - 3))%nat with i by lia. reflexivity.
Qed.

Lemma predict_cov_mm (i j : nat) : (3 <= i < 3 + m)%nat -> (3 <= j < 3 + m)%nat ->
  mget (predict_cov Q F G P) i j = mget P i j.
Proof.
  intros Hi Hj. unfold predict_cov.
  rewrite set_block_out by shapes.
  rewrite set_block_out by shapes.
  rewrite set_block_out by shapes.
  reflexivity.
Qed.


Lemma qform_predict_cov (w : nat -> R) :
  qform (predict_cov Q F G P) w
  = qform P (pose_mix F w) + qform Q (fun k => np_sum 3 (fun i => mget G i k * w i)).
Proof.
  unfold qform.
  destruct predict_cov_shape as [-> ->]. rewrite HP1, HP2, HQ1, HQ2.
  rewrite !(np_sum_blocks 3 m).
  assert (E4 : np_sum m (fun i => np_sum m (fun j =>
                 w (3 + i)%nat * mget (predict_cov Q F G P) (3 + i) (3 + j) * w (3 + j)%nat))
               = np_sum m (fun i => np_sum m (fun j =>
                 pose_mix F w (3 + i) * mget P (3 + i) (3 + j) * pose_mix F w (3 + j)))).
  { apply np_sum_ext. intros i Hi. apply np_sum_ext. intros j Hj.
    rewrite predict_cov_mm, !pose_mix_map by lia. reflexivity. }
  assert (E2 : np_sum 3 (fun i => np_sum m (fun j =>
                 w i * mget (predict_cov Q F G P) i (3 + j) * w (3 + j)%nat))
               = np_sum 3 (fun i => np_sum m (fun j =>
                 pose_mix F w i * mget P i (3 + j) * pose_mix F w (3 + j)))).
  { rewrite !np_sum_3, <- !np_sum_plus. apply np_sum_ext. intros j Hj.
    rewrite !predict_cov_rm, !pose_mix_map by lia.
    unfold pose_mix. cbn [Nat.ltb Nat.leb]. rewrite !np_sum_3. ring. }
  assert (E3 : np_sum m (fun i => np_sum 3 (fun j =>
                 w (3 + i)%nat * mget (predict_cov Q F G P) (3 + i) j * w j))
               = np_sum m (fun i => np_sum 3 (fun j =>
                 pose_mix F w (3 + i) * mget P (3 + i) j * pose_mix F w j))).
  { apply np_sum_ext. intros i Hi. rewrite !np_sum_3.
    rewrite !predict_cov_mr, !pose_mix_map by lia.
    unfold pose_mix. cbn [Nat.ltb Nat.leb]. rewrite !np_sum_3. ring. }
  rewrite E2, E3, E4.
  assert (E1 : np_sum 3 (fun i => np_sum 3 (fun j =>
                 w i * mget (predict_cov Q F G P) i j * w j))
               = np_sum 3 (fun i => np_sum 3 (fun j =>
                   pose_mix F w i * mget P i j * pose_mix F w j))
                 + np_sum 3 (fun i => np_sum 3 (fun j =>
                     np_sum 3 (fun i0 => mget G i0 i * w i0) * mget Q i j
                     * np_sum 3 (fun i0 => mget G i0 j * w i0)))).
  { rewrite !np_sum_3. rewrite !predict_cov_rr by lia.
    unfold pose_mix. cbn [Nat.ltb Nat.leb]. rewrite !np_sum_3. ring. }
  rewrite E1. ring.
Qed.

Lemma predict_cov_symmetric : symmetric P -> symmetric Q -> symmetric (predict_cov Q F G P).
Proof.
  intros [_ HsP] [_ HsQ]. split.
  - destruct predict_cov_shape as [-> ->]. reflexivity.
  - destruct predict_cov_shape as [-> _]. intros i j Hi Hj.
    rewrite HP1 in HsP. rewrite HQ1 in HsQ.
    destruct (Nat.lt_ge_cases i 3) as [Hi3 | Hi3], (Nat.lt_ge_cases j 3) as [Hj3 | Hj3].
    + rewrite !predict_cov_rr by lia. rewrite !np_sum_3.
      rewrite (HsP 1%nat 0%nat), (HsP 2%nat 0%nat), (HsP 2%nat 1%nat) by lia.
      rewrite (HsQ 1%nat 0%nat), (HsQ 2%nat 0%nat), (HsQ 2%nat 1%nat) by lia.
      ring.
    + rewrite predict_cov_rm, predict_cov_mr by lia.
      apply np_sum_ext. intros k Hk. rewrite (HsP k j) by lia. ring.
    + rewrite predict_cov_mr, predict_cov_rm by lia.
      apply np_sum_ext. intros k Hk. rewrite (HsP i k) by lia. ring.
    + rewrite !predict_cov_mm by lia. apply HsP; lia.
Qed.

Lemma predict_cov_psd : psd P -> psd Q -> psd (predict_cov Q F G P).
Proof.
  intros HpP HpQ w. rewrite qform_predict_cov.
  pose proof (HpP (pose_mix F w)).
  pose proof (HpQ (fun k => np_sum 3 (fun i => mget G i k * w i))). lra.
Qed.
End PredictFacts.

Lemma pose_mix_Fx_nonzero (x u : vec R) (m : nat) (w : nat -> R) :
  nonzero (3 + m) w -> nonzero (3 + m) (pose_mix (Fx x u) w).
Proof.
  intros (i & Hi & Hw).
  destruct (Nat.lt_ge_cases i 3) as [Hi3 | Hi3].
  - destruct (Req_dec (w 0%nat) 0) as [E0 | N0].
    + destruct (Req_dec (w 1%nat) 0) as [E1 | N1].
      * exists 2%nat. split; [lia |].
        assert (Hi2 : i = 2%nat).
        { destruct i as [| [| [| i]]]; [contradiction | contradiction | reflexivity | lia]. }
        subst i. unfold pose_mix. cbn. rewrite E0, E1.
        intros Hc. apply Hw. lra.
      * exists 1%nat. split; [lia |]. unfold pose_mix. cbn.
        intros Hc. apply N1. lra.
    + exists 0%nat. split; [lia |]. unfold pose_mix. cbn.
      intros Hc. apply N0. lra.
  - exists i. split; [exact Hi |].
    replace i with (3 + (i - 3))%nat by lia. rewrite pose_mix_map.
    replace (3 + (i - 3))%nat with i by lia. exact Hw.
Qed.

Lemma Fu_transpose_nonzero (x u : vec R) (w : nat -> R) :
  nonzero 3 w -> nonzero 3 (fun k => np_sum 3 (fun i => mget (Fu x u) i k * w i)).
Proof.
  intros (i & Hi & Hw).
  pose proof (sin2_cos2 (vget x 2)) as Hsc. unfold Rsqr in Hsc.
  set (s := sin (vget x 2)) in *. set (c := cos (vget x 2)) in *.
  destruct (Req_dec (c * w 0%nat + s * w 1%nat) 0) as [E0 | N0].
  - destruct (Req_dec (-1 * s * w 0%nat + c * w 1%nat) 0) as [E1 | N1].
    + exists 2%nat. split; [lia |]. cbn.
      assert (W0 : w 0%nat = 0) by nra.
      assert (W1 : w 1%nat = 0) by nra.
      assert (Hi2 : i = 2%nat).
      { destruct i as [| [| [| i]]]; [contradiction | contradiction | reflexivity | lia]. }
      subst i. intros Hc. apply Hw. lra.
    + exists 1%nat. split; [lia |]. cbn. fold s c.
      intros Hc. apply N1. lra.
  - exists 0%nat. split; [lia |]. cbn. fold s c.
    intros Hc. apply N0. lra.
Qed.

Lemma predict_cov_pd (Q P : mat R) (x u : vec R) (m : nat) :
  nrows Q = 3%nat -> ncols Q = 3%nat ->
  nrows P = (3 + m)%nat -> ncols P = (3 + m)%nat ->
  psd P -> psd Q -> pd P \/ (m = 0%nat /\ pd Q) ->
  pd (predict_cov Q (Fx x u) (Fu x u) P).
Proof.
  intros HQ1 HQ2 HP1 HP2 HpP HpQ Hpd w Hw.
  destruct (predict_cov_shape Q (Fx x u) (Fu x u) P m HP1 HP2) as [Hr _].
  rewrite Hr in Hw.
  rewrite (qform_predict_cov Q (Fx x u) (Fu x u) P m) by (assumption || reflexivity).
  destruct Hpd as [Hpd | [Hm Hpd]].
  - assert (0 < qform P (pose_mix (Fx x u) w)).
    { apply Hpd. rewrite HP1. apply pose_mix_Fx_nonzero, Hw. }
    pose proof (HpQ (fun k => np_sum 3 (fun i => mget (Fu x u) i k * w i))). lra.
  - assert (0 < qform Q (fun k => np_sum 3 (fun i => mget (Fu x u) i k * w i))).
    { apply Hpd. rewrite HQ1. apply Fu_transpose_nonzero.
      rewrite Hm in Hw. exact Hw. }
    pose proof (HpP (pose_mix (Fx x u) w)). lra.
Qed.

Lemma mzeros_symmetric (n : nat) : symmetric (mzeros (T := R) n n).
Proof. split; [reflexivity | intros; reflexivity]. Qed.

Lemma mzeros_psd (n : nat) : psd (mzeros (T := R) n n).
Proof.
  intros w. unfold qform. apply np_sum_ge0. intros i _.
  apply np_sum_ge0. intros j _. cbn. lra.
Qed.

Lemma eye_symmetric (n : nat) : symmetric (eye (T := R) n n).
Proof.
  split; [reflexivity |]. intros i j _ _. cbn.
  rewrite (Nat.eqb_sym j i). reflexivity.
Qed.

Lemma eye3_psd : psd (eye (T := R) 3 3).
Proof. intros w. unfold qform. cbn. nra. Qed.

Lemma eye3_pd : pd (eye (T := R) 3 3).
Proof.
  intros w (i & Hi & Hw). unfold qform. cbn in *.
  assert (0 < w i * w i) by nra.
  destruct i as [| [| [| i]]]; [nra | nra | nra | lia].
Qed.

Lemma eye2_psd : psd (eye (T := R) 2 2).
Proof. intros w. unfold qform. cbn. nra. Qed.

Section DefiniteFacts.
Local Open Scope R_scope.

Lemma np_sum2_ext (n m : nat) (g1 g2 : nat -> nat -> R) :
  (forall i j, (i < n)%nat -> (j < m)%nat -> g1 i j = g2 i j) ->
  np_sum n (fun i => np_sum m (fun j => g1 i j))
  = np_sum n (fun i => np_sum m (fun j => g2 i j)).
Proof.
  intros H. apply np_sum_ext. intros i Hi. apply np_sum_ext. intros j Hj. auto.
Qed.

Lemma np_sum2_plus (n m : nat) (g1 g2 : nat -> nat -> R) :
  np_sum n (fun i => np_sum m (fun j => g1 i j + g2 i j))
  = np_sum n (fun i => np_sum m (fun j => g1 i j))
    + np_sum n (fun i => np_sum m (fun j => g2 i j)).
Proof.
  rewrite <- np_sum_plus. apply np_sum_ext. intros i _. apply np_sum_plus.
Qed.

Lemma np_sum2_scal (n m : nat) (c : R) (g : nat -> nat -> R) :
  np_sum n (fun i => np_sum m (fun j => c * g i j))
  = c * np_sum n (fun i => np_sum m (fun j => g i j)).
Proof.
  rewrite <- np_sum_scal. apply np_sum_ext. intros i _. apply np_sum_scal.
Qed.

(** The quadratic form of a symmetric matrix along the line [w + t u]. *)
Lemma qform_line (A : mat R) (w u : nat -> R) (t : R) :
  symmetric A ->
  qform A (fun k => w k + t * u k)
  = qform A w
    + 2 * t * np_sum (nrows A) (fun i => u i * np_sum (ncols A) (fun j => mget A i j * w j))
    + t * t * qform A u.
Proof.
  intros [Hsq Hsym]. unfold qform. rewrite <- Hsq.
  set (n := nrows A) in *.
  assert (Huw : np_sum n (fun i => u i * np_sum n (fun j => mget A i j * w j))
                = np_sum n (fun i => np_sum n (fun j => u i * mget A i j * w j))).
  { apply np_sum_ext. intros i _. rewrite <- np_sum_scal.
    apply np_sum_ext. intros j _. ring. }
  assert (Hwu : np_sum n (fun i => np_sum n (fun j => w i * mget A i j * u j))
                = np_sum n (fun i => np_sum n (fun j => u i * mget A i j * w j))).
  { rewrite np_sum_swap. apply np_sum2_ext. intros i j Hi Hj.
    rewrite (Hsym j i Hj Hi). ring. }
  rewrite Huw.
  rewrite (np_sum2_ext n n _
             (fun i j => (w i * mget A i j * w j + t * (u i * mget A i j * w j))
                         + (t * (w i * mget A i j * u j)
                            + t * t * (u i * mget A i j * u j))))
    by (intros; ring).
  rewrite np_sum2_plus, !np_sum2_plus, !np_sum2_scal, Hwu. ring.
Qed.

Lemma np_sum_delta (n i : nat) (g : nat -> R) :
  (i < n)%nat -> np_sum n (fun j => if (i =? j)%nat then g j else 0) = g i.
Proof.
  intros Hi. induction n as [| n IH]; [lia |].
  rewrite np_sum_S.
  destruct (Nat.eq_dec i n) as [-> | Hne].
  - rewrite Nat.eqb_refl.
    rewrite np_sum_zero; [lra |].
    intros j Hj. replace (n =? j)%nat with false; [reflexivity |].
    symmetry. apply Nat.eqb_neq. lia.
  - rewrite IH by lia.
    replace (i =? n)%nat with false by (symmetry; apply Nat.eqb_neq; lia). lra.
Qed.

(** A vector on which a symmetric positive semi-definite form vanishes is
    in the kernel of the matrix. *)
Lemma psd_kernel (A : mat R) (w : nat -> R) (i : nat) :
  symmetric A -> psd A -> qform A w = 0 -> (i < nrows A)%nat ->
  np_sum (ncols A) (fun j => mget A i j * w j) = 0.
Proof.
  intros Hsym Hpsd Hw Hi.
  set (u := fun k : nat => if (i =? k)%nat then 1 else 0).
  set (b := np_sum (ncols A) (fun j => mget A i j * w j)).
  assert (Hb : np_sum (nrows A)
                 (fun k => u k * np_sum (ncols A) (fun j => mget A k j * w j)) = b).
  { unfold b.
    rewrite <- (np_sum_delta (nrows A) i
                  (fun k => np_sum (ncols A) (fun j => mget A k j * w j)) Hi).
    apply np_sum_ext. intros k _. unfold u. destruct (i =? k)%nat; ring. }
  pose proof (Hpsd u) as Hc.
  set (c := qform A u) in *.
  pose proof (Hpsd (fun k => w k + (- b / (c + 1)) * u k)) as Hline.
  rewrite (qform_line A w u _ Hsym), Hw, Hb in Hline. fold c in Hline.
  destruct (Req_dec b 0) as [E | N]; [exact E | exfalso].
  assert (Hk : 0 < / (c + 1)) by (apply Rinv_0_lt_compat; lra).
  assert (Hkc : / (c + 1) * (c + 1) = 1) by (field; lra).
  set (k := / (c + 1)) in *.
  replace (0 + 2 * (- b / (c + 1)) * b + - b / (c + 1) * (- b / (c + 1)) * c)
    with (b * b * k * (k * c - 2)) in Hline by (unfold Rdiv; fold k; ring).
  assert (Hbb : 0 < b * b) by nra.
  assert (Hkc2 : k * c - 2 < 0) by nra.
  assert (0 < b * b * k) by (apply Rmult_lt_0_compat; assumption).
  nra.
Qed.

(** For a symmetric positive semi-definite matrix, positive eigenvalues
    mean positive definite: a vector on which the form vanishes would be an
    eigenvector of the eigenvalue 0. *)
Lemma eigvals_gt0_pd (A : mat R) : symmetric A -> psd A -> eigvals_gt0 A -> pd A.
Proof.
  intros Hsym Hpsd Hev v Hv.
  destruct (Rle_lt_or_eq_dec 0 (qform A v) (Hpsd v)) as [Hlt | Heq]; [exact Hlt | exfalso].
  assert (H0 : eigval A 0).
  { exists v. split; [exact Hv |]. intros i Hi.
    rewrite Rmult_0_l. apply psd_kernel; auto. }
  specialize (Hev 0 H0). lra.
Qed.
End DefiniteFacts.

Section MapBlock.
Local Open Scope R_scope.

Lemma qform_ext (A : mat R) (v w : nat -> R) :
  nrows A = ncols A -> (forall i, (i < nrows A)%nat -> v i = w i) ->
  qform A v = qform A w.
Proof.
  intros Hsq H. unfold qform. rewrite <- Hsq.
  apply np_sum2_ext. intros i j Hi Hj. rewrite (H i Hi), (H j Hj). reflexivity.
Qed.

Lemma qform_vanishing (A : mat R) (v : nat -> R) :
  nrows A = ncols A -> (forall i, (i < nrows A)%nat -> v i = 0) -> qform A v = 0.
Proof.
  intros Hsq H. unfold qform. rewrite <- Hsq.
  apply np_sum_zero. intros i Hi. apply np_sum_zero. intros j Hj.
  rewrite (H i Hi). ring.
Qed.

(** On a vector with zero pose entries, the form of [P] is the form of its
    map-map block [P[3:, 3:]]. *)
Lemma qform_map_block (P : mat R) (m : nat) (w : nat -> R) :
  nrows P = (3 + m)%nat -> ncols P = (3 + m)%nat ->
  (forall i, (i < 3)%nat -> w i = 0) ->
  qform P w = qform (mslice P 3 (nrows P) 3 (ncols P)) (fun b => w (3 + b)%nat).
Proof.
  intros HP1 HP2 Hw. unfold qform.
  cbn [nrows ncols mslice mget]. rewrite HP1, HP2, !Nat.min_id.
  replace (3 + m - 3)%nat with m by lia.
  rewrite (np_sum_blocks 3 m).
  rewrite (np_sum_zero 3 (fun i => np_sum 3 _)),
          (np_sum_zero 3 (fun i => np_sum m _)),
          (np_sum_zero m (fun i => np_sum 3 _)).
  - ring.
  - intros i _. apply np_sum_zero. intros j Hj. rewrite (Hw j Hj). ring.
  - intros i Hi. apply np_sum_zero. intros j _. rewrite (Hw i Hi). ring.
  - intros i Hi. apply np_sum_zero. intros j _. rewrite (Hw i Hi). ring.
Qed.

Lemma predict_cov_on_map (Q F G P : mat R) (m : nat) (w : nat -> R) :
  nrows F = 3%nat -> ncols F = 3%nat -> nrows G = 3%nat -> ncols G = 3%nat ->
  nrows Q = 3%nat -> ncols Q = 3%nat ->
  nrows P = (3 + m)%nat -> ncols P = (3 + m)%nat ->
  (forall i, (i < 3)%nat -> w i = 0) ->
  qform (predict_cov Q F G P) w
  = qform (mslice P 3 (nrows P) 3 (ncols P)) (fun b => w (3 + b)%nat).
Proof.
  intros HF1 HF2 HG1 HG2 HQ1 HQ2 HP1 HP2 Hw.
  rewrite (qform_predict_cov Q F G P m) by assumption.
  rewrite (qform_vanishing Q) by
    (try lia; intros k _; apply np_sum_zero; intros i Hi; rewrite (Hw i Hi); ring).
  rewrite (qform_ext P (pose_mix F w) w).
  - rewrite (qform_map_block P m w) by assumption. ring.
  - lia.
  - intros k _. unfold pose_mix. destruct (Nat.ltb_spec k 3) as [Hk | Hk]; [| reflexivity].
    rewrite (Hw k Hk). apply np_sum_zero. intros i Hi. rewrite (Hw i Hi). ring.
Qed.

(** The predicted covariance is positive definite only if the map-map block
    of [P] is: the process noise reaches the pose block alone. *)
Lemma predict_cov_pd_map_block (Q F G P : mat R) (m : nat) :
  nrows F = 3%nat -> ncols F = 3%nat -> nrows G = 3%nat -> ncols G = 3%nat ->
  nrows Q = 3%nat -> ncols Q = 3%nat ->
  nrows P = (3 + m)%nat -> ncols P = (3 + m)%nat ->
  pd (predict_cov Q F G P) -> pd (mslice P 3 (nrows P) 3 (ncols P)).
Proof.
  intros HF1 HF2 HG1 HG2 HQ1 HQ2 HP1 HP2 Hpd v Hv.
  set (w := fun k : nat => if (k <? 3)%nat then 0 else v (k - 3)%nat).
  assert (Hw : forall i, (i < 3)%nat -> w i = 0).
  { intros i Hi. unfold w. apply Nat.ltb_lt in Hi. rewrite Hi. reflexivity. }
  assert (Hshift : forall b, w (3 + b)%nat = v b).
  { intros b. unfold w.
    replace (3 + b <? 3)%nat with false by (symmetry; apply Nat.ltb_ge; lia).
    f_equal. lia. }
  assert (Hnz : nonzero (nrows (predict_cov Q F G P)) w).
  { destruct (predict_cov_shape Q F G P m HP1 HP2) as [-> _].
    destruct Hv as (b & Hb & Hvb).
    cbn [nrows mslice] in Hb. rewrite HP1, Nat.min_id in Hb.
    exists (3 + b)%nat. split; [lia | rewrite Hshift; exact Hvb]. }
  specialize (Hpd w Hnz).
  rewrite (predict_cov_on_map Q F G P m w) in Hpd by assumption.
  rewrite (qform_ext _ _ v) in Hpd; [exact Hpd | |].
  - cbn [nrows ncols mslice]. rewrite HP1, HP2. reflexivity.
  - intros b _. apply Hshift.
Qed.

(** With a positive definite process noise, a positive definite map-map
    block is enough. *)
Lemma predict_cov_pd_of_map_block (Q P : mat R) (x u : vec R) (m : nat) :
  nrows Q = 3%nat -> ncols Q = 3%nat ->
  nrows P = (3 + m)%nat -> ncols P = (3 + m)%nat ->
  psd P -> pd Q -> pd (mslice P 3 (nrows P) 3 (ncols P)) ->
  pd (predict_cov Q (Fx x u) (Fu x u) P).
Proof.
  intros HQ1 HQ2 HP1 HP2 HpP HpQ Hmap w Hw.
  destruct (predict_cov_shape Q (Fx x u) (Fu x u) P m HP1 HP2) as [Hr _].
  rewrite Hr in Hw.
  destruct (classic (exists i, (i < 3)%nat /\ w i <> 0)) as [Hpose | Hnone].
  - rewrite (qform_predict_cov Q (Fx x u) (Fu x u) P m) by (assumption || reflexivity).
    assert (0 < qform Q (fun k => np_sum 3 (fun i => mget (Fu x u) i k * w i))).
    { apply HpQ. rewrite HQ1. apply Fu_transpose_nonzero. exact Hpose. }
    pose proof (HpP (pose_mix (Fx x u) w)). lra.
  - assert (Hw0 : forall i, (i < 3)%nat -> w i = 0).
    { intros i Hi. destruct (Req_dec (w i) 0) as [E | N]; [exact E |].
      exfalso. apply Hnone. exists i. split; assumption. }
    rewrite (predict_cov_on_map Q (Fx x u) (Fu x u) P m w)
      by (assumption || reflexivity).
    apply Hmap.
    destruct Hw as (i & Hi & Hwi).
    cbn [nrows mslice]. rewrite HP1, Nat.min_id.
    exists (i - 3)%nat.
    destruct (Nat.lt_ge_cases i 3) as [Hi3 | Hi3]; [exfalso; apply Hwi, Hw0, Hi3 |].
    split; [lia |]. replace (3 + (i - 3))%nat with i by lia. exact Hwi.
Qed.
End MapBlock.

Section PredictTheorems.
Local Open Scope py_scope.

Lemma no_landmark_map_block (P : mat R) : nrows P = 3%nat -> pd (mslice P 3 (nrows P) 3 (ncols P)).
Proof.
  intros HP v (b & Hb & _). cbn [nrows mslice] in Hb. rewrite HP in Hb. cbn in Hb. lia.
Qed.

(** C3, as the code has it.  For a state whose covariance is symmetric and
    positive semi-definite, and a symmetric positive semi-definite process
    noise [Q], the covariance that [predict] computes is symmetric and
    positive semi-definite.  [predict] returns it exactly when it is
    positive definite, which is when its eigenvalues are positive; otherwise
    the call ends in the assertion on the eigenvalues.  It is positive
    definite when [P] is, and when [Q] and the map-map block [P[3:, 3:]]
    are, as on every state without a landmark; it is positive definite only
    if the map-map block is, the process noise reaching the pose block
    alone. *)
Theorem predict_covariance (self : EKFSLAM) (eta : vec R) (P : mat R) (z_odo : vec R) :
  (3 <= vlen eta)%nat -> shape_twice eta P -> symmetric P -> psd P ->
  nrows (Qcov self) = 3%nat -> symmetric (Qcov self) -> psd (Qcov self) ->
  let P' := predict_cov (Qcov self) (Fx (vslice eta 0 3) z_odo)
                        (Fu (vslice eta 0 3) z_odo) P in
  let Pmm := mslice P 3 (nrows P) 3 (ncols P) in
  symmetric P' /\ psd P'
  /\ (pd P' <-> eigvals_gt0 P')
  /\ (pd P' -> exists eta', predict self eta P z_odo = Ok (eta', P'))
  /\ (~ pd P' -> predict self eta P z_odo = Raise AssertionError)
  /\ (pd P \/ (pd (Qcov self) /\ pd Pmm) -> pd P')
  /\ (vlen eta = 3%nat -> pd Pmm)
  /\ (pd P' -> pd Pmm).
Proof.
  intros Hlen [Hr Hc] HsP HpP HQ1 HsQ HpQ P' Pmm.
  assert (HQ2 : ncols (Qcov self) = 3%nat) by (destruct HsQ as [E _]; lia).
  set (m := (vlen eta - 3)%nat).
  assert (HP1 : nrows P = (3 + m)%nat) by (unfold m; lia).
  assert (HP2 : ncols P = (3 + m)%nat) by (unfold m; lia).
  assert (Hsym : symmetric P').
  { apply (predict_cov_symmetric _ _ _ _ m); auto. }
  assert (Hpsd : psd P').
  { apply (predict_cov_psd _ _ _ _ m); auto. }
  assert (Hiff : pd P' <-> eigvals_gt0 P').
  { split; [apply pd_eigvals_gt0, Hsym | apply eigvals_gt0_pd; assumption]. }
  assert (Hhead : predict self eta P z_odo
                  = bind (assert (eigvals_gt0 P'))
                      (fun _ =>
                         bind (assert (shape_twice
                                         (set_vslice
                                            (set_vslice (vempty_like eta) 0
                                               (f (vslice eta 0 3) z_odo))
                                            3 (vfrom eta 3)) P'))
                           (fun _ =>
                              Ok (set_vslice
                                    (set_vslice (vempty_like eta) 0
                                       (f (vslice eta 0 3) z_odo))
                                    3 (vfrom eta 3), P')))).
  { unfold predict.
    rewrite (assert_true (allclose P (transpose P))) by (apply symmetric_allclose, HsP).
    rewrite (assert_true (eigvals_ge0 P))
      by (apply psd_eigvals_ge0; [apply HsP | exact HpP]).
    rewrite (assert_true (shape_twice eta P)) by (split; assumption).
    cbn [bind]. fold P'.
    rewrite (assert_true (allclose P' (transpose P'))) by (apply symmetric_allclose, Hsym).
    reflexivity. }
  split; [exact Hsym | split; [exact Hpsd | split; [exact Hiff |]]].
  split; [| split; [| split; [| split]]].
  - intros Hpd. rewrite Hhead.
    rewrite (assert_true (eigvals_gt0 P')) by (apply Hiff, Hpd).
    cbn [bind].
    rewrite assert_true.
    + cbn [bind]. eexists. reflexivity.
    + destruct (predict_cov_shape (Qcov self) (Fx (vslice eta 0 3) z_odo)
                  (Fu (vslice eta 0 3) z_odo) P m HP1 HP2) as [E1 E2].
      unfold shape_twice. fold P' in E1, E2. rewrite E1, E2.
      cbn [vlen set_vslice vempty_like vzeros]. unfold m. lia.
  - intros Hnpd. rewrite Hhead.
    rewrite (assert_false (eigvals_gt0 P')); [reflexivity |].
    intros Hev. apply Hnpd, Hiff, Hev.
  - intros [Hpd | [HpdQ Hmap]].
    + apply (predict_cov_pd _ _ _ _ m); auto.
    + apply (predict_cov_pd_of_map_block _ _ _ _ m); auto.
  - intros H3. apply no_landmark_map_block. lia.
  - intros Hpd.
    apply (predict_cov_pd_map_block (Qcov self) (Fx (vslice eta 0 3) z_odo)
             (Fu (vslice eta 0 3) z_odo) P m); (assumption || reflexivity).
Qed.
End PredictTheorems.

(** Whatever [predict] returns has passed its assertions: it is symmetric
    up to the tolerance of [np.allclose] and has only positive eigenvalues. *)
Lemma predict_returns_checked (self : EKFSLAM) (eta eta' : vec R) (P P' : mat R)
      (z_odo : vec R) :
  predict self eta P z_odo = Ok (eta', P') ->
  allclose P' (transpose P') /\ eigvals_gt0 P'.
Proof.
  unfold predict. intros H.
  apply assert_bind_inv in H. destruct H as [_ H].
  apply assert_bind_inv in H. destruct H as [_ H].
  apply assert_bind_inv in H. destruct H as [_ H].
  apply assert_bind_inv in H. destruct H as [Hsym H].
  apply assert_bind_inv in H. destruct H as [Hev H].
  apply assert_bind_inv in H. destruct H as [_ H].
  injection H as _ <-. split; assumption.
Qed.

(** C3, counterexample.  A state with one landmark and the zero covariance
    (symmetric, positive semi-definite), process noise the identity: the
    covariance computed by [predict] has the eigenvalue 0, and the call ends
    in the assertion on the eigenvalues instead of returning. *)
Lemma predict_semidefinite_state_fails :
  let self := mkEKFSLAM (eye 3 3) (eye 2 2) true
                        (vec_of_list 0 [0.001; 0.0001]) (vec_of_list 0 [0; 0]) in
  let eta := vec_of_list 0 [0; 0; 0; 1; 0] in
  let P := mzeros 5 5 in
  let z_odo := vec_of_list 0 [0; 0; 0] in
  (shape_twice eta P /\ symmetric P /\ psd P)
  /\ predict self eta P z_odo = Raise AssertionError
  /\ ~ (exists eta' P', predict self eta P z_odo = Ok (eta', P')
                        /\ symmetric P' /\ eigvals_gt0 P').
Proof.
  cbv zeta.
  set (self := mkEKFSLAM _ _ _ _ _).
  set (eta := vec_of_list 0 [0; 0; 0; 1; 0]).
  set (z_odo := vec_of_list 0 [0; 0; 0]).
  assert (Hvalid : shape_twice eta (mzeros 5 5) /\ symmetric (mzeros (T := R) 5 5)
                   /\ psd (mzeros (T := R) 5 5)).
  { split; [split; reflexivity |]. split; [apply mzeros_symmetric | apply mzeros_psd]. }
  assert (Hfail : predict self eta (mzeros 5 5) z_odo = Raise AssertionError).
  { unfold predict.
    rewrite (assert_true (allclose _ _))
      by (apply symmetric_allclose, mzeros_symmetric).
    rewrite (assert_true (eigvals_ge0 _))
      by (apply psd_eigvals_ge0; [reflexivity | apply mzeros_psd]).
    rewrite (assert_true (shape_twice _ _)) by (split; reflexivity).
    cbn [bind].
    set (P' := predict_cov _ _ _ _).
    assert (Hsym : symmetric P').
    { apply (predict_cov_symmetric _ _ _ _ 2); try reflexivity.
      - apply mzeros_symmetric.
      - apply eye_symmetric. }
    rewrite (assert_true (allclose P' _)) by (apply symmetric_allclose, Hsym).
    cbn [bind].
    rewrite (assert_false (eigvals_gt0 P')); [reflexivity |].
    intros Hgt.
    assert (Hev : eigval P' 0).
    { exists (fun j => if (j =? 3)%nat then 1 else 0). split.
      - exists 3%nat. split; [cbn; lia | cbn; lra].
      - intros i Hi.
        change (nrows P') with 5%nat in Hi. change (ncols P') with 5%nat.
        rewrite Rmult_0_l. apply np_sum_zero. intros j Hj. cbv beta.
        destruct (Nat.eqb_spec j 3) as [-> | Hne]; [| apply Rmult_0_r].
        destruct (Nat.lt_ge_cases i 3) as [Hi3 | Hi3].
        + unfold P'. rewrite (predict_cov_rm _ _ _ _ 2) by (reflexivity || lia).
          rewrite np_sum_3. cbn [mget mzeros np_zero R_scalar]. ring.
        + unfold P'. rewrite (predict_cov_mm _ _ _ _ 2) by (reflexivity || lia).
          cbn [mget mzeros np_zero R_scalar]. ring. }
    specialize (Hgt 0 Hev). lra. }
  split; [exact Hvalid | split; [exact Hfail |]].
  intros (eta' & P' & Hok & _). rewrite Hfail in Hok. discriminate.
Qed.
End PredictionFacts.

(** ** State augmentation *)

Section AugmentationFacts.
Local Open Scope R_scope.

Lemma np_sum_lin3 (n : nat) (a0 a1 a2 : R) (x0 x1 x2 : nat -> R) :
  np_sum n (fun b => a0 * x0 b + a1 * x1 b + a2 * x2 b)
  = a0 * np_sum n x0 + a1 * np_sum n x1 + a2 * np_sum n x2.
Proof.
  rewrite !np_sum_plus, !np_sum_scal. reflexivity.
Qed.

Lemma block_diag_tl (A B : mat R) (i j : nat) :
  (i < nrows A)%nat -> (j < ncols A)%nat -> mget (block_diag A B) i j = mget A i j.
Proof.
  intros Hi Hj. cbn [block_diag mget].
  apply Nat.ltb_lt in Hi, Hj. rewrite Hi, Hj. reflexivity.
Qed.

Lemma block_diag_br (A B : mat R) (i j : nat) :
  (nrows A <= i)%nat -> (ncols A <= j)%nat ->
  mget (block_diag A B) i j = mget B (i - nrows A) (j - ncols A).
Proof.
  intros Hi Hj. cbn [block_diag mget].
  apply Nat.ltb_ge in Hi, Hj. rewrite Hi, Hj. reflexivity.
Qed.

Lemma np_sum_head3 (m : nat) (a b : nat -> R) :
  np_sum (3 + m) (fun i => (if (i <? 3)%nat then a i else 0) * b i)
  = a 0%nat * b 0%nat + a 1%nat * b 1%nat + a 2%nat * b 2%nat.
Proof.
  rewrite np_sum_split, np_sum_3.
  rewrite (np_sum_zero m).
  - cbn [Nat.ltb Nat.leb]. ring.
  - intros i _. cbv beta.
    replace (3 + i <? 3)%nat with false; [cbv iota; ring |].
    symmetry. apply Nat.ltb_ge. lia.
Qed.

Section AugmentFacts.
Variables (P Gx Rall : mat R) (m K : nat).
Hypothesis HP1 : nrows P = (3 + m)%nat.
Hypothesis HP2 : ncols P = (3 + m)%nat.
Hypothesis HG1 : nrows Gx = K.
Hypothesis HG2 : ncols Gx = 3%nat.
Hypothesis HR1 : nrows Rall = K.
Hypothesis HR2 : ncols Rall = K.

Ltac shapes :=
  cbn [nrows ncols matmul madd mslice set_block transpose block_diag];
  rewrite ?HP1, ?HP2, ?HG1, ?HG2, ?HR1, ?HR2; try lia.

Lemma augment_cov_shape :
  nrows (augment_cov P Gx Rall) = (3 + m + K)%nat
  /\ ncols (augment_cov P Gx Rall) = (3 + m + K)%nat.
Proof. unfold augment_cov. split; shapes. Qed.

Lemma augment_cov_tl (i j : nat) : (i < 3 + m)%nat -> (j < 3 + m)%nat ->
  mget (augment_cov P Gx Rall) i j = mget P i j.
Proof.
  intros Hi Hj. unfold augment_cov.
  rewrite set_block_out by shapes.
  rewrite set_block_out by shapes.
  apply block_diag_tl; lia.
Qed.

Lemma augment_cov_tr (i b : nat) : (i < 3 + m)%nat -> (b < K)%nat ->
  mget (augment_cov P Gx Rall) i (3 + m + b)
  = np_sum 3 (fun c => mget P i c * mget Gx b c).
Proof.
  intros Hi Hb. unfold augment_cov.
  rewrite set_block_out by shapes.
  rewrite set_block_in by shapes.
  cbn [mget matmul mslice transpose nrows ncols].
  rewrite ?HP1, ?HP2, !Nat.sub_0_r.
  replace (Nat.min 3 (3 + m)) with 3%nat by lia.
  replace (3 + m + b - (3 + m))%nat with b by lia.
  apply np_sum_ext. intros c Hc. reflexivity.
Qed.

Lemma augment_cov_bl (a j : nat) : (a < K)%nat -> (j < 3 + m)%nat ->
  mget (augment_cov P Gx Rall) (3 + m + a) j
  = np_sum 3 (fun c => mget P j c * mget Gx a c).
Proof.
  intros Ha Hj. unfold augment_cov.
  rewrite set_block_in by shapes.
  cbn [mget mslice transpose nrows ncols].
  rewrite ?HP1, ?HP2, !Nat.sub_0_r.
  rewrite set_block_in by shapes.
  cbn [mget matmul mslice transpose nrows ncols].
  rewrite ?HP1, ?HP2, !Nat.sub_0_r.
  replace (Nat.min 3 (3 + m)) with 3%nat by lia.
  replace (3 + m + (3 + m + a - (3 + m)) - (3 + m))%nat with a by lia.
  apply np_sum_ext. intros c Hc. reflexivity.
Qed.

Lemma augment_cov_br (a b : nat) : (a < K)%nat -> (b < K)%nat ->
  mget (augment_cov P Gx Rall) (3 + m + a) (3 + m + b)
  = np_sum 3 (fun d => np_sum 3 (fun c => mget Gx a c * mget P c d) * mget Gx b d)
    + mget Rall a b.
Proof.
  intros Ha Hb. unfold augment_cov.
  rewrite set_block_out by shapes.
  rewrite set_block_out by shapes.
  rewrite block_diag_br by shapes.
  cbn [mget madd matmul mslice transpose nrows ncols].
  rewrite ?HP1, ?HP2, ?HG2, !Nat.sub_0_r.
  replace (Nat.min 3 (3 + m)) with 3%nat by lia.
  replace (3 + m + a - (3 + m))%nat with a by lia.
  replace (3 + m + b - (3 + m))%nat with b by lia.
  reflexivity.
Qed.

Lemma qform_augment_cov (w : nat -> R) :
  symmetric P ->
  qform (augment_cov P Gx Rall) w
  = qform P (pose_shift (Gx_pull Gx K (fun a => w (3 + m + a)%nat)) w)
    + qform Rall (fun a => w (3 + m + a)%nat).
Proof.
  intros [_ Hsym]. rewrite HP1 in Hsym.
  set (u := fun a => w (3 + m + a)%nat).
  set (g := Gx_pull Gx K u).
  set (s := fun i => mget P i 0 * g 0%nat + mget P i 1 * g 1%nat + mget P i 2 * g 2%nat).
  set (A := np_sum (3 + m) (fun i => np_sum (3 + m) (fun j => w i * mget P i j * w j))).
  set (B := np_sum (3 + m) (fun i => w i * s i)).
  set (C := g 0%nat * s 0%nat + g 1%nat * s 1%nat + g 2%nat * s 2%nat).
  assert (Hg : forall c x, np_sum K (fun a => x * (mget Gx a c * u a)) = x * g c).
  { intros c x. rewrite np_sum_scal. reflexivity. }
  (* the right-hand side *)
  assert (ER : qform P (pose_shift g w) = A + 2 * B + C).
  { unfold qform. rewrite HP1, HP2.
    rewrite (np_sum_ext _ _
               (fun i => w i * np_sum (3 + m) (fun j => mget P i j * w j) + w i * s i
                         + (if (i <? 3)%nat then g i else 0)
                           * np_sum (3 + m) (fun j => mget P i j * w j)
                         + (if (i <? 3)%nat then g i else 0) * s i)).
    - rewrite !np_sum_plus, !np_sum_head3.
      assert (EA : np_sum (3 + m) (fun i => w i * np_sum (3 + m) (fun j => mget P i j * w j)) = A).
      { apply np_sum_ext. intros i Hi. rewrite <- np_sum_scal.
        apply np_sum_ext. intros j Hj. ring. }
      assert (EB : g 0%nat * np_sum (3 + m) (fun j => mget P 0 j * w j)
                   + g 1%nat * np_sum (3 + m) (fun j => mget P 1 j * w j)
                   + g 2%nat * np_sum (3 + m) (fun j => mget P 2 j * w j) = B).
      { rewrite <- !np_sum_scal, <- !np_sum_plus. apply np_sum_ext. intros j Hj.
        unfold s. rewrite (Hsym j 0%nat), (Hsym j 1%nat), (Hsym j 2%nat) by lia. ring. }
      rewrite EA, EB. fold B. unfold C. ring.
    - intros i Hi. unfold pose_shift.
      rewrite (np_sum_ext _ _
                 (fun j => (w i + (if (i <? 3)%nat then g i else 0)) * (mget P i j * w j)
                           + (if (j <? 3)%nat then g j else 0)
                             * ((w i + (if (i <? 3)%nat then g i else 0)) * mget P i j)))
        by (intros; ring).
      rewrite np_sum_plus, np_sum_scal, np_sum_head3. unfold s. ring. }
  (* the left-hand side, block after block *)
  unfold qform at 1.
  destruct augment_cov_shape as [-> ->].
  rewrite (np_sum_blocks (3 + m) K).
  assert (E1 : np_sum (3 + m) (fun i => np_sum (3 + m) (fun j =>
                 w i * mget (augment_cov P Gx Rall) i j * w j)) = A).
  { apply np_sum_ext. intros i Hi. apply np_sum_ext. intros j Hj.
    rewrite augment_cov_tl by lia. reflexivity. }
  assert (Hrow : forall i, np_sum K (fun b =>
                   w i * np_sum 3 (fun c => mget P i c * mget Gx b c) * u b) = w i * s i).
  { intros i.
    rewrite (np_sum_ext _ _
               (fun b => (w i * mget P i 0) * (mget Gx b 0 * u b)
                         + (w i * mget P i 1) * (mget Gx b 1 * u b)
                         + (w i * mget P i 2) * (mget Gx b 2 * u b)))
      by (intros; rewrite np_sum_3; ring).
    rewrite np_sum_lin3. unfold s. fold (g 0%nat) (g 1%nat) (g 2%nat).
    change (np_sum K (fun a => mget Gx a 0 * u a)) with (g 0%nat).
    change (np_sum K (fun a => mget Gx a 1 * u a)) with (g 1%nat).
    change (np_sum K (fun a => mget Gx a 2 * u a)) with (g 2%nat).
    ring. }
  assert (E2 : np_sum (3 + m) (fun i => np_sum K (fun b =>
                 w i * mget (augment_cov P Gx Rall) i (3 + m + b) * w (3 + m + b)%nat)) = B).
  { apply np_sum_ext. intros i Hi. rewrite <- Hrow.
    apply np_sum_ext. intros b Hb. rewrite augment_cov_tr by lia. reflexivity. }
  assert (E3 : np_sum K (fun a => np_sum (3 + m) (fun j =>
                 w (3 + m + a)%nat * mget (augment_cov P Gx Rall) (3 + m + a) j * w j)) = B).
  { rewrite np_sum_swap. apply np_sum_ext. intros j Hj. rewrite <- Hrow.
    apply np_sum_ext. intros a Ha. rewrite augment_cov_bl by lia. unfold u. ring. }
  assert (E4 : np_sum K (fun a => np_sum K (fun b =>
                 w (3 + m + a)%nat * mget (augment_cov P Gx Rall) (3 + m + a) (3 + m + b)
                 * w (3 + m + b)%nat)) = C + qform Rall u).
  { unfold qform. rewrite HR1, HR2.
    rewrite (np_sum_ext _ _
               (fun a => (s 0%nat * (mget Gx a 0 * u a) + s 1%nat * (mget Gx a 1 * u a)
                          + s 2%nat * (mget Gx a 2 * u a))
                         + np_sum K (fun b => u a * mget Rall a b * u b))).
    - rewrite np_sum_plus, np_sum_lin3.
      change (np_sum K (fun a => mget Gx a 0 * u a)) with (g 0%nat).
      change (np_sum K (fun a => mget Gx a 1 * u a)) with (g 1%nat).
      change (np_sum K (fun a => mget Gx a 2 * u a)) with (g 2%nat).
      unfold C. ring.
    - intros a Ha.
      rewrite (np_sum_ext _ _
                 (fun b => ((u a * np_sum 3 (fun c => mget Gx a c * mget P c 0)) * (mget Gx b 0 * u b)
                            + (u a * np_sum 3 (fun c => mget Gx a c * mget P c 1)) * (mget Gx b 1 * u b)
                            + (u a * np_sum 3 (fun c => mget Gx a c * mget P c 2)) * (mget Gx b 2 * u b))
                           + u a * mget Rall a b * u b)).
      + rewrite np_sum_plus, np_sum_lin3.
        change (np_sum K (fun a => mget Gx a 0 * u a)) with (g 0%nat).
        change (np_sum K (fun a => mget Gx a 1 * u a)) with (g 1%nat).
        change (np_sum K (fun a => mget Gx a 2 * u a)) with (g 2%nat).
        rewrite !np_sum_3. unfold s.
        rewrite (Hsym 1%nat 0%nat), (Hsym 2%nat 0%nat), (Hsym 2%nat 1%nat) by lia.
        ring.
      + intros b Hb. rewrite augment_cov_br by lia. rewrite np_sum_3. unfold u. ring. }
  rewrite E1, E2, E3, E4, ER. fold u. ring.
Qed.
End AugmentFacts.

Ltac divmod2 a :=
  pose proof (Nat.div_mod_eq a 2);
  pose proof (Nat.mod_upper_bound a 2 ltac:(lia)).

Section AugmentDefinite.
Variables (P Gx Rall : mat R) (m K : nat).
Hypothesis HP1 : nrows P = (3 + m)%nat.
Hypothesis HP2 : ncols P = (3 + m)%nat.
Hypothesis HG1 : nrows Gx = K.
Hypothesis HG2 : ncols Gx = 3%nat.
Hypothesis HR1 : nrows Rall = K.
Hypothesis HR2 : ncols Rall = K.

Lemma augment_cov_symmetric :
  symmetric P -> symmetric Rall -> symmetric (augment_cov P Gx Rall).
Proof.
  intros [_ HsP] [_ HsR]. rewrite HP1 in HsP. rewrite HR1 in HsR.
  destruct (augment_cov_shape P Gx Rall m K) as [Er Ec]; try assumption.
  split; [rewrite Er, Ec; reflexivity |].
  rewrite Er. intros i j Hi Hj.
  destruct (Nat.lt_ge_cases i (3 + m)) as [Hi3 | Hi3],
           (Nat.lt_ge_cases j (3 + m)) as [Hj3 | Hj3].
  - rewrite !(augment_cov_tl P Gx Rall m K) by assumption. apply HsP; assumption.
  - replace j with (3 + m + (j - (3 + m)))%nat by lia.
    rewrite (augment_cov_tr P Gx Rall m K), (augment_cov_bl P Gx Rall m K)
      by (assumption || lia).
    reflexivity.
  - replace i with (3 + m + (i - (3 + m)))%nat by lia.
    rewrite (augment_cov_tr P Gx Rall m K), (augment_cov_bl P Gx Rall m K)
      by (assumption || lia).
    reflexivity.
  - replace i with (3 + m + (i - (3 + m)))%nat by lia.
    replace j with (3 + m + (j - (3 + m)))%nat by lia.
    rewrite !(augment_cov_br P Gx Rall m K) by (assumption || lia).
    rewrite (HsR (i - (3 + m))%nat (j - (3 + m))%nat) by lia.
    rewrite !np_sum_3.
    rewrite (HsP 1%nat 0%nat), (HsP 2%nat 0%nat), (HsP 2%nat 1%nat) by lia.
    ring.
Qed.

Lemma augment_cov_psd :
  symmetric P -> psd P -> psd Rall -> psd (augment_cov P Gx Rall).
Proof.
  intros HsP HpP HpR w.
  rewrite (qform_augment_cov P Gx Rall m K) by assumption.
  pose proof (HpP (pose_shift (Gx_pull Gx K (fun a => w (3 + m + a)%nat)) w)).
  pose proof (HpR (fun a => w (3 + m + a)%nat)). lra.
Qed.
End AugmentDefinite.

Section AugmentLoop.
Variables (self : EKFSLAM) (eta z sow sowd : vec R) (K : nat).

Lemma landmark_noise_shape (j : nat) :
  nrows (landmark_noise self eta z j) = 2%nat /\ ncols (landmark_noise self eta z j) = 2%nat.
Proof. split; reflexivity. Qed.

Lemma add_landmarks_body_inv (j : nat) (st : add_bufs) :
  add_inv self eta z K j st ->
  add_inv self eta z K (S j) (add_landmarks_body self eta z sow sowd st j).
Proof.
  intros (Hl & HG1 & HG2 & HR1 & HR2 & Hcl).
  unfold add_inv, add_landmarks_body.
  cbn [buf_lmnew buf_Gx buf_Rall vlen set_vslice nrows ncols set_block set_colslice].
  repeat (split; [assumption |]).
  intros a b.
  fold (landmark_noise self eta z j).
  destruct (Nat.lt_ge_cases a (2 * j)) as [Ha | Ha];
    destruct (Nat.lt_ge_cases b (2 * j)) as [Hb | Hb];
    destruct (Nat.lt_ge_cases a (2 * S j)) as [Ha' | Ha'];
    destruct (Nat.lt_ge_cases b (2 * S j)) as [Hb' | Hb']; try lia.
  all: destruct (landmark_noise_shape j) as [Br Bc].
  all: try (rewrite set_block_out by (rewrite Br, Bc; lia)).
  all: try (rewrite set_block_in by (rewrite ?Br, ?Bc; lia)).
  all: rewrite ?Hcl.
  all: repeat match goal with
       | |- context [(?x <? ?y)%nat] =>
         let E := fresh "E" in
         destruct (Nat.ltb_spec x y) as [E | E]; try lia
       end.
  all: cbn [andb]; try reflexivity.
  - unfold Rall_closed. divmod2 a. divmod2 b.
    replace (a / 2 =? b / 2)%nat with false; [reflexivity |].
    symmetry. apply Nat.eqb_neq. lia.
  - unfold Rall_closed. divmod2 a. divmod2 b.
    replace (a / 2 =? b / 2)%nat with false; [reflexivity |].
    symmetry. apply Nat.eqb_neq. lia.
  - unfold Rall_closed. divmod2 a. divmod2 b.
    replace (a / 2)%nat with j by lia. replace (b / 2)%nat with j by lia.
    rewrite Nat.eqb_refl.
    replace (a - 2 * j)%nat with (a mod 2)%nat by lia.
    replace (b - 2 * j)%nat with (b mod 2)%nat by lia.
    reflexivity.
Qed.

Lemma add_landmarks_loop_inv (j : nat) (st : add_bufs) :
  add_inv self eta z K 0 st ->
  add_inv self eta z K j
          (fold_left (add_landmarks_body self eta z sow sowd) (seq 0 j) st).
Proof.
  intros Hst. induction j as [| j IH].
  - exact Hst.
  - rewrite seq_S, fold_left_app. cbn [fold_left Nat.add].
    apply add_landmarks_body_inv, IH.
Qed.
End AugmentLoop.

Section NoiseBlocks.
Variables (self : EKFSLAM) (eta z : vec R).
Hypothesis HR1 : nrows (Rcov self) = 2%nat.
Hypothesis HR2 : ncols (Rcov self) = 2%nat.

Lemma landmark_noise_entry (j r s : nat) :
  mget (landmark_noise self eta z j) r s
  = np_sum 2 (fun d =>
      np_sum 2 (fun c =>
        mget (Gz_of (vget eta 2) (vget z (2 * j + 0)) (vget z (2 * j + 1))) r c
        * mget (Rcov self) c d)
      * mget (Gz_of (vget eta 2) (vget z (2 * j + 0)) (vget z (2 * j + 1))) s d).
Proof.
  unfold landmark_noise.
  cbn [mget matmul transpose ncols nrows vslice vget]. rewrite HR2.
  reflexivity.
Qed.

Lemma landmark_noise_sym (j r s : nat) :
  symmetric (Rcov self) ->
  mget (landmark_noise self eta z j) r s = mget (landmark_noise self eta z j) s r.
Proof.
  intros [_ Hs]. rewrite HR1 in Hs.
  rewrite !landmark_noise_entry, !np_sum_2.
  rewrite (Hs 1%nat 0%nat) by lia. ring.
Qed.

Lemma landmark_noise_qform (j : nat) (t : nat -> R) :
  psd (Rcov self) ->
  0 <= np_sum 2 (fun r => np_sum 2 (fun s =>
         t r * mget (landmark_noise self eta z j) r s * t s)).
Proof.
  intros Hp.
  pose proof (Hp (fun c =>
    mget (Gz_of (vget eta 2) (vget z (2 * j + 0)) (vget z (2 * j + 1))) 0 c * t 0%nat
    + mget (Gz_of (vget eta 2) (vget z (2 * j + 0)) (vget z (2 * j + 1))) 1 c * t 1%nat))
    as Hq.
  unfold qform in Hq. rewrite HR1, HR2 in Hq.
  rewrite !np_sum_2 in Hq. rewrite !np_sum_2, !landmark_noise_entry, !np_sum_2.
  match goal with
  | Hq : 0 <= ?a |- 0 <= ?b => replace b with a; [exact Hq | ring]
  end.
Qed.

Lemma Rall_closed_sym (a b : nat) :
  symmetric (Rcov self) -> Rall_closed self eta z a b = Rall_closed self eta z b a.
Proof.
  intros Hs. unfold Rall_closed. rewrite (Nat.eqb_sym (b / 2) (a / 2)).
  destruct (Nat.eqb_spec (a / 2) (b / 2)) as [E | _]; [| reflexivity].
  rewrite E. apply landmark_noise_sym, Hs.
Qed.

Lemma Rall_closed_sum (k : nat) (u : nat -> R) :
  np_sum (2 * k) (fun a => np_sum (2 * k) (fun b =>
    u a * Rall_closed self eta z a b * u b))
  = np_sum k (fun j => np_sum 2 (fun r => np_sum 2 (fun s =>
      u (2 * j + r)%nat * mget (landmark_noise self eta z j) r s * u (2 * j + s)%nat))).
Proof.
  induction k as [| k IH]; [reflexivity |].
  rewrite (np_sum_S k).
  replace (2 * S k)%nat with (2 * k + 2)%nat by lia.
  rewrite np_sum_blocks, IH.
  assert (Z1 : np_sum (2 * k) (fun a => np_sum 2 (fun s =>
                 u a * Rall_closed self eta z a (2 * k + s) * u (2 * k + s)%nat)) = 0).
  { apply np_sum_zero. intros a Ha. apply np_sum_zero. intros s Hs.
    unfold Rall_closed. divmod2 a. divmod2 (2 * k + s)%nat.
    replace (a / 2 =? (2 * k + s) / 2)%nat with false; [ring |].
    symmetry. apply Nat.eqb_neq. lia. }
  assert (Z2 : np_sum 2 (fun r => np_sum (2 * k) (fun b =>
                 u (2 * k + r)%nat * Rall_closed self eta z (2 * k + r) b * u b)) = 0).
  { apply np_sum_zero. intros r Hr. apply np_sum_zero. intros b Hb.
    unfold Rall_closed. divmod2 b. divmod2 (2 * k + r)%nat.
    replace ((2 * k + r) / 2 =? b / 2)%nat with false; [ring |].
    symmetry. apply Nat.eqb_neq. lia. }
  rewrite Z1, Z2.
  assert (E : np_sum 2 (fun r => np_sum 2 (fun s =>
                u (2 * k + r)%nat * Rall_closed self eta z (2 * k + r) (2 * k + s)
                * u (2 * k + s)%nat))
              = np_sum 2 (fun r => np_sum 2 (fun s =>
                  u (2 * k + r)%nat * mget (landmark_noise self eta z k) r s
                  * u (2 * k + s)%nat))).
  { apply np_sum_ext. intros r Hr. apply np_sum_ext. intros s Hs.
    unfold Rall_closed. divmod2 (2 * k + r)%nat. divmod2 (2 * k + s)%nat.
    replace ((2 * k + r) / 2)%nat with k by lia.
    replace ((2 * k + s) / 2)%nat with k by lia.
    replace ((2 * k + r) mod 2)%nat with r by lia.
    replace ((2 * k + s) mod 2)%nat with s by lia.
    rewrite Nat.eqb_refl. reflexivity. }
  rewrite E. ring.
Qed.

Lemma Rall_closed_psd (k : nat) (Rall : mat R) :
  nrows Rall = (2 * k)%nat -> ncols Rall = (2 * k)%nat ->
  (forall a b, (a < 2 * k)%nat -> (b < 2 * k)%nat ->
               mget Rall a b = Rall_closed self eta z a b) ->
  psd (Rcov self) -> psd Rall.
Proof.
  intros Hr Hc Hcl Hp u. unfold qform. rewrite Hr, Hc.
  rewrite (np_sum_ext _ _ (fun a => np_sum (2 * k) (fun b =>
             u a * Rall_closed self eta z a b * u b))).
  - rewrite Rall_closed_sum. apply np_sum_ge0. intros j Hj.
    apply (landmark_noise_qform j (fun r => u (2 * j + r)%nat)), Hp.
  - intros a Ha. apply np_sum_ext. intros b Hb. rewrite Hcl by assumption. reflexivity.
Qed.
End NoiseBlocks.

Lemma add_landmarks_loop_facts (self : EKFSLAM) (eta z : vec R) (k : nat) :
  vlen z = (2 * k)%nat ->
  add_inv self eta z (2 * k) k (add_landmarks_loop self eta z).
Proof.
  intros Hz. unfold add_landmarks_loop. rewrite Hz, half_even.
  replace (k * 2)%nat with (2 * k)%nat by lia.
  apply add_landmarks_loop_inv.
  unfold add_inv. cbn [buf_lmnew buf_Gx buf_Rall vempty_like vzeros mzeros vlen nrows ncols mget].
  repeat (split; [reflexivity || assumption |]).
  intros a b. destruct ((a <? 2 * 0)%nat && (b <? 2 * 0)%nat) eqn:E; [| reflexivity].
  apply andb_true_iff in E. destruct E as [E _]. apply Nat.ltb_lt in E. lia.
Qed.

Lemma add_landmarks_returns (self : EKFSLAM) (eta : vec R) (P : mat R) (z : vec R) (k : nat) :
  valid_state eta P ->
  nrows (Rcov self) = 2%nat -> symmetric (Rcov self) -> psd (Rcov self) ->
  vlen z = (2 * k)%nat ->
  let st := add_landmarks_loop self eta z in
  add_landmarks self eta P z
  = Ok (vappend eta (buf_lmnew st), augment_cov P (buf_Gx st) (buf_Rall st))
  /\ vlen (buf_lmnew st) = (2 * k)%nat
  /\ nrows (buf_Gx st) = (2 * k)%nat /\ ncols (buf_Gx st) = 3%nat
  /\ nrows (buf_Rall st) = (2 * k)%nat /\ ncols (buf_Rall st) = (2 * k)%nat
  /\ (forall a b, (a < 2 * k)%nat -> (b < 2 * k)%nat ->
        mget (buf_Rall st) a b = Rall_closed self eta z a b)
  /\ symmetric (augment_cov P (buf_Gx st) (buf_Rall st))
  /\ psd (augment_cov P (buf_Gx st) (buf_Rall st)).
Proof.
  intros (Hlen & [Hr Hc] & HsP & HpP) HR1 HsR HpR Hz st.
  assert (HR2 : ncols (Rcov self) = 2%nat) by (destruct HsR as [E _]; lia).
  destruct (add_landmarks_loop_facts self eta z k Hz) as (Hl & HG1 & HG2 & HA1 & HA2 & Hcl).
  fold st in Hl, HG1, HG2, HA1, HA2, Hcl.
  set (m := (vlen eta - 3)%nat).
  assert (HP1 : nrows P = (3 + m)%nat) by (unfold m; lia).
  assert (HP2 : ncols P = (3 + m)%nat) by (unfold m; lia).
  assert (Hcl' : forall a b, (a < 2 * k)%nat -> (b < 2 * k)%nat ->
                   mget (buf_Rall st) a b = Rall_closed self eta z a b).
  { intros a b Ha Hb. rewrite Hcl.
    apply Nat.ltb_lt in Ha, Hb. rewrite Ha, Hb. reflexivity. }
  assert (HsA : symmetric (buf_Rall st)).
  { split; [lia |]. rewrite HA1. intros a b Ha Hb.
    rewrite !Hcl' by assumption. apply Rall_closed_sym; assumption. }
  assert (HpA : psd (buf_Rall st)).
  { apply (Rall_closed_psd self eta z HR1 HR2 k); assumption. }
  assert (Hsym : symmetric (augment_cov P (buf_Gx st) (buf_Rall st))).
  { apply (augment_cov_symmetric _ _ _ m (2 * k)); assumption. }
  assert (Hpsd : psd (augment_cov P (buf_Gx st) (buf_Rall st))).
  { apply (augment_cov_psd _ _ _ m (2 * k)); assumption. }
  destruct (augment_cov_shape P (buf_Gx st) (buf_Rall st) m (2 * k)) as [Er Ec];
    try assumption.
  refine (conj _ (conj _ (conj HG1 (conj HG2 (conj HA1 (conj HA2
            (conj Hcl' (conj Hsym Hpsd)))))))); [| lia].
  - unfold add_landmarks. fold st. rewrite Hl, Hz.
    replace (2 * k mod 2)%nat with 0%nat
      by (symmetry; rewrite Nat.mul_comm; apply Nat.Div0.mod_mul).
    cbn [Nat.eqb assertb bind].
    rewrite (assert_true (shape_twice _ _)).
    + cbn [bind].
      rewrite (assert_true (allclose _ _)) by (apply symmetric_allclose, Hsym).
      cbn [bind].
      rewrite (assert_true (eigvals_ge0 _))
        by (apply psd_eigvals_ge0; [apply Hsym | exact Hpsd]).
      reflexivity.
    + unfold shape_twice. rewrite Er, Ec. cbn [vlen vappend]. rewrite Hl. unfold m. lia.
Qed.

(** C4.  On a valid state, with a symmetric positive semi-definite
    measurement noise and a batch of [k] measurements, [add_landmarks]
    returns a state whose mean is [2k] longer, whose covariance has [2k]
    more rows and columns, whose first entries and top-left block are those
    of the old state, and which has [k] more landmarks. *)
Theorem add_landmarks_grows_state
        (self : EKFSLAM) (eta : vec R) (P : mat R) (z : vec R) (k : nat) :
  valid_state eta P ->
  nrows (Rcov self) = 2%nat -> symmetric (Rcov self) -> psd (Rcov self) ->
  vlen z = (2 * k)%nat ->
  exists eta' P',
    add_landmarks self eta P z = Ok (eta', P')
    /\ vlen eta' = (vlen eta + 2 * k)%nat
    /\ nrows P' = (nrows P + 2 * k)%nat /\ ncols P' = (ncols P + 2 * k)%nat
    /\ (forall i j, (i < nrows P)%nat -> (j < ncols P)%nat -> mget P' i j = mget P i j)
    /\ (forall i, (i < vlen eta)%nat -> vget eta' i = vget eta i)
    /\ landmark_count eta' = (landmark_count eta + k)%nat
    /\ ((0 < k)%nat -> (landmark_count eta < landmark_count eta')%nat).
Proof.
  intros Hv HR1 HsR HpR Hz.
  destruct (add_landmarks_returns self eta P z k Hv HR1 HsR HpR Hz)
    as (Hok & Hl & HG1 & HG2 & HA1 & HA2 & _ & _ & _).
  destruct Hv as (Hlen & [Hr Hc] & _ & _).
  set (st := add_landmarks_loop self eta z) in *.
  set (m := (vlen eta - 3)%nat).
  assert (HP1 : nrows P = (3 + m)%nat) by (unfold m; lia).
  assert (HP2 : ncols P = (3 + m)%nat) by (unfold m; lia).
  destruct (augment_cov_shape P (buf_Gx st) (buf_Rall st) m (2 * k)) as [Er Ec];
    try assumption.
  assert (Hcount : landmark_count (vappend eta (buf_lmnew st))
                   = (landmark_count eta + k)%nat).
  { unfold landmark_count. cbn [vlen vappend]. rewrite Hl.
    replace (vlen eta + 2 * k - 3)%nat with (vlen eta - 3 + k * 2)%nat by lia.
    apply Nat.div_add. lia. }
  exists (vappend eta (buf_lmnew st)), (augment_cov P (buf_Gx st) (buf_Rall st)).
  split; [exact Hok |].
  split; [cbn [vlen vappend]; lia |].
  split; [lia |]. split; [lia |].
  split; [| split; [| split]].
  - intros i j Hi Hj. apply (augment_cov_tl P _ _ m (2 * k)); (assumption || lia).
  - intros i Hi. cbn [vget vappend]. apply Nat.ltb_lt in Hi. rewrite Hi. reflexivity.
  - exact Hcount.
  - intros Hk. rewrite Hcount. lia.
Qed.

Section SingleMeasurement.
Variable self : EKFSLAM.
Hypothesis Hoff0 : vget (sensor_offset self) 0 = 0.
Hypothesis Hoff1 : vget (sensor_offset self) 1 = 0.

Let eta0 : vec R := vec_of_list 0 [0; 0; 0].
Let z0 : vec R := vec_of_list 0 [2; 0].

Lemma single_measurement_lmnew :
  vget (buf_lmnew (add_landmarks_loop self eta0 z0)) 0 = 2
  /\ vget (buf_lmnew (add_landmarks_loop self eta0 z0)) 1 = 0.
Proof.
  unfold add_landmarks_loop.
  change (vlen z0 / 2)%nat with 1%nat. cbn [seq fold_left].
  unfold add_landmarks_body.
  cbn [buf_lmnew set_vslice vget vlen vadd within Nat.leb Nat.ltb Nat.add Nat.mul
       andb Nat.sub vec_of_list length nth matvec rotmat2d ncols nrows mget np_sum
       np_add np_mul np_zero np_neg np_cos np_sin R_scalar R_trig eta0 z0 vslice].
  rewrite Hoff0, Hoff1, cos_0, sin_0. split; ring.
Qed.

Lemma single_measurement_Gx (r c : nat) : (r < 2)%nat -> (c < 3)%nat ->
  mget (buf_Gx (add_landmarks_loop self eta0 z0)) r c
  = mget (mat_of_rows 0 3 [[1; 0; 0]; [0; 1; 2]]) r c.
Proof.
  intros Hr Hc. unfold add_landmarks_loop.
  change (vlen z0 / 2)%nat with 1%nat. cbn [seq fold_left].
  unfold add_landmarks_body.
  destruct r as [| [| r]]; [| | lia];
    (destruct c as [| [| [| c]]]; [| | | lia]);
    cbn [buf_Gx set_block set_colslice eye mzeros vget vlen vadd vscale within
         Nat.leb Nat.ltb Nat.add Nat.mul Nat.eqb andb Nat.sub vec_of_list length nth
         matvec rotmat2d ncols nrows mget np_sum mat_of_rows
         np_add np_mul np_zero np_one np_neg np_cos np_sin R_scalar R_trig eta0 z0 vslice];
    rewrite ?Hoff0, ?Hoff1, ?Rplus_0_l, ?cos_0, ?sin_0; ring.
Qed.

Lemma single_measurement_block (P : mat R) :
  valid_state eta0 P ->
  nrows (Rcov self) = 2%nat -> symmetric (Rcov self) -> psd (Rcov self) ->
  let Gx := mat_of_rows 0 3 [[1; 0; 0]; [0; 1; 2]] in
  let Gz := Gz_of 0 2 0 in
  exists eta' P',
    add_landmarks self eta0 P z0 = Ok (eta', P')
    /\ vget eta' 3 = 2 /\ vget eta' 4 = 0
    /\ (forall r s, (r < 2)%nat -> (s < 2)%nat ->
          mget P' (3 + r) (3 + s)
          = mget (Gx @ P @ transpose Gx)%mat r s
            + mget (Gz @ Rcov self @ transpose Gz)%mat r s).
Proof.
  intros Hv HR1 HsR HpR Gx Gz.
  destruct (add_landmarks_returns self eta0 P z0 1 Hv HR1 HsR HpR eq_refl)
    as (Hok & Hl & HG1 & HG2 & HA1 & HA2 & Hcl & _ & _).
  destruct Hv as (_ & [Hr Hc] & _ & _).
  destruct single_measurement_lmnew as [L0 L1].
  pose proof single_measurement_Gx as HGx.
  set (st := add_landmarks_loop self eta0 z0) in *.
  assert (HP1 : nrows P = (3 + 0)%nat) by (rewrite <- Hr; reflexivity).
  assert (HP2 : ncols P = (3 + 0)%nat) by (rewrite <- Hc; reflexivity).
  exists (vappend eta0 (buf_lmnew st)), (augment_cov P (buf_Gx st) (buf_Rall st)).
  split; [exact Hok |].
  split; [exact L0 | split; [exact L1 |]].
  intros r s Hr2 Hs2.
  replace (3 + r)%nat with (3 + 0 + r)%nat by lia.
  replace (3 + s)%nat with (3 + 0 + s)%nat by lia.
  rewrite (augment_cov_br P _ _ 0 (2 * 1)) by (assumption || lia).
  rewrite Hcl by lia. f_equal.
  - cbn [mget matmul transpose ncols nrows Gx mat_of_rows]. rewrite HP2.
    apply np_sum_ext. intros d Hd.
    rewrite (HGx s d) by lia.
    rewrite (np_sum_ext 3 (fun c => mget (buf_Gx st) r c * mget P c d)
               (fun c => mget (mat_of_rows 0 3 [[1; 0; 0]; [0; 1; 2]]) r c * mget P c d))
      by (intros c Hc3; rewrite (HGx r c) by lia; reflexivity).
    reflexivity.
  - unfold Rall_closed.
    assert (E : forall a, (a < 2)%nat -> (a / 2 = 0 /\ a mod 2 = a)%nat).
    { intros a Ha. destruct a as [| [| a]]; [split; reflexivity | split; reflexivity | lia]. }
    destruct (E r Hr2) as [-> ->]. destruct (E s Hs2) as [-> ->].
    reflexivity.
Qed.

(** C5, as the code has it.  From the pose (0, 0, 0), with no sensor offset,
    the single measurement (range 2, bearing 0) is placed at (2, 0), and the
    landmark's own covariance block is [Gx P Gx^T + Gz R Gz^T], with
    [Gx = [[1, 0, 0], [0, 1, 2]]]; it is [Gz R Gz^T] when the pose
    covariance is zero. *)
Theorem add_landmarks_single_measurement (P : mat R) :
  valid_state eta0 P ->
  nrows (Rcov self) = 2%nat -> symmetric (Rcov self) -> psd (Rcov self) ->
  let Gx := mat_of_rows 0 3 [[1; 0; 0]; [0; 1; 2]] in
  let Gz := Gz_of 0 2 0 in
  exists eta' P',
    add_landmarks self eta0 P z0 = Ok (eta', P')
    /\ vget eta' 3 = 2 /\ vget eta' 4 = 0
    /\ (forall r s, (r < 2)%nat -> (s < 2)%nat ->
          mget P' (3 + r) (3 + s)
          = mget (Gx @ P @ transpose Gx)%mat r s
            + mget (Gz @ Rcov self @ transpose Gz)%mat r s)
    /\ ((forall i j, (i < 3)%nat -> (j < 3)%nat -> mget P i j = 0) ->
        forall r s, (r < 2)%nat -> (s < 2)%nat ->
          mget P' (3 + r) (3 + s) = mget (Gz @ Rcov self @ transpose Gz)%mat r s).
Proof.
  intros Hv HR1 HsR HpR Gx Gz.
  destruct (single_measurement_block P Hv HR1 HsR HpR) as (eta' & P' & Hok & L0 & L1 & Hblock).
  destruct Hv as (_ & [_ Hc] & _ & _).
  exists eta', P'.
  split; [exact Hok | split; [exact L0 | split; [exact L1 | split; [exact Hblock |]]]].
  intros HP0 r s Hr2 Hs2. rewrite Hblock by assumption.
  assert (Z : mget (Gx @ P @ transpose Gx)%mat r s = 0).
  { cbn [mget matmul transpose ncols nrows Gx mat_of_rows]. rewrite <- Hc.
    apply np_sum_zero. intros d Hd.
    rewrite (np_sum_zero 3); [apply Rmult_0_l |].
    intros c Hc3. rewrite HP0 by (assumption || exact Hd). apply Rmult_0_r. }
  fold Gx Gz. rewrite Z. ring.
Qed.
End SingleMeasurement.

(** C5, counterexample.  With pose covariance the identity and measurement
    noise the identity, the landmark is placed at (2, 0) but the first entry
    of its covariance block is not that of [Gz R Gz^T]. *)
Lemma add_landmarks_block_is_not_GzRGzT :
  let self := mkEKFSLAM (eye 3 3) (eye 2 2) true
                        (vec_of_list 0 [0.001; 0.0001]) (vec_of_list 0 [0; 0]) in
  let Gz := Gz_of 0 2 0 in
  exists eta' P',
    add_landmarks self (vec_of_list 0 [0; 0; 0]) (eye 3 3) (vec_of_list 0 [2; 0])
    = Ok (eta', P')
    /\ vget eta' 3 = 2 /\ vget eta' 4 = 0
    /\ mget P' 3 3 <> mget (Gz @ Rcov self @ transpose Gz)%mat 0 0.
Proof.
  cbv zeta.
  set (self := mkEKFSLAM _ _ _ _ _).
  assert (Hv : valid_state (vec_of_list 0 [0; 0; 0]) (eye 3 3)).
  { split; [cbn; lia |]. split; [split; reflexivity |].
    split; [apply eye_symmetric | apply eye3_psd]. }
  destruct (single_measurement_block self eq_refl eq_refl (eye 3 3) Hv eq_refl
              (eye_symmetric 2) eye2_psd)
    as (eta' & P' & Hok & L0 & L1 & Hblock).
  exists eta', P'.
  split; [exact Hok | split; [exact L0 | split; [exact L1 |]]].
  change (mget P' 3 3) with (mget P' (3 + 0) (3 + 0)).
  rewrite (Hblock 0%nat 0%nat) by lia.
  cbn [mget matmul transpose ncols nrows mat_of_rows eye nth np_sum Nat.eqb
       np_add np_mul np_zero np_one R_scalar].
  lra.
Qed.
End AugmentationFacts.

(** ** Update on an empty map *)

Section EmptyMapFacts.
Local Open Scope R_scope.

Lemma filter_all {A : Type} (g : A -> bool) (l : list A) :
  (forall x, In x l -> g x = true) -> filter g l = l.
Proof.
  induction l as [| x l IH]; intros H; [reflexivity |].
  cbn [filter]. rewrite H by (left; reflexivity).
  rewrite IH; [reflexivity |]. intros y Hy. apply H. right. exact Hy.
Qed.

Lemma np_any_const_true (b : vec bool) :
  (forall i, vget b i = true) -> np_any b = (0 <? vlen b)%nat.
Proof.
  intros Hb. unfold np_any. destruct (vlen b) as [| n]; [reflexivity |].
  cbn [seq existsb]. rewrite Hb. reflexivity.
Qed.

Section NoLandmarks.
Variable JCBB : vec R -> vec R -> mat R -> R -> R -> vec Z.
Variable cho_factor : mat R -> result (mat R * bool).
Variable cho_solve : mat R * bool -> mat R -> mat R.

(** C6.  On a valid state without landmarks, [update] returns the neutral
    NIS 1 and an association vector with one entry -1 per detection.  The
    state it returns is the input state itself when association is off or
    there is no detection; otherwise it is what [add_landmarks] makes of the
    input state and the measurements, so that the pose and its covariance
    block are those of the input. *)
Theorem update_without_landmarks
        (self : EKFSLAM) (eta : vec R) (P : mat R) (z : mat R) :
  vlen eta = 3%nat -> valid_state eta P -> ncols z = 2%nat ->
  nrows (Rcov self) = 2%nat -> symmetric (Rcov self) -> psd (Rcov self) ->
  exists eta' P' a,
    update JCBB cho_factor cho_solve self eta P z = Ok (eta', P', 1, a)
    /\ vlen a = nrows z
    /\ (forall i, (i < nrows z)%nat -> vget a i = (-1)%Z)
    /\ (if do_asso self && (0 <? nrows z)%nat
        then add_landmarks self eta P
               (vmask (ravel z) (pair_mask (ravel z) (eq_m1 a))) = Ok (eta', P')
        else eta' = eta /\ P' = P)
    /\ (forall i, (i < 3)%nat -> vget eta' i = vget eta i)
    /\ (forall i j, (i < 3)%nat -> (j < 3)%nat -> mget P' i j = mget P i j).
Proof.
  intros Hlen Hv Hz HR1 HsR HpR.
  set (a := mkvec (nrows z) (fun _ => (-1)%Z)).
  assert (Hnew : forall i, vget (eq_m1 a) i = true) by (intros; reflexivity).
  assert (Hhead :
            update JCBB cho_factor cho_solve self eta P z
            = bind (if do_asso self
                    then if np_any (eq_m1 a)
                         then add_landmarks self eta P
                                (vmask (ravel z) (pair_mask (ravel z) (eq_m1 a)))
                         else Ok (eta, P)
                    else Ok (eta, P))
                (fun '(etaupd, Pupd) =>
                   bind (assert (allclose Pupd (transpose Pupd)))
                     (fun _ => bind (assert (eigvals_ge0 Pupd))
                        (fun _ => Ok (etaupd, Pupd, 1, a))))).
  { unfold update. rewrite Hlen. reflexivity. }
  rewrite Hhead. clear Hhead.
  destruct Hv as (Hl3 & [Hr Hc] & HsP & HpP).
  assert (Hkeep : bind (Ok (eta, P))
            (fun '(etaupd, Pupd) =>
               bind (assert (allclose Pupd (transpose Pupd)))
                 (fun _ => bind (assert (eigvals_ge0 Pupd))
                    (fun _ => Ok (etaupd, Pupd, 1, a))))
            = Ok (eta, P, 1, a)).
  { cbn [bind].
    rewrite (assert_true (allclose _ _)) by (apply symmetric_allclose, HsP).
    cbn [bind].
    rewrite (assert_true (eigvals_ge0 _))
      by (apply psd_eigvals_ge0; [apply HsP | exact HpP]).
    reflexivity. }
  rewrite np_any_const_true by exact Hnew.
  change (vlen (eq_m1 a)) with (nrows z).
  destruct (do_asso self); cbn [andb];
    [destruct (0 <? nrows z)%nat eqn:Hn |].
  - set (z_new := vmask (ravel z) (pair_mask (ravel z) (eq_m1 a))).
    assert (Hzn : vlen z_new = (2 * nrows z)%nat).
    { unfold z_new, vmask, vtake, mask_indices. cbn [vlen pair_mask ravel].
      rewrite filter_all by (intros; reflexivity).
      rewrite length_seq, Hz. lia. }
    destruct (add_landmarks_returns self eta P z_new (nrows z)) as
        (Hok & Hlm & HG1 & HG2 & HA1 & HA2 & _ & Hsym & Hpsd);
      [exact (conj Hl3 (conj (conj Hr Hc) (conj HsP HpP))) | assumption .. |].
    set (st := add_landmarks_loop self eta z_new) in *.
    exists (vappend eta (buf_lmnew st)), (augment_cov P (buf_Gx st) (buf_Rall st)), a.
    split.
    { rewrite Hok. cbn [bind].
      rewrite (assert_true (allclose _ _)) by (apply symmetric_allclose, Hsym).
      cbn [bind].
      rewrite (assert_true (eigvals_ge0 _))
        by (apply psd_eigvals_ge0; [apply Hsym | exact Hpsd]).
      reflexivity. }
    split; [reflexivity |]. split; [intros; reflexivity |].
    split; [exact Hok |]. split.
    + intros i Hi. cbn [vget vappend].
      replace (i <? vlen eta)%nat with true; [reflexivity |].
      symmetry. apply Nat.ltb_lt. lia.
    + intros i j Hi Hj.
      apply (augment_cov_tl P _ _ 0 (2 * nrows z)); lia.
  - exists eta, P, a. rewrite Hkeep.
    repeat split; intros; reflexivity.
  - exists eta, P, a. rewrite Hkeep.
    repeat split; intros; reflexivity.
Qed.
End NoLandmarks.
End EmptyMapFacts.

(** ** Instances

    The theorems above applied to concrete filters and states. *)

Section Instances.
Local Open Scope R_scope.

Lemma eye3_valid_state : valid_state (vec_of_list 0 [0; 0; 0]) (eye 3 3).
Proof.
  split; [cbn; lia |]. split; [split; reflexivity |].
  split; [apply eye_symmetric | apply eye3_psd].
Qed.

Lemma h_jac_block_sparse_witness :
  vlen (vec_of_list 0 [0; 0; 0; 1; 2; 3; 4]) = (3 + 2 * 2)%nat
  /\ exists H,
      h_jac (vec_of_list 0 [0; 0]) (vec_of_list 0 [0; 0; 0; 1; 2; 3; 4]) = Ok H
      /\ nrows H = (2 * 2)%nat /\ ncols H = (3 + 2 * 2)%nat
      /\ (forall i r c, (i < 2)%nat -> r = (2 * i)%nat \/ r = (2 * i + 1)%nat ->
            (3 <= c < 3 + 2 * 2)%nat -> c <> (3 + 2 * i)%nat -> c <> (3 + 2 * i + 1)%nat ->
            mget H r c = np_zero)
      /\ (mget H 0 5 = 0 /\ mget H 0 6 = 0 /\ mget H 1 5 = 0 /\ mget H 1 6 = 0)
      /\ (mget H 2 3 = 0 /\ mget H 2 4 = 0 /\ mget H 3 3 = 0 /\ mget H 3 4 = 0).
Proof.
  split; [reflexivity |].
  destruct (h_jac_block_sparse (vec_of_list 0 [0; 0])
              (vec_of_list 0 [0; 0; 0; 1; 2; 3; 4]) 2 eq_refl)
    as (H & Hok & Hr & Hc & Hz).
  exists H. split; [exact Hok |]. split; [exact Hr |]. split; [exact Hc |].
  split; [exact Hz |].
  split.
  - repeat split; apply (Hz 0%nat); cbn; lia.
  - repeat split; apply (Hz 1%nat); cbn; lia.
Defined.

Lemma h_jac_divides_by_zero_range_witness :
  let offset := vec_of_list 0 [0; 0] in
  let eta := vec_of_list 0 [1; 2; 0; 1; 2] in
  let m := transpose (mkmat 1 2 (fun i j => vget (vfrom eta 3) (2 * i + j))) in
  (landmarks_of eta = Ok m /\ vget (h_jac_zpred_r offset eta m) 0 = np_zero)
  /\ exists H, h_jac offset eta = Ok H
       /\ mget H (2 * 0) (3 + 2 * 0) = np_div (mget (h_jac_zc offset eta m) 0 0) np_zero
       /\ mget H (2 * 0) (3 + 2 * 0 + 1) = np_div (mget (h_jac_zc offset eta m) 1 0) np_zero.
Proof.
  cbv zeta.
  assert (Hr : vget (h_jac_zpred_r (vec_of_list 0 [0; 0]) (vec_of_list 0 [1; 2; 0; 1; 2])
                 (transpose (mkmat 1 2 (fun i j =>
                    vget (vfrom (vec_of_list 0 [1; 2; 0; 1; 2]) 3) (2 * i + j))))) 0
               = np_zero).
  { apply (coincident_landmark_range_zero _ _ 1 0); [reflexivity | lia | reflexivity | |];
      cbn; ring. }
  split; [split; [reflexivity | exact Hr] |].
  apply (h_jac_divides_by_zero_range (vec_of_list 0 [0; 0])
           (vec_of_list 0 [1; 2; 0; 1; 2]) 1 0); [reflexivity | lia | reflexivity | exact Hr].
Defined.

Lemma update_without_association_fails_witness :
  let self := mkEKFSLAM (eye 3 3) (eye 2 2) false
                        (vec_of_list 0 [0.001; 0.0001]) (vec_of_list 0 [0; 0]) in
  let JCBB := fun (_ _ : vec R) (_ : mat R) (_ _ : R) => mkvec 0 (fun _ => 0%Z) in
  let cho_factor := fun A : mat R => Ok (A, true) in
  let cho_solve := fun (_ : mat R * bool) (B : mat R) => B in
  let eta := vec_of_list 0 [0; 0; 0; 1; 2] in
  (forall zf zpred H S, associate JCBB self zf zpred H S = Ok None)
  /\ update JCBB cho_factor cho_solve self eta (eye 5 5) (mat_of_rows 0 2 [[1; 0]])
     = Raise TypeError.
Proof.
  cbv zeta.
  apply (update_without_association_fails _ _ _ _ _ _ _ 1);
    [reflexivity | reflexivity | lia | split; reflexivity].
Defined.

Lemma NEESes_propagates_infinity_witness :
  (exists v,
      NEESes (fun a => a) gesv (vec_of_list 0%float [0; 1; 1]%float)
             (mat_of_rows 0%float 3 [[1; 0; 0]; [0; 1; 1]; [0; 1; 0]]%float)
             (vec_of_list 0%float [0; 0; 0]%float) = Ok v
      /\ vget v 2 = infinity)
  /\ (exists v,
      NEESes (fun a => a) gesv (vec_of_list 0%float [0; 0; 3]%float)
             (mat_of_rows 0%float 3 [[1; 0; 0]; [0; 1; 0]; [0; 0; 0x1p-1022]]%float)
             (vec_of_list 0%float [0; 0; 0]%float) = Ok v
      /\ vget v 2 = infinity).
Proof.
  apply (NEESes_propagates_infinity (fun a => a)); reflexivity.
Defined.

Lemma predict_covariance_witness :
  let self := mkEKFSLAM (eye 3 3) (eye 2 2) true
                        (vec_of_list 0 [0.001; 0.0001]) (vec_of_list 0 [0; 0]) in
  let eta := vec_of_list 0 [0; 0; 0; 1; 0] in
  let P := mkmat 5 5 (fun i j => if (i =? j)%nat && (3 <=? i)%nat then 1 else 0) in
  let z_odo := vec_of_list 0 [1; 0; 0] in
  let P' := predict_cov (Qcov self) (Fx (vslice eta 0 3) z_odo)
                        (Fu (vslice eta 0 3) z_odo) P in
  let Pmm := mslice P 3 (nrows P) 3 (ncols P) in
  (symmetric P' /\ psd P'
   /\ (pd P' <-> eigvals_gt0 P')
   /\ (pd P' -> exists eta', predict self eta P z_odo = Ok (eta', P'))
   /\ (~ pd P' -> predict self eta P z_odo = Raise AssertionError)
   /\ (pd P \/ (pd (Qcov self) /\ pd Pmm) -> pd P')
   /\ (vlen eta = 3%nat -> pd Pmm)
   /\ (pd P' -> pd Pmm))
  /\ ~ pd P /\ pd Pmm /\ pd P'
  /\ exists eta', predict self eta P z_odo = Ok (eta', P').
Proof.
  cbv zeta.
  set (self := mkEKFSLAM (eye 3 3) (eye 2 2) true
                         (vec_of_list 0 [0.001; 0.0001]) (vec_of_list 0 [0; 0])).
  set (eta := vec_of_list 0 [0; 0; 0; 1; 0]).
  set (P := mkmat 5 5 (fun i j => if (i =? j)%nat && (3 <=? i)%nat then 1 else 0)).
  set (z_odo := vec_of_list 0 [1; 0; 0]).
  assert (HsP : symmetric P).
  { split; [reflexivity |]. intros i j _ _. cbn [mget P].
    destruct (Nat.eq_dec i j) as [-> | Hne]; [reflexivity |].
    replace (i =? j)%nat with false by (symmetry; apply Nat.eqb_neq; lia).
    replace (j =? i)%nat with false by (symmetry; apply Nat.eqb_neq; lia).
    reflexivity. }
  assert (HpP : psd P) by (intros w; unfold qform; cbn; nra).
  assert (Hnpd : ~ pd P).
  { intros Hpd.
    assert (Hq : 0 < qform P (fun k => if (k =? 0)%nat then 1 else 0)).
    { apply Hpd. exists 0%nat. split; [cbn; lia | cbn; lra]. }
    unfold qform in Hq. cbn in Hq. lra. }
  assert (Hmap : pd (mslice P 3 (nrows P) 3 (ncols P))).
  { intros w (i & Hi & Hw). unfold qform. cbn in *.
    assert (0 < w i * w i) by nra.
    destruct i as [| [| i]]; [nra | nra | lia]. }
  pose proof (predict_covariance self eta P z_odo
                ltac:(cbn; lia) (conj eq_refl eq_refl) HsP HpP eq_refl
                (eye_symmetric 3) eye3_psd) as H.
  cbv zeta in H.
  split; [exact H |].
  destruct H as (_ & _ & _ & Hret & _ & Hsuf & _ & _).
  assert (Hpd' : pd (predict_cov (Qcov self) (Fx (vslice eta 0 3) z_odo)
                       (Fu (vslice eta 0 3) z_odo) P)).
  { apply Hsuf. right. split; [apply eye3_pd | exact Hmap]. }
  split; [exact Hnpd |]. split; [exact Hmap |]. split; [exact Hpd' |].
  apply Hret, Hpd'.
Defined.

Lemma add_landmarks_grows_state_witness :
  let self := mkEKFSLAM (eye 3 3) (eye 2 2) true
                        (vec_of_list 0 [0.001; 0.0001]) (vec_of_list 0 [0; 0]) in
  let eta := vec_of_list 0 [0; 0; 0] in
  let P := eye 3 3 in
  exists eta' P',
    add_landmarks self eta P (vec_of_list 0 [2; 0]) = Ok (eta', P')
    /\ vlen eta' = (vlen eta + 2 * 1)%nat
    /\ nrows P' = (nrows P + 2 * 1)%nat /\ ncols P' = (ncols P + 2 * 1)%nat
    /\ (forall i j, (i < nrows P)%nat -> (j < ncols P)%nat -> mget P' i j = mget P i j)
    /\ (forall i, (i < vlen eta)%nat -> vget eta' i = vget eta i)
    /\ landmark_count eta' = (landmark_count eta + 1)%nat
    /\ ((0 < 1)%nat -> (landmark_count eta < landmark_count eta')%nat).
Proof.
  cbv zeta.
  apply (add_landmarks_grows_state _ _ _ _ 1);
    [apply eye3_valid_state | reflexivity | apply eye_symmetric | apply eye2_psd | reflexivity].
Defined.

Lemma add_landmarks_single_measurement_witness :
  let self := mkEKFSLAM (eye 3 3) (eye 2 2) true
                        (vec_of_list 0 [0.001; 0.0001]) (vec_of_list 0 [0; 0]) in
  let Gx := mat_of_rows 0 3 [[1; 0; 0]; [0; 1; 2]] in
  let Gz := Gz_of 0 2 0 in
  let P := eye 3 3 in
  exists eta' P',
    add_landmarks self (vec_of_list 0 [0; 0; 0]) P (vec_of_list 0 [2; 0]) = Ok (eta', P')
    /\ vget eta' 3 = 2 /\ vget eta' 4 = 0
    /\ (forall r s, (r < 2)%nat -> (s < 2)%nat ->
          mget P' (3 + r) (3 + s)
          = mget (Gx @ P @ transpose Gx)%mat r s
            + mget (Gz @ Rcov self @ transpose Gz)%mat r s)
    /\ ((forall i j, (i < 3)%nat -> (j < 3)%nat -> mget P i j = 0) ->
        forall r s, (r < 2)%nat -> (s < 2)%nat ->
          mget P' (3 + r) (3 + s) = mget (Gz @ Rcov self @ transpose Gz)%mat r s).
Proof.
  cbv zeta.
  apply (add_landmarks_single_measurement
           (mkEKFSLAM (eye 3 3) (eye 2 2) true
                      (vec_of_list 0 [0.001; 0.0001]) (vec_of_list 0 [0; 0]))
           eq_refl eq_refl (eye 3 3));
    [apply eye3_valid_state | reflexivity | apply eye_symmetric | apply eye2_psd].
Defined.

Lemma update_without_landmarks_witness :
  let self := mkEKFSLAM (eye 3 3) (eye 2 2) true
                        (vec_of_list 0 [0.001; 0.0001]) (vec_of_list 0 [0; 0]) in
  let JCBB := fun (_ _ : vec R) (_ : mat R) (_ _ : R) => mkvec 0 (fun _ => 0%Z) in
  let cho_factor := fun A : mat R => Ok (A, true) in
  let cho_solve := fun (_ : mat R * bool) (B : mat R) => B in
  let eta := vec_of_list 0 [0; 0; 0] in
  let P := eye 3 3 in
  let z := mat_of_rows 0 2 [[2; 0]] in
  exists eta' P' a,
    update JCBB cho_factor cho_solve self eta P z = Ok (eta', P', 1, a)
    /\ vlen a = nrows z
    /\ (forall i, (i < nrows z)%nat -> vget a i = (-1)%Z)
    /\ (if do_asso self && (0 <? nrows z)%nat
        then add_landmarks self eta P
               (vmask (ravel z) (pair_mask (ravel z) (eq_m1 a))) = Ok (eta', P')
        else eta' = eta /\ P' = P)
    /\ (forall i, (i < 3)%nat -> vget eta' i = vget eta i)
    /\ (forall i j, (i < 3)%nat -> (j < 3)%nat -> mget P' i j = mget P i j).
Proof.
  cbv zeta.
  apply update_without_landmarks;
    [reflexivity | apply eye3_valid_state | reflexivity | reflexivity
     | apply eye_symmetric | apply eye2_psd].
Defined.
End Instances.

(** ** More on the motion model *)

Section MotionModelMore.
Local Open Scope R_scope.

Lemma cos_shift_Z (x : R) (k : Z) : cos (x + 2 * PI * IZR k) = cos x.
Proof.
  destruct (Z_le_gt_dec 0 k) as [Hk | Hk].
  - rewrite <- (Z2Nat.id k Hk), <- INR_IZR_INZ.
    replace (x + 2 * PI * INR (Z.to_nat k)) with (x + 2 * INR (Z.to_nat k) * PI) by ring.
    apply cos_period.
  - assert (Hn : (0 <= - k)%Z) by lia.
    rewrite <- (cos_period (x + 2 * PI * IZR k) (Z.to_nat (- k))).
    rewrite INR_IZR_INZ, (Z2Nat.id _ Hn), opp_IZR. f_equal. ring.
Qed.

Lemma sin_shift_Z (x : R) (k : Z) : sin (x + 2 * PI * IZR k) = sin x.
Proof.
  destruct (Z_le_gt_dec 0 k) as [Hk | Hk].
  - rewrite <- (Z2Nat.id k Hk), <- INR_IZR_INZ.
    replace (x + 2 * PI * INR (Z.to_nat k)) with (x + 2 * INR (Z.to_nat k) * PI) by ring.
    apply sin_period.
  - assert (Hn : (0 <= - k)%Z) by lia.
    rewrite <- (sin_period (x + 2 * PI * IZR k) (Z.to_nat (- k))).
    rewrite INR_IZR_INZ, (Z2Nat.id _ Hn), opp_IZR. f_equal. ring.
Qed.

Lemma cos_wrapToPi (a : R) : cos (wrapToPi a) = cos a.
Proof. unfold wrapToPi. apply cos_shift_Z. Qed.

Lemma sin_wrapToPi (a : R) : sin (wrapToPi a) = sin a.
Proof. unfold wrapToPi. apply sin_shift_Z. Qed.

Lemma wrapToPi_unique (a r : R) (k : Z) :
  - PI < r <= PI -> r = a + 2 * PI * IZR k -> wrapToPi a = r.
Proof.
  intros Hr Hk.
  pose proof (wrapToPi_range a) as Hw.
  pose proof PI_RGT_0 as Hpi.
  unfold wrapToPi in *.
  set (k' := (up ((PI - a) / (2 * PI)) - 1)%Z) in *.
  assert (Hd : (k - k')%Z = 0%Z).
  { apply one_IZR_lt1. rewrite minus_IZR. split.
    - apply Rmult_lt_reg_l with (2 * PI); [lra |]. nra.
    - apply Rmult_lt_reg_l with (2 * PI); [lra |]. nra. }
  assert (Hkk : k = k') by lia. subst k. lra.
Qed.

Lemma wrapToPi_sum (a b : R) : wrapToPi (wrapToPi a + wrapToPi b) = wrapToPi (a + b).
Proof.
  symmetry.
  apply (wrapToPi_unique (a + b) _
           ((up ((PI - (wrapToPi a + wrapToPi b)) / (2 * PI)) - 1)
            + (up ((PI - a) / (2 * PI)) - 1) + (up ((PI - b) / (2 * PI)) - 1))%Z).
  - apply wrapToPi_range.
  - rewrite !plus_IZR. unfold wrapToPi at 1.
    unfold wrapToPi at 1 2. ring.
Qed.

(** X1.  [f] against the rigid-body composition, entry by entry: the [x]
    components agree; the [y] component is off by [v (sin psi - cos psi)];
    the heading returned lies in (-2 pi, 2 pi] and wraps to the heading of
    the composition. *)
Theorem f_up_to_the_slip (x u : vec R) :
  vget (f x u) 0 = vget (rigid_body_composition x u) 0
  /\ vget (f x u) 1
     = vget (rigid_body_composition x u) 1
       + vget u 1 * (sin (vget x 2) - cos (vget x 2))
  /\ wrapToPi (vget (f x u) 2) = vget (rigid_body_composition x u) 2
  /\ - (2 * PI) < vget (f x u) 2 <= 2 * PI.
Proof.
  cbn [f rigid_body_composition vget vec_of_list nth].
  rewrite cos_wrapToPi, sin_wrapToPi.
  pose proof (wrapToPi_range (vget u 2)). pose proof (wrapToPi_range (vget x 2)).
  repeat split; try ring; try lra.
  rewrite wrapToPi_sum. f_equal. ring.
Qed.

(** X2.  With zero odometry and a heading in (-pi, pi], [f] returns the
    pose it was given. *)
Theorem f_zero_odometry (x u : vec R) (i : nat) :
  vget u 0 = 0 -> vget u 1 = 0 -> vget u 2 = 0 ->
  - PI < vget x 2 <= PI -> (i < 3)%nat ->
  vget (f x u) i = vget x i.
Proof.
  intros U0 U1 U2 Hpsi Hi.
  destruct i as [| [| [| i]]]; [| | | lia];
    cbn [f vget vec_of_list nth]; rewrite ?U0, ?U1, ?U2, ?wrapToPi_0.
  - ring.
  - ring.
  - rewrite (wrapToPi_id _ Hpsi). ring.
Qed.

(** X3.  [Fu] is a rotation about the heading axis: [Fu Fu^T] is the
    identity, whatever the pose and the odometry. *)
Theorem Fu_orthonormal (x u : vec R) (i j : nat) :
  (i < 3)%nat -> (j < 3)%nat ->
  mget (Fu x u @ transpose (Fu x u))%mat i j = mget (eye 3 3) i j.
Proof.
  intros Hi Hj.
  pose proof (sin2_cos2 (vget x 2)) as Hsc. unfold Rsqr in Hsc.
  destruct i as [| [| [| i]]]; [| | | lia];
    (destruct j as [| [| [| j]]]; [| | | lia]);
    cbn; nra.
Qed.

Lemma derivable_pt_lim_wrap (c x : R) :
  - PI < x < PI -> derivable_pt_lim (fun t => c + wrapToPi t) x 1.
Proof.
  intros Hx.
  apply (derivable_pt_lim_locally_ext (fun t => c + 1 * t) _ x (- PI) PI); [exact Hx | |].
  - intros z Hz. rewrite wrapToPi_id by lra. ring.
  - apply derivable_pt_lim_affine.
Qed.

(** X4.  Every entry of [Fu] but [Fu[1][1]] is the partial derivative of
    [f] as written with respect to the odometry (for the heading increment,
    at an increment inside (-pi, pi), where the wrap is smooth). *)
Theorem Fu_jacobian_of_f_but_one (x u : vec R) (i k : nat) :
  (i < 3)%nat -> (k < 3)%nat -> ~ (i = 1%nat /\ k = 1%nat) ->
  (i = 2%nat -> k = 2%nat -> - PI < vget u 2 < PI) ->
  partial_derivative (f x) i k u (mget (Fu x u) i k).
Proof.
  intros Hi Hk Hne Hphi. unfold partial_derivative.
  destruct i as [| [| [| i]]]; [| | | lia];
    (destruct k as [| [| [| k]]]; [| | | lia]);
    try (exfalso; apply Hne; split; reflexivity);
    cbn [Fu mget set_entry mzeros Nat.eqb andb np_zero R_scalar vget set_ventry].
  - eapply derivable_pt_lim_ext;
      [| apply (derivable_pt_lim_affine
                  (vget x 0 - vget u 1 * sin (vget x 2)) (cos (vget x 2)))].
    intros z. cbn. rewrite cos_wrapToPi, sin_wrapToPi. ring.
  - eapply derivable_pt_lim_ext;
      [| apply (derivable_pt_lim_affine
                  (vget x 0 + vget u 0 * cos (vget x 2)) (-1 * sin (vget x 2)))].
    intros z. cbn. rewrite cos_wrapToPi, sin_wrapToPi. ring.
  - eapply derivable_pt_lim_ext;
      [| apply (derivable_pt_lim_affine
                  (vget x 0 + vget u 0 * cos (vget x 2) - vget u 1 * sin (vget x 2)) 0)].
    intros z. cbn. rewrite cos_wrapToPi, sin_wrapToPi. ring.
  - eapply derivable_pt_lim_ext;
      [| apply (derivable_pt_lim_affine
                  (vget x 1 + vget u 1 * sin (vget x 2)) (sin (vget x 2)))].
    intros z. cbn. rewrite sin_wrapToPi. ring.
  - eapply derivable_pt_lim_ext;
      [| apply (derivable_pt_lim_affine
                  (vget x 1 + vget u 0 * sin (vget x 2) + vget u 1 * sin (vget x 2)) 0)].
    intros z. cbn. rewrite sin_wrapToPi. ring.
  - eapply derivable_pt_lim_ext;
      [| apply (derivable_pt_lim_affine (wrapToPi (vget u 2) + wrapToPi (vget x 2)) 0)].
    intros z. cbn. ring.
  - eapply derivable_pt_lim_ext;
      [| apply (derivable_pt_lim_affine (wrapToPi (vget u 2) + wrapToPi (vget x 2)) 0)].
    intros z. cbn. ring.
  - eapply derivable_pt_lim_ext;
      [| apply (derivable_pt_lim_wrap (wrapToPi (vget x 2)) (vget u 2));
         apply Hphi; reflexivity].
    intros z. cbn. ring.
Qed.

(** X5.  Every entry of [Fx] but [Fx[1][2]] is the partial derivative of
    [f] as written with respect to the pose (for the heading row and column,
    at a heading inside (-pi, pi)). *)
Theorem Fx_jacobian_of_f_but_one (x u : vec R) (i k : nat) :
  (i < 3)%nat -> (k < 3)%nat -> ~ (i = 1%nat /\ k = 2%nat) ->
  (i = 2%nat -> k = 2%nat -> - PI < vget x 2 < PI) ->
  partial_derivative (fun x' => f x' u) i k x (mget (Fx x u) i k).
Proof.
  intros Hi Hk Hne Hpsi. unfold partial_derivative.
  destruct i as [| [| [| i]]]; [| | | lia];
    (destruct k as [| [| [| k]]]; [| | | lia]);
    try (exfalso; apply Hne; split; reflexivity);
    cbn [Fx mget set_entry eye Nat.eqb andb np_zero np_one R_scalar vget set_ventry].
  - eapply derivable_pt_lim_ext;
      [| apply (derivable_pt_lim_affine
                  (vget u 0 * cos (vget x 2) - vget u 1 * sin (vget x 2)) 1)].
    intros z. cbn. rewrite cos_wrapToPi, sin_wrapToPi. ring.
  - eapply derivable_pt_lim_ext;
      [| apply (derivable_pt_lim_affine
                  (vget x 0 + vget u 0 * cos (vget x 2) - vget u 1 * sin (vget x 2)) 0)].
    intros z. cbn. rewrite cos_wrapToPi, sin_wrapToPi. ring.
  - eapply derivable_pt_lim_ext;
      [| replace (- vget u 0 * sin (vget x 2) - vget u 1 * cos (vget x 2))
           with (- vget u 0 * sin (vget x 2) + - vget u 1 * cos (vget x 2)) by ring;
         apply (derivable_pt_lim_trig (vget x 0) (vget u 0) (- vget u 1))].
    intros z. cbn. rewrite cos_wrapToPi, sin_wrapToPi. ring.
  - eapply derivable_pt_lim_ext;
      [| apply (derivable_pt_lim_affine
                  (vget x 1 + vget u 0 * sin (vget x 2) + vget u 1 * sin (vget x 2)) 0)].
    intros z. cbn. rewrite sin_wrapToPi. ring.
  - eapply derivable_pt_lim_ext;
      [| apply (derivable_pt_lim_affine
                  (vget u 0 * sin (vget x 2) + vget u 1 * sin (vget x 2)) 1)].
    intros z. cbn. rewrite sin_wrapToPi. ring.
  - eapply derivable_pt_lim_ext;
      [| apply (derivable_pt_lim_affine (wrapToPi (vget u 2) + wrapToPi (vget x 2)) 0)].
    intros z. cbn. ring.
  - eapply derivable_pt_lim_ext;
      [| apply (derivable_pt_lim_affine (wrapToPi (vget u 2) + wrapToPi (vget x 2)) 0)].
    intros z. cbn. ring.
  - eapply derivable_pt_lim_ext;
      [| apply (derivable_pt_lim_wrap (wrapToPi (vget u 2)) (vget x 2));
         apply Hpsi; reflexivity].
    intros z. cbn. ring.
Qed.
End MotionModelMore.

(** ** More on the prediction *)

Section PredictionMore.
Local Open Scope R_scope.

Lemma predict_ok_inv (self : EKFSLAM) (eta eta' : vec R) (P P' : mat R) (z_odo : vec R) :
  predict self eta P z_odo = Ok (eta', P') ->
  shape_twice eta P
  /\ eta' = set_vslice (set_vslice (vempty_like eta) 0 (f (vslice eta 0 3) z_odo))
                       3 (vfrom eta 3)
  /\ P' = predict_cov (Qcov self) (Fx (vslice eta 0 3) z_odo)
                      (Fu (vslice eta 0 3) z_odo) P.
Proof.
  unfold predict. intros H.
  apply assert_bind_inv in H. destruct H as [_ H].
  apply assert_bind_inv in H. destruct H as [_ H].
  apply assert_bind_inv in H. destruct H as [Hsh H].
  apply assert_bind_inv in H. destruct H as [_ H].
  apply assert_bind_inv in H. destruct H as [_ H].
  apply assert_bind_inv in H. destruct H as [_ H].
  injection H as <- <-. auto.
Qed.

(** X6.  What [predict] leaves alone.  With a 3x3 process noise, in the
    state that [predict] returns the mean has the length of the input, its
    pose is [f] of the old pose and the odometry, its landmarks are those of
    the input, and the covariance has the shape and the map-map block of the
    input. *)
Theorem predict_frame (self : EKFSLAM) (eta eta' : vec R) (P P' : mat R) (z_odo : vec R) :
  predict self eta P z_odo = Ok (eta', P') -> (3 <= vlen eta)%nat ->
  nrows (Qcov self) = 3%nat -> ncols (Qcov self) = 3%nat ->
  vlen eta' = vlen eta
  /\ nrows P' = nrows P /\ ncols P' = ncols P
  /\ (forall i, (i < 3)%nat -> vget eta' i = vget (f (vslice eta 0 3) z_odo) i)
  /\ (forall i, (3 <= i < vlen eta)%nat -> vget eta' i = vget eta i)
  /\ (forall i j, (3 <= i < vlen eta)%nat -> (3 <= j < vlen eta)%nat ->
        mget P' i j = mget P i j).
Proof.
  intros H Hlen HQ1 HQ2.
  destruct (predict_ok_inv _ _ _ _ _ _ H) as ([Hr Hc] & -> & ->).
  split; [reflexivity |]. split; [reflexivity |]. split; [reflexivity |].
  split; [| split].
  - intros i Hi. cbn [vget set_vslice vlen vfrom].
    rewrite (within_false 3 _ i) by lia.
    rewrite (within_true 0 _ i) by (cbn; lia).
    rewrite Nat.sub_0_r. reflexivity.
  - intros i Hi. cbn [vget set_vslice vlen vfrom].
    rewrite (within_true 3 _ i) by lia.
    f_equal. lia.
  - intros i j Hi Hj.
    apply (predict_cov_mm _ _ _ _ (vlen eta - 3)); (reflexivity || assumption || lia).
Qed.

(** X7.  With zero forward and lateral displacement and a 3x3 process
    noise, the covariance that [predict] returns keeps the robot-map and
    map-robot blocks of the input and adds [Fu Q Fu^T] to the pose block. *)
Theorem predict_zero_displacement
        (self : EKFSLAM) (eta eta' : vec R) (P P' : mat R) (z_odo : vec R) :
  predict self eta P z_odo = Ok (eta', P') -> (3 <= vlen eta)%nat ->
  nrows (Qcov self) = 3%nat -> ncols (Qcov self) = 3%nat ->
  vget z_odo 0 = 0 -> vget z_odo 1 = 0 ->
  let Fu := Fu (vslice eta 0 3) z_odo in
  (forall i j, (i < vlen eta)%nat -> (j < vlen eta)%nat ->
     (3 <= i)%nat \/ (3 <= j)%nat -> mget P' i j = mget P i j)
  /\ (forall i j, (i < 3)%nat -> (j < 3)%nat ->
        mget P' i j = mget P i j + mget (Fu @ Qcov self @ transpose Fu)%mat i j).
Proof.
  intros H Hlen HQ1 HQ2 U0 U1 Fu0.
  destruct (predict_ok_inv _ _ _ _ _ _ H) as ([Hr Hc] & _ & ->).
  set (m := (vlen eta - 3)%nat).
  assert (HP1 : nrows P = (3 + m)%nat) by (unfold m; lia).
  assert (HP2 : ncols P = (3 + m)%nat) by (unfold m; lia).
  assert (HFx : forall a b, mget (Fx (vslice eta 0 3) z_odo) a b = mget (eye 3 3) a b).
  { intros a b. cbn [Fx mget set_entry eye]. rewrite U0, U1.
    destruct ((a =? 0)%nat && (b =? 2)%nat) eqn:E1.
    - apply andb_true_iff in E1. destruct E1 as [Ea Eb].
      apply Nat.eqb_eq in Ea, Eb. subst. cbn. ring.
    - destruct ((a =? 1)%nat && (b =? 2)%nat) eqn:E2; [| reflexivity].
      apply andb_true_iff in E2. destruct E2 as [Ea Eb].
      apply Nat.eqb_eq in Ea, Eb. subst. cbn. ring. }
  split.
  - intros i j Hi Hj Hor.
    destruct (Nat.lt_ge_cases i 3) as [Hi3 | Hi3], (Nat.lt_ge_cases j 3) as [Hj3 | Hj3];
      try lia.
    + rewrite (predict_cov_rm _ _ _ _ m) by (reflexivity || assumption || lia).
      rewrite np_sum_3, !HFx.
      destruct i as [| [| [| i]]]; [| | | lia]; cbn; ring.
    + rewrite (predict_cov_mr _ _ _ _ m) by (reflexivity || assumption || lia).
      rewrite np_sum_3, !HFx.
      destruct j as [| [| [| j]]]; [| | | lia]; cbn; ring.
    + apply (predict_cov_mm _ _ _ _ m); (reflexivity || assumption || lia).
  - intros i j Hi Hj.
    rewrite (predict_cov_rr _ _ _ _ m) by (reflexivity || assumption || lia).
    f_equal.
    + rewrite np_sum_3, !np_sum_3, !HFx.
      destruct i as [| [| [| i]]]; [| | | lia];
        (destruct j as [| [| [| j]]]; [| | | lia]); cbn; ring.
    + cbn [mget matmul transpose ncols nrows]. rewrite HQ2.
      reflexivity.
Qed.
End PredictionMore.

(** ** More on the measurement model *)

Section PolarFacts.
Local Open Scope R_scope.

Lemma arctan2_range (y x : R) : - PI < arctan2 y x <= PI.
Proof.
  unfold arctan2.
  pose proof PI_RGT_0 as Hpi.
  pose proof (atan_bound (y / x)) as Hb.
  destruct (Rlt_dec 0 x) as [Hx | Hx]; [lra |].
  destruct (Rlt_dec x 0) as [Hx' | Hx'].
  - destruct (Rle_dec 0 y) as [Hy | Hy].
    + assert (y / x <= 0).
      { unfold Rdiv. assert (/ x < 0) by (apply Rinv_lt_0_compat; exact Hx'). nra. }
      assert (atan (y / x) <= 0).
      { destruct (Req_dec (y / x) 0) as [-> | Hne]; [rewrite atan_0; lra |].
        rewrite <- atan_0. left. apply atan_increasing. lra. }
      lra.
    + assert (0 < y / x).
      { unfold Rdiv. assert (/ x < 0) by (apply Rinv_lt_0_compat; exact Hx'). nra. }
      assert (0 < atan (y / x)) by (rewrite <- atan_0; apply atan_increasing; lra).
      lra.
  - destruct (Rlt_dec 0 y); [lra |]. destruct (Rlt_dec y 0); lra.
Qed.

Lemma sqrt_sum_squares_scale (x u : R) :
  0 <= x -> sqrt (x * x + (x * u) * (x * u)) = x * sqrt (1 + u²).
Proof.
  intros Hx.
  replace (x * x + x * u * (x * u)) with ((x * x) * (1 + u²)) by (unfold Rsqr; ring).
  rewrite sqrt_mult_alt by nra.
  rewrite sqrt_square by exact Hx. reflexivity.
Qed.

Lemma arctan2_polar (y x : R) :
  sqrt (x * x + y * y) * cos (arctan2 y x) = x
  /\ sqrt (x * x + y * y) * sin (arctan2 y x) = y.
Proof.
  unfold arctan2.
  destruct (Rlt_dec 0 x) as [Hx | Hx].
  - set (u := y / x).
    assert (Hy : y = x * u) by (unfold u; field; lra).
    assert (Hs : 0 < sqrt (1 + u²)) by (apply sqrt_lt_R0; pose proof (Rle_0_sqr u); lra).
    assert (Hr : sqrt (x * x + y * y) = x * sqrt (1 + u²)).
    { rewrite Hy. apply sqrt_sum_squares_scale. lra. }
    rewrite Hr, cos_atan, sin_atan.
    split; [field; lra | rewrite Hy; field; lra].
  - destruct (Rlt_dec x 0) as [Hx' | Hx'].
    + set (u := y / x).
      assert (Hy : y = x * u) by (unfold u; field; lra).
      assert (Hs : 0 < sqrt (1 + u²)) by (apply sqrt_lt_R0; pose proof (Rle_0_sqr u); lra).
      assert (Hr : sqrt (x * x + y * y) = - x * sqrt (1 + u²)).
      { rewrite Hy.
        replace (x * x + x * u * (x * u)) with ((- x) * (- x) + (- x) * u * ((- x) * u)) by ring.
        apply sqrt_sum_squares_scale. lra. }
      rewrite Hr.
      destruct (Rle_dec 0 y) as [Hy0 | Hy0].
      * rewrite neg_cos, neg_sin, cos_atan, sin_atan.
        split; [field; lra | rewrite Hy; field; lra].
      * replace (atan u - PI) with (- (PI - atan u)) by ring.
        rewrite cos_neg, sin_neg.
        replace (PI - atan u) with (- atan u + PI) by ring.
        rewrite neg_cos, neg_sin, cos_neg, sin_neg.
        rewrite cos_atan, sin_atan.
        split; [field; lra | rewrite Hy; field; lra].
    + assert (x = 0) by lra. subst x.
      replace (0 * 0 + y * y) with (y * y) by ring.
      destruct (Rlt_dec 0 y) as [Hy | Hy].
      * rewrite sqrt_square by lra. rewrite cos_PI2, sin_PI2. lra.
      * destruct (Rlt_dec y 0) as [Hy' | Hy'].
        -- replace (y * y) with ((- y) * (- y)) by ring.
           rewrite sqrt_square by lra.
           replace (- PI / 2) with (- (PI / 2)) by field.
           rewrite cos_neg, sin_neg, cos_PI2, sin_PI2. lra.
        -- assert (y = 0) by lra. subst y.
           rewrite Rmult_0_l, sqrt_0. lra.
Qed.

(** Two angles of (-pi, pi] with the same cosine and sine are equal. *)
Lemma angle_unique (a b : R) :
  - PI < a <= PI -> - PI < b <= PI -> cos a = cos b -> sin a = sin b -> a = b.
Proof.
  intros Ha Hb Hc Hs.
  assert (Hs0 : sin (a - b) = 0) by (rewrite sin_minus, Hc, Hs; ring).
  assert (Hc1 : cos (a - b) = 1).
  { rewrite cos_minus, Hc, Hs. pose proof (sin2_cos2 b) as E. unfold Rsqr in E. lra. }
  destruct (sin_eq_0_0 _ Hs0) as [k Hk].
  pose proof PI_RGT_0 as Hpi.
  assert (Hk1 : (-2 < k < 2)%Z).
  { split; apply lt_IZR; nra. }
  assert (Hcase : k = (-1)%Z \/ k = 0%Z \/ k = 1%Z) by lia.
  destruct Hcase as [-> | [-> | ->]].
  - replace (a - b) with (- PI) in Hc1 by lra.
    rewrite cos_neg, cos_PI in Hc1. lra.
  - lra.
  - replace (a - b) with PI in Hc1 by lra. rewrite cos_PI in Hc1. lra.
Qed.

Lemma arctan2_of_polar (r phi : R) :
  0 < r -> - PI < phi <= PI -> arctan2 (r * sin phi) (r * cos phi) = phi.
Proof.
  intros Hr Hphi.
  destruct (arctan2_polar (r * sin phi) (r * cos phi)) as [Hc Hs].
  assert (E : sqrt (r * cos phi * (r * cos phi) + r * sin phi * (r * sin phi)) = r).
  { replace (r * cos phi * (r * cos phi) + r * sin phi * (r * sin phi))
      with ((r * r) * ((sin phi)² + (cos phi)²)) by (unfold Rsqr; ring).
    rewrite sin2_cos2, Rmult_1_r. apply sqrt_square. lra. }
  rewrite E in Hc, Hs.
  apply angle_unique; [apply arctan2_range | exact Hphi | nra | nra].
Qed.
End PolarFacts.


Section MeasurementModelFacts.
Local Open Scope R_scope.

Lemma mod2_even (i : nat) : ((2 * i) mod 2 = 0)%nat.
Proof. rewrite Nat.mul_comm. apply Nat.Div0.mod_mul. Qed.

Lemma mod2_odd (i : nat) : ((2 * i + 1) mod 2 = 1)%nat.
Proof.
  pose proof (Nat.div_mod_eq (2 * i + 1) 2). pose proof (half_odd i).
  pose proof (Nat.mod_upper_bound (2 * i + 1) 2 ltac:(lia)). lia.
Qed.

Lemma h_value (self : EKFSLAM) (eta : vec R) (L : nat) :
  vlen eta = (3 + 2 * L)%nat ->
  exists zpred, h self eta = Ok zpred /\ vlen zpred = (2 * L)%nat
    /\ forall i, (i < L)%nat ->
       vget zpred (2 * i)
       = sqrt (fst (landmark_in_sensor_frame self eta i)
               * fst (landmark_in_sensor_frame self eta i)
               + snd (landmark_in_sensor_frame self eta i)
                 * snd (landmark_in_sensor_frame self eta i))
       /\ vget zpred (2 * i + 1)
          = arctan2 (snd (landmark_in_sensor_frame self eta i))
                    (fst (landmark_in_sensor_frame self eta i)).
Proof.
  intros Heta. unfold h.
  rewrite (landmarks_of_ok eta L Heta).
  cbn [bind transpose ncols nrows ravel vlen].
  rewrite Heta.
  replace (L * 2 =? 3 + 2 * L - 3)%nat with true
    by (symmetry; apply Nat.eqb_eq; lia).
  cbn [assertb bind].
  eexists. split; [reflexivity |]. split.
  1: cbn [vlen ravel transpose nrows ncols]; lia.
  intros i Hi. unfold landmark_in_sensor_frame. cbn [fst snd].
  cbn [vget mget ravel transpose nrows ncols].
  rewrite half_even, half_odd, mod2_even, mod2_odd.
  cbn [norm2 dot mcol vlen vget nrows ncols mget vsub matvec rotmat2d vslice vfrom
       np_sum np_sqrt np_mul np_add np_sub np_zero np_neg np_cos np_sin R_scalar R_trig
       transpose].
  rewrite cos_neg, sin_neg.
  replace (3 + (2 * i + 0))%nat with (3 + 2 * i)%nat by lia.
  replace (3 + (2 * i + 1))%nat with (3 + 2 * i + 1)%nat by lia.
  change (0 + 2)%nat with 2%nat. change (0 + (0 + 0))%nat with 0%nat.
  change (0 + (0 + 1))%nat with 1%nat.
  split; f_equal; ring.
Qed.

(** X8.  For a state with [L] landmarks, [h] returns [2 L] numbers, a range
    and a bearing for each landmark: the range is not negative, the bearing
    lies in (-pi, pi], and the two are the polar coordinates of the
    landmark's position in the sensor frame. *)
Theorem h_polar_coordinates (self : EKFSLAM) (eta : vec R) (L : nat) :
  vlen eta = (3 + 2 * L)%nat -> vlen (sensor_offset self) = 2%nat ->
  exists zpred, h self eta = Ok zpred /\ vlen zpred = (2 * L)%nat
    /\ forall i, (i < L)%nat ->
       0 <= vget zpred (2 * i)
       /\ - PI < vget zpred (2 * i + 1) <= PI
       /\ vget zpred (2 * i) * cos (vget zpred (2 * i + 1))
          = fst (landmark_in_sensor_frame self eta i)
       /\ vget zpred (2 * i) * sin (vget zpred (2 * i + 1))
          = snd (landmark_in_sensor_frame self eta i).
Proof.
  intros Heta _.
  destruct (h_value self eta L Heta) as (zpred & Hok & Hlen & Hval).
  exists zpred. split; [exact Hok |]. split; [exact Hlen |].
  intros i Hi. destruct (Hval i Hi) as [-> ->].
  split; [apply sqrt_pos |]. split; [apply arctan2_range |].
  apply arctan2_polar.
Qed.

(** X9.  [h] and [h_jac] agree on the range of every landmark: the range
    that [h] returns, taken in the sensor frame, is the divisor that [h_jac]
    computes in the world frame. *)
Theorem h_range_is_h_jac_range (self : EKFSLAM) (eta zpred : vec R) (m : mat R) (L i : nat) :
  vlen eta = (3 + 2 * L)%nat -> vlen (sensor_offset self) = 2%nat ->
  h self eta = Ok zpred -> landmarks_of eta = Ok m -> (i < L)%nat ->
  vget zpred (2 * i) = vget (h_jac_zpred_r (sensor_offset self) eta m) i.
Proof.
  intros Heta _ Hh Hm Hi.
  destruct (h_value self eta L Heta) as (zpred' & Hok & _ & Hval).
  rewrite Hok in Hh. injection Hh as <-.
  rewrite (landmarks_of_ok eta L Heta) in Hm. injection Hm as <-.
  destruct (Hval i Hi) as [-> _].
  unfold landmark_in_sensor_frame. cbn [fst snd].
  cbn [h_jac_zpred_r h_jac_zc h_jac_delta_m norm2 dot mcol vlen vget nrows ncols mget
       vsub matvec rotmat2d vslice vfrom transpose
       np_sum np_sqrt np_mul np_add np_sub np_zero np_neg np_cos np_sin R_scalar R_trig].
  replace (3 + (2 * i + 0))%nat with (3 + 2 * i)%nat by lia.
  replace (3 + (2 * i + 1))%nat with (3 + 2 * i + 1)%nat by lia.
  change (0 + 2)%nat with 2%nat. change (0 + (0 + 0))%nat with 0%nat.
  change (0 + (0 + 1))%nat with 1%nat.
  f_equal.
  replace (S (S (S (i + (i + 0) + 0)))) with (3 + 2 * i)%nat by lia.
  replace (S (S (S (i + (i + 0) + 1)))) with (3 + 2 * i + 1)%nat by lia.
  pose proof (sin2_cos2 (vget eta 2)) as E. unfold Rsqr in E.
  set (c := cos (vget eta 2)) in *. set (s := sin (vget eta 2)) in *.
  set (dx := vget eta (3 + 2 * i) - vget eta 0).
  set (dy := vget eta (3 + 2 * i + 1) - vget eta 1).
  set (ox := vget (sensor_offset self) 0). set (oy := vget (sensor_offset self) 1).
  match goal with
  | |- ?A = ?B =>
      assert (K : A - B = (s * s + c * c - 1) * (dx * dx + dy * dy - ox * ox - oy * oy))
        by ring
  end.
  rewrite E in K. lra.
Qed.
Section OddStates.
Variable JCBB : vec R -> vec R -> mat R -> R -> R -> vec Z.
Variable cho_factor : mat R -> result (mat R * bool).
Variable cho_solve : mat R * bool -> mat R -> mat R.

(** X10.  A state whose landmark part has an odd number of entries is
    rejected everywhere: [h] and [h_jac] fail with the [ValueError] of the
    reshape, [update] with its own [AssertionError], before anything is
    computed. *)
Theorem odd_state_rejected (self : EKFSLAM) (eta : vec R) (P : mat R) (z : mat R) :
  ((vlen eta - 3) mod 2 = 1)%nat ->
  h self eta = Raise ValueError
  /\ h_jac (sensor_offset self) eta = Raise ValueError
  /\ update JCBB cho_factor cho_solve self eta P z = Raise AssertionError.
Proof.
  intros Hodd.
  assert (Hm : landmarks_of eta = Raise ValueError).
  { unfold landmarks_of, reshape_pairs. cbn [vlen vfrom]. rewrite Hodd. reflexivity. }
  split; [unfold h; rewrite Hm; reflexivity |].
  split; [unfold h_jac; rewrite Hm; reflexivity |].
  unfold update.
  pose proof (Nat.div_mod_eq (vlen eta - 3) 2) as Hd. rewrite Hodd in Hd.
  replace (Z.of_nat (vlen eta) - 3)%Z with (1 + Z.of_nat ((vlen eta - 3) / 2) * 2)%Z by lia.
  rewrite Z.mod_add by lia. reflexivity.
Qed.
End OddStates.
End MeasurementModelFacts.

(** ** The measurement Jacobian as a derivative *)

Section PolarDerivatives.
Local Open Scope R_scope.

Lemma arctan2_upper (y x : R) : 0 < y -> arctan2 y x = PI / 2 - atan (x / y).
Proof.
  intros Hy. unfold arctan2.
  destruct (Rlt_dec 0 x) as [Hx | Hx].
  - replace (y / x) with (/ (x / y)) by (field; lra).
    apply atan_inv. unfold Rdiv. apply Rmult_lt_0_compat; [lra |].
    apply Rinv_0_lt_compat; lra.
  - destruct (Rlt_dec x 0) as [Hx' | Hx'].
    + destruct (Rle_dec 0 y) as [_ | Hn]; [| lra].
      replace (y / x) with (- / (- x / y)) by (field; lra).
      rewrite atan_opp, atan_inv.
      * replace (- x / y) with (- (x / y)) by (field; lra). rewrite atan_opp. lra.
      * unfold Rdiv. apply Rmult_lt_0_compat; [lra |].
        apply Rinv_0_lt_compat; lra.
    + assert (x = 0) by lra. subst x.
      destruct (Rlt_dec 0 y) as [_ | Hn]; [| lra].
      unfold Rdiv. rewrite Rmult_0_l, atan_0. lra.
Qed.

Lemma arctan2_lower (y x : R) : y < 0 -> arctan2 y x = - PI / 2 - atan (x / y).
Proof.
  intros Hy. unfold arctan2.
  destruct (Rlt_dec 0 x) as [Hx | Hx].
  - replace (y / x) with (- / (- x / y)) by (field; lra).
    rewrite atan_opp, atan_inv.
    + replace (- x / y) with (- (x / y)) by (field; lra). rewrite atan_opp. lra.
    + replace (- x / y) with (x * / (- y)) by (field; lra).
      apply Rmult_lt_0_compat; [lra |]. apply Rinv_0_lt_compat; lra.
  - destruct (Rlt_dec x 0) as [Hx' | Hx'].
    + destruct (Rle_dec 0 y) as [Hn | _]; [lra |].
      replace (y / x) with (/ (x / y)) by (field; lra).
      rewrite atan_inv; [lra |].
      replace (x / y) with ((- x) * / (- y)) by (field; lra).
      apply Rmult_lt_0_compat; [lra |]. apply Rinv_0_lt_compat; lra.
    + assert (x = 0) by lra. subst x.
      destruct (Rlt_dec 0 y) as [Hn | _]; [lra |].
      destruct (Rlt_dec y 0) as [_ | Hn]; [| lra].
      unfold Rdiv. rewrite Rmult_0_l, atan_0. lra.
Qed.

(** A function with a derivative at [t] keeps its sign near [t]. *)
Lemma locally_pos (X : R -> R) (t x' : R) :
  derivable_pt_lim X t x' -> 0 < X t ->
  exists d, 0 < d /\ forall s, t - d < s < t + d -> 0 < X s.
Proof.
  intros HX Hpos.
  assert (Hc : continuity_pt X t).
  { apply derivable_continuous_pt. exists x'. exact HX. }
  destruct (Hc (X t / 2) ltac:(lra)) as (d & Hd & Hall).
  exists d. split; [lra |].
  intros s Hs.
  destruct (Req_dec t s) as [<- | Hne]; [exact Hpos |].
  specialize (Hall s).
  assert (Hdist : Rabs (X s - X t) < X t / 2).
  { apply Hall. split; [split; [exact I | exact Hne] |].
    cbn. unfold Rdist. apply Rabs_def1; lra. }
  apply Rabs_def2 in Hdist. lra.
Qed.

Lemma locally_neg (X : R -> R) (t x' : R) :
  derivable_pt_lim X t x' -> X t < 0 ->
  exists d, 0 < d /\ forall s, t - d < s < t + d -> X s < 0.
Proof.
  intros HX Hneg.
  destruct (locally_pos (fun s => - X s) t (- x')) as (d & Hd & Hall).
  - apply (derivable_pt_lim_opp X). exact HX.
  - lra.
  - exists d. split; [exact Hd |]. intros s Hs. specialize (Hall s Hs). lra.
Qed.

Lemma derivable_pt_lim_range (X Y : R -> R) (t x' y' : R) :
  derivable_pt_lim X t x' -> derivable_pt_lim Y t y' ->
  0 < X t * X t + Y t * Y t ->
  derivable_pt_lim (fun s => sqrt (X s * X s + Y s * Y s)) t
    ((X t * x' + Y t * y') / sqrt (X t * X t + Y t * Y t)).
Proof.
  intros HX HY Hpos.
  assert (Hs : 0 < sqrt (X t * X t + Y t * Y t)) by (apply sqrt_lt_R0; exact Hpos).
  replace ((X t * x' + Y t * y') / sqrt (X t * X t + Y t * Y t))
    with (/ (2 * sqrt (X t * X t + Y t * Y t))
          * ((x' * X t + X t * x') + (y' * Y t + Y t * y')))
    by (field; lra).
  apply (derivable_pt_lim_comp (fun s => X s * X s + Y s * Y s) sqrt).
  - apply (derivable_pt_lim_plus (fun s => X s * X s) (fun s => Y s * Y s)).
    + apply (derivable_pt_lim_mult X X); assumption.
    + apply (derivable_pt_lim_mult Y Y); assumption.
  - apply derivable_pt_lim_sqrt. exact Hpos.
Qed.

Lemma derivable_pt_lim_atan_quot (X Y : R -> R) (t x' y' : R) :
  derivable_pt_lim X t x' -> derivable_pt_lim Y t y' -> X t <> 0 ->
  derivable_pt_lim (fun s => atan (Y s / X s)) t
    ((X t * y' - Y t * x') / (X t * X t + Y t * Y t)).
Proof.
  intros HX HY Hne.
  assert (Hpos : 0 < X t * X t + Y t * Y t) by nra.
  replace ((X t * y' - Y t * x') / (X t * X t + Y t * Y t))
    with (/ (1 + (Y t / X t) ^ 2) * ((y' * X t - x' * Y t) / (X t)²)).
  - apply (derivable_pt_lim_comp (fun s => Y s / X s) atan).
    + apply (derivable_pt_lim_div Y X); assumption.
    + apply derivable_pt_lim_atan.
  - unfold Rsqr. field. split; [nra | exact Hne].
Qed.

Lemma derivable_pt_lim_arctan2 (X Y : R -> R) (t x' y' : R) :
  derivable_pt_lim X t x' -> derivable_pt_lim Y t y' ->
  Y t <> 0 \/ 0 < X t ->
  derivable_pt_lim (fun s => arctan2 (Y s) (X s)) t
    ((X t * y' - Y t * x') / (X t * X t + Y t * Y t)).
Proof.
  intros HX HY Hoff.
  destruct (Rlt_dec 0 (X t)) as [Hx | Hx].
  - destruct (locally_pos X t x' HX Hx) as (d & Hd & Hall).
    apply (derivable_pt_lim_locally_ext (fun s => atan (Y s / X s)) _ t (t - d) (t + d));
      [lra | |].
    + intros s Hs. specialize (Hall s Hs). unfold arctan2.
      destruct (Rlt_dec 0 (X s)); [reflexivity | lra].
    + apply derivable_pt_lim_atan_quot; [assumption | assumption | lra].
  - assert (Hy : Y t <> 0) by (destruct Hoff; [assumption | lra]).
    assert (Hq : derivable_pt_lim (fun s => atan (X s / Y s)) t
                   ((Y t * x' - X t * y') / (Y t * Y t + X t * X t)))
      by (apply derivable_pt_lim_atan_quot; assumption).
    assert (Hpos : 0 < X t * X t + Y t * Y t) by nra.
    destruct (Rlt_dec 0 (Y t)) as [Hy0 | Hy0].
    + destruct (locally_pos Y t y' HY Hy0) as (d & Hd & Hall).
      apply (derivable_pt_lim_locally_ext (fun s => PI / 2 - atan (X s / Y s)) _
               t (t - d) (t + d)); [lra | |].
      * intros s Hs. symmetry. apply arctan2_upper, Hall, Hs.
      * replace ((X t * y' - Y t * x') / (X t * X t + Y t * Y t))
          with (0 - (Y t * x' - X t * y') / (Y t * Y t + X t * X t))
          by (field; lra).
        apply (derivable_pt_lim_minus (fun _ => PI / 2) (fun s => atan (X s / Y s)));
          [apply derivable_pt_lim_const | exact Hq].
    + assert (Hy1 : Y t < 0) by lra.
      destruct (locally_neg Y t y' HY Hy1) as (d & Hd & Hall).
      apply (derivable_pt_lim_locally_ext (fun s => - PI / 2 - atan (X s / Y s)) _
               t (t - d) (t + d)); [lra | |].
      * intros s Hs. symmetry. apply arctan2_lower, Hall, Hs.
      * replace ((X t * y' - Y t * x') / (X t * X t + Y t * Y t))
          with (0 - (Y t * x' - X t * y') / (Y t * Y t + X t * X t))
          by (field; lra).
        apply (derivable_pt_lim_minus (fun _ => - PI / 2) (fun s => atan (X s / Y s)));
          [apply derivable_pt_lim_const | exact Hq].
Qed.
End PolarDerivatives.


Section JacobianEntries.
Local Open Scope R_scope.
Variables (delta_m zc : mat R) (zpred_r : vec R) (L : nat).
Hypothesis Hdm : nrows delta_m = 2%nat.
Hypothesis Hzc : nrows zc = 2%nat.

Lemma h_jac_body_pose_cols (st : h_jac_bufs) (i : nat) (Rp : mat R) :
  h_jac_pose_cols st -> h_jac_pose_cols (h_jac_body delta_m zc zpred_r Rp st i).
Proof.
  intros (H1 & H2 & H3). unfold h_jac_pose_cols, h_jac_body.
  cbn [buf_jac_z_cb nrows ncols set_colslice mget].
  split; [exact H1 |]. split; [exact H2 |].
  intros a b Hb.
  replace (b =? 2)%nat with false by (symmetry; apply Nat.eqb_neq; lia).
  rewrite andb_false_r. apply H3, Hb.
Qed.

Lemma h_jac_body_rows (st : h_jac_bufs) (i a c : nat) :
  h_jac_inv L st -> h_jac_pose_cols st -> (a < 2)%nat -> (c < 5)%nat ->
  mget (buf_H (h_jac_body delta_m zc zpred_r (rotmat2d (PI / 2)) st i))
       (2 * i + a) (if (c <? 3)%nat then c else (3 + 2 * i + (c - 3))%nat)
  = polar_jacobian (mget delta_m 0 i) (mget delta_m 1 i) (mget zc 0 i) (mget zc 1 i)
                   (vget zpred_r i) a c.
Proof.
  intros (_ & _ & HrX & HcX & HrM & HcM & _) (J1 & J2 & J3) Ha Hc.
  unfold h_jac_body.
  cbn [buf_H].
  destruct (c <? 3)%nat eqn:Ec.
  - apply Nat.ltb_lt in Ec.
    rewrite set_block_out by (cbn [nrows ncols set_rowslice]; lia).
    rewrite set_block_in by (cbn [nrows ncols set_rowslice]; rewrite ?HrX, ?HcX; lia).
    replace (2 * i + a - 2 * i)%nat with a by lia. rewrite Nat.sub_0_r.
    assert (Ha' : a = 0%nat \/ a = 1%nat) by lia.
    assert (Hc' : c = 0%nat \/ c = 1%nat \/ c = 2%nat) by lia.
    destruct Ha' as [-> | ->]; destruct Hc' as [-> | [-> | ->]];
      cbn [mget set_rowslice vlen vget vecmat vdivs mcol nrows ncols set_colslice
           transpose matvec mneg rotmat2d];
      rewrite ?J2, ?Hzc, ?Hdm;
      cbn [within Nat.leb Nat.ltb Nat.add Nat.eqb andb Nat.sub np_sum];
      rewrite ?J3 by lia;
      cbn [Nat.eqb polar_jacobian np_mul np_add np_sub np_div np_neg np_zero np_cos np_sin
           np_pi np_two np_one R_scalar R_trig].
    all: rewrite ?cos_PI2, ?sin_PI2; unfold Rdiv; ring.
  - apply Nat.ltb_ge in Ec.
    rewrite set_block_in by (cbn [nrows ncols set_rowslice]; rewrite ?HrM, ?HcM; lia).
    replace (2 * i + a - 2 * i)%nat with a by lia.
    replace (3 + 2 * i + (c - 3) - (3 + i * 2))%nat with (c - 3)%nat by lia.
    assert (Ha' : a = 0%nat \/ a = 1%nat) by lia.
    assert (Hc' : c = 3%nat \/ c = 4%nat) by lia.
    destruct Ha' as [-> | ->]; destruct Hc' as [-> | ->];
      cbn [mget set_rowslice vlen vget vecmat vdivs mcol nrows ncols set_colslice
           transpose matvec mneg vneg rotmat2d];
      rewrite ?Hzc;
      cbn [within Nat.leb Nat.ltb Nat.add Nat.eqb andb Nat.sub np_sum];
      cbn [Nat.eqb polar_jacobian np_mul np_add np_sub np_div np_neg np_zero np_cos np_sin
           np_pi np_two np_one R_scalar R_trig].
    all: rewrite ?cos_PI2, ?sin_PI2; unfold Rdiv; ring.
Qed.
Lemma h_jac_body_keeps (st : h_jac_bufs) (Rp : mat R) (j r c : nat) :
  h_jac_inv L st -> ~ (2 * j <= r < 2 * j + 2)%nat ->
  mget (buf_H (h_jac_body delta_m zc zpred_r Rp st j)) r c = mget (buf_H st) r c.
Proof.
  intros (_ & _ & HrX & HcX & HrM & HcM & _) Hr.
  unfold h_jac_body. cbn [buf_H].
  rewrite !set_block_out by (cbn [nrows ncols set_rowslice]; rewrite ?HrX, ?HrM; lia).
  reflexivity.
Qed.

Lemma h_jac_loop_rows (l : list nat) (st : h_jac_bufs) (i a c : nat) :
  h_jac_inv L st -> h_jac_pose_cols st -> (a < 2)%nat -> (c < 5)%nat ->
  NoDup l -> In i l ->
  mget (buf_H (fold_left (h_jac_body delta_m zc zpred_r (rotmat2d (PI / 2))) l st))
       (2 * i + a) (if (c <? 3)%nat then c else (3 + 2 * i + (c - 3))%nat)
  = polar_jacobian (mget delta_m 0 i) (mget delta_m 1 i) (mget zc 0 i) (mget zc 1 i)
                   (vget zpred_r i) a c.
Proof.
  intros Hst Hj Ha Hc. revert st Hst Hj.
  induction l as [| j l IH]; intros st Hst Hj Hnd Hin; cbn [fold_left].
  - destruct Hin.
  - inversion Hnd as [| ? ? Hnotin Hnd']; subst.
    destruct (Nat.eq_dec j i) as [-> | Hne].
    + clear IH.
      assert (Hkeep : forall l' st', h_jac_inv L st' -> ~ In i l' ->
                mget (buf_H (fold_left (h_jac_body delta_m zc zpred_r (rotmat2d (PI / 2)))
                                       l' st'))
                     (2 * i + a)
                     (if (c <? 3)%nat then c else (3 + 2 * i + (c - 3))%nat)
                = mget (buf_H st') (2 * i + a)
                       (if (c <? 3)%nat then c else (3 + 2 * i + (c - 3))%nat)).
      { induction l' as [| k l' IH']; intros st' Hst' Hk; cbn [fold_left];
          [reflexivity |].
        rewrite IH'.
        - apply h_jac_body_keeps; [exact Hst' |].
          assert (k <> i) by (intros ->; apply Hk; left; reflexivity). lia.
        - apply h_jac_body_inv, Hst'.
        - intros Hc'. apply Hk. right. exact Hc'. }
      rewrite Hkeep by (auto using h_jac_body_inv).
      apply h_jac_body_rows; assumption.
    + apply IH; [apply h_jac_body_inv, Hst | apply h_jac_body_pose_cols, Hj | exact Hnd' |].
      destruct Hin as [-> | Hin]; [contradiction | exact Hin].
Qed.
End JacobianEntries.

(** The entries of the matrix that [h_jac] returns, over the reals. *)
Lemma h_jac_entries (offset eta : vec R) (L : nat) :
  vlen eta = (3 + 2 * L)%nat ->
  exists H, h_jac offset eta = Ok H
    /\ nrows H = (2 * L)%nat /\ ncols H = (3 + 2 * L)%nat
    /\ (forall r c, (3 <= c)%nat -> c <> (3 + 2 * (r / 2))%nat ->
          c <> (3 + 2 * (r / 2) + 1)%nat -> mget H r c = 0%R)
    /\ forall i a c, (i < L)%nat -> (a < 2)%nat -> (c < 5)%nat ->
         let psi := vget eta 2 in
         let dx := (vget eta (3 + 2 * i) - vget eta 0)%R in
         let dy := (vget eta (3 + 2 * i + 1) - vget eta 1)%R in
         let zx := (dx - (cos psi * vget offset 0 - sin psi * vget offset 1))%R in
         let zy := (dy - (sin psi * vget offset 0 + cos psi * vget offset 1))%R in
         mget H (2 * i + a) (if (c <? 3)%nat then c else (3 + 2 * i + (c - 3))%nat)
         = polar_jacobian dx dy zx zy (sqrt (zx * zx + zy * zy)) a c.
Proof.
  intros Heta. unfold h_jac.
  rewrite (landmarks_of_ok eta L Heta).
  cbn [bind transpose ncols nrows].
  eexists. split; [reflexivity |].
  match goal with
  | |- context [fold_left ?body ?l ?st0] =>
      assert (Hinv : h_jac_inv L (fold_left body l st0))
  end.
  { apply h_jac_loop_inv. unfold h_jac_inv. cbn.
    repeat (split; [reflexivity |]). intros; reflexivity. }
  destruct Hinv as (HrH & HcH & _ & _ & _ & _ & Hz).
  split; [exact HrH |]. split; [exact HcH |]. split; [exact Hz |].
  intros i a c Hi Ha Hc.
  replace (np_div np_pi np_two) with (PI / 2)%R
    by (cbn [np_div np_pi np_two np_one np_add R_scalar R_trig]; lra).
  rewrite (h_jac_loop_rows _ _ _ L) with (i := i); try assumption; try reflexivity.
  - f_equal;
      cbn [h_jac_zpred_r h_jac_zc h_jac_delta_m norm2 dot mcol vlen vget nrows ncols mget
           vsub matvec rotmat2d vslice vfrom transpose
           np_sum np_sqrt np_mul np_add np_sub np_zero np_neg np_cos np_sin
           R_scalar R_trig];
      replace (3 + (2 * i + 0))%nat with (3 + 2 * i)%nat by lia;
      replace (3 + (2 * i + 1))%nat with (3 + 2 * i + 1)%nat by lia;
      change (0 + 2)%nat with 2%nat; change (0 + (0 + 0))%nat with 0%nat;
      change (0 + (0 + 1))%nat with 1%nat;
      try (f_equal; ring); try ring.
  - unfold h_jac_inv. cbn.
    repeat (split; [reflexivity |]). intros; reflexivity.
  - unfold h_jac_pose_cols.
    cbn [buf_jac_z_cb nrows ncols mneg eye mget np_neg np_one np_zero R_scalar].
    repeat (split; [reflexivity |]). intros; reflexivity.
  - apply seq_NoDup.
  - apply in_seq. lia.
Qed.


Ltac eqb_decide :=
  repeat match goal with
    | |- context [(?a =? ?b)%nat] =>
        first [ replace (a =? b)%nat with true by (symmetry; apply Nat.eqb_eq; lia)
              | replace (a =? b)%nat with false by (symmetry; apply Nat.eqb_neq; lia) ]
    end.

Section JacobianOfH.
Local Open Scope R_scope.

Lemma derivable_pt_lim_eq (g1 g2 : R -> R) (x l : R) :
  (forall t, g1 t = g2 t) -> derivable_pt_lim g1 x l -> derivable_pt_lim g2 x l.
Proof.
  intros Heq. apply (derivable_pt_lim_locally_ext g1 g2 x (x - 1) (x + 1)); [lra |].
  intros z _. apply Heq.
Qed.

Lemma derivable_pt_lim_affine_at (F : R -> R) (b x : R) :
  (forall t, F t = F 0 + b * t) -> derivable_pt_lim F x b.
Proof.
  intros HF. apply (derivable_pt_lim_eq (fun t => F 0 + b * t)).
  - intros t. symmetry. apply HF.
  - apply derivable_pt_lim_affine.
Qed.

Lemma derivable_pt_lim_trig_at (F : R -> R) (a b c x : R) :
  (forall t, F t = a + b * cos t + c * sin t) ->
  derivable_pt_lim F x (- b * sin x + c * cos x).
Proof.
  intros HF. apply (derivable_pt_lim_eq (fun t => a + b * cos t + c * sin t)).
  - intros t. symmetry. apply HF.
  - apply derivable_pt_lim_trig.
Qed.

Lemma sensor_frame_derivatives (self : EKFSLAM) (eta : vec R) (H : mat R) (L i k : nat) :
  vlen eta = (3 + 2 * L)%nat -> h_jac (sensor_offset self) eta = Ok H ->
  (i < L)%nat -> (k < 3 + 2 * L)%nat ->
  let X := fst (landmark_in_sensor_frame self eta i) in
  let Y := snd (landmark_in_sensor_frame self eta i) in
  exists x' y',
    derivable_pt_lim (fun t => fst (landmark_in_sensor_frame self (set_ventry eta k t) i))
                     (vget eta k) x'
    /\ derivable_pt_lim (fun t => snd (landmark_in_sensor_frame self (set_ventry eta k t) i))
                        (vget eta k) y'
    /\ (X * x' + Y * y') / sqrt (X * X + Y * Y) = mget H (2 * i) k
    /\ (X * y' - Y * x') / (X * X + Y * Y) = mget H (2 * i + 1) k.
Proof.
  intros Heta HH Hi Hk X Y.
  destruct (h_jac_entries (sensor_offset self) eta L Heta)
    as (H' & HH' & _ & _ & Hz & Hent).
  rewrite HH in HH'. injection HH' as <-.
  pose proof (fun c => Hent i 0%nat c Hi ltac:(lia)) as Hr.
  pose proof (fun c => Hent i 1%nat c Hi ltac:(lia)) as Hb.
  cbv zeta in Hr, Hb. rewrite Nat.add_0_r in Hr.
  clear Hent.
  pose proof (Hr 0%nat ltac:(lia)) as Hr0. pose proof (Hr 1%nat ltac:(lia)) as Hr1.
  pose proof (Hr 2%nat ltac:(lia)) as Hr2. pose proof (Hr 3%nat ltac:(lia)) as Hr3.
  pose proof (Hr 4%nat ltac:(lia)) as Hr4.
  pose proof (Hb 0%nat ltac:(lia)) as Hb0. pose proof (Hb 1%nat ltac:(lia)) as Hb1.
  pose proof (Hb 2%nat ltac:(lia)) as Hb2. pose proof (Hb 3%nat ltac:(lia)) as Hb3.
  pose proof (Hb 4%nat ltac:(lia)) as Hb4.
  clear Hr Hb.
  cbn [Nat.ltb Nat.leb Nat.sub polar_jacobian] in Hr0, Hr1, Hr2, Hr3, Hr4,
                                                 Hb0, Hb1, Hb2, Hb3, Hb4.
  replace (3 + 2 * i + 0)%nat with (3 + 2 * i)%nat in Hr3, Hb3 by lia.
  unfold X, Y. clear X Y.
  unfold landmark_in_sensor_frame. cbn [fst snd].
  cbn [vget set_ventry].
  pose proof (sin2_cos2 (vget eta 2)) as E. unfold Rsqr in E.
  set (ox := vget (sensor_offset self) 0) in *.
  set (oy := vget (sensor_offset self) 1) in *.
  assert (Hcase : k = 0%nat \/ k = 1%nat \/ k = 2%nat \/ k = (3 + 2 * i)%nat
                  \/ k = (3 + 2 * i + 1)%nat
                  \/ (3 <= k /\ k <> 3 + 2 * i /\ k <> 3 + 2 * i + 1)%nat) by lia.
  set (c := cos (vget eta 2)) in *. set (s := sin (vget eta 2)) in *.
  assert (E' : c * c = 1 - s * s) by lra.
  set (px := vget eta 0) in *. set (py := vget eta 1) in *.
  set (mx := vget eta (3 + 2 * i)) in *. set (my := vget eta (3 + 2 * i + 1)) in *.
  assert (Hiso : (c * (mx - px) + s * (my - py) - ox) * (c * (mx - px) + s * (my - py) - ox)
                 + (- s * (mx - px) + c * (my - py) - oy)
                   * (- s * (mx - px) + c * (my - py) - oy)
                 = (mx - px - (c * ox - s * oy)) * (mx - px - (c * ox - s * oy))
                   + (my - py - (s * ox + c * oy)) * (my - py - (s * ox + c * oy)))
    by ring [E'].
  assert (Hrho2 : forall zx zy : R, sqrt (zx * zx + zy * zy) * sqrt (zx * zx + zy * zy)
                                    = zx * zx + zy * zy).
  { intros zx zy. apply sqrt_sqrt. nra. }
  rewrite Hrho2 in Hb0, Hb1, Hb2, Hb3, Hb4.
  rewrite Hiso.
  destruct Hcase as [-> | [-> | [-> | [-> | [-> | Hother]]]]]; eqb_decide;
    fold c; fold s; fold px; fold py; fold mx; fold my.
  - exists (- c), s. fold px.
    split; [apply derivable_pt_lim_affine_at; intros; cbv beta; ring |].
    split; [apply derivable_pt_lim_affine_at; intros; cbv beta; ring |].
    rewrite Hr0, Hb0. unfold Rdiv. split; ring [E'].
  - exists (- s), (- c). fold py.
    split; [apply derivable_pt_lim_affine_at; intros; cbv beta; ring |].
    split; [apply derivable_pt_lim_affine_at; intros; cbv beta; ring |].
    rewrite Hr1, Hb1. unfold Rdiv. split; ring [E'].
  - exists (- (mx - px) * s + (my - py) * c), (- (my - py) * s + (- (mx - px)) * c).
    split; [apply (derivable_pt_lim_trig_at _ (- ox)); intros; cbv beta; ring |].
    split; [apply (derivable_pt_lim_trig_at _ (- oy)); intros; cbv beta; ring |].
    rewrite Hr2, Hb2. unfold Rdiv. split; ring [E'].
  - exists c, (- s). fold mx.
    split; [apply derivable_pt_lim_affine_at; intros; cbv beta; ring |].
    split; [apply derivable_pt_lim_affine_at; intros; cbv beta; ring |].
    rewrite Hr3, Hb3. unfold Rdiv. split; ring [E'].
  - exists s, c. fold my.
    split; [apply derivable_pt_lim_affine_at; intros; cbv beta; ring |].
    split; [apply derivable_pt_lim_affine_at; intros; cbv beta; ring |].
    rewrite Hr4, Hb4. unfold Rdiv. split; ring [E'].
  - exists 0, 0.
    split; [apply derivable_pt_lim_affine_at; intros; cbv beta; ring |].
    split; [apply derivable_pt_lim_affine_at; intros; cbv beta; ring |].
    rewrite !Hz by (rewrite ?half_even, ?half_odd; lia).
    unfold Rdiv. split; ring.
Qed.

Lemma h_value_of (self : EKFSLAM) (eta : vec R) (L i : nat) :
  vlen eta = (3 + 2 * L)%nat -> (i < L)%nat ->
  vget (value_of (vzeros 0) (h self eta)) (2 * i)
  = sqrt (fst (landmark_in_sensor_frame self eta i)
          * fst (landmark_in_sensor_frame self eta i)
          + snd (landmark_in_sensor_frame self eta i)
            * snd (landmark_in_sensor_frame self eta i))
  /\ vget (value_of (vzeros 0) (h self eta)) (2 * i + 1)
     = arctan2 (snd (landmark_in_sensor_frame self eta i))
               (fst (landmark_in_sensor_frame self eta i)).
Proof.
  intros Heta Hi.
  destruct (h_value self eta L Heta) as (zpred & -> & _ & Hval).
  cbn [value_of]. apply Hval, Hi.
Qed.

(** X11.  [h_jac] holds the derivatives of the ranges that [h] predicts: for
    a landmark whose predicted range is not zero, the entry of the returned
    matrix in the landmark's range row and column [k] is the partial
    derivative of that range with respect to entry [k] of the state. *)
Theorem h_jac_is_the_jacobian_of_the_range
        (self : EKFSLAM) (eta zpred : vec R) (H : mat R) (L i k : nat) :
  vlen eta = (3 + 2 * L)%nat -> vlen (sensor_offset self) = 2%nat ->
  h self eta = Ok zpred -> h_jac (sensor_offset self) eta = Ok H ->
  (i < L)%nat -> (k < 3 + 2 * L)%nat ->
  vget zpred (2 * i) <> 0 ->
  partial_derivative (fun e => value_of (vzeros 0) (h self e)) (2 * i) k eta
                     (mget H (2 * i) k).
Proof.
  intros Heta _ Hh HH Hi Hk Hrange.
  destruct (h_value self eta L Heta) as (zpred' & Hok & _ & Hval).
  rewrite Hok in Hh. injection Hh as <-.
  destruct (Hval i Hi) as [Hr _]. rewrite Hr in Hrange.
  destruct (sensor_frame_derivatives self eta H L i k Heta HH Hi Hk)
    as (x' & y' & HX & HY & <- & _).
  unfold partial_derivative.
  apply (derivable_pt_lim_eq
           (fun t => sqrt (fst (landmark_in_sensor_frame self (set_ventry eta k t) i)
                           * fst (landmark_in_sensor_frame self (set_ventry eta k t) i)
                           + snd (landmark_in_sensor_frame self (set_ventry eta k t) i)
                             * snd (landmark_in_sensor_frame self (set_ventry eta k t) i)))).
  - intros t. symmetry. apply (h_value_of self (set_ventry eta k t) L i); [exact Heta | exact Hi].
  - assert (Hat : forall j, vget (set_ventry eta k (vget eta k)) j = vget eta j).
    { intros j. cbn [vget set_ventry]. destruct (Nat.eqb_spec j k) as [-> | _]; reflexivity. }
    assert (Hsame : landmark_in_sensor_frame self (set_ventry eta k (vget eta k)) i
                    = landmark_in_sensor_frame self eta i).
    { unfold landmark_in_sensor_frame. rewrite !Hat. reflexivity. }
    pose proof (derivable_pt_lim_range
                  (fun t => fst (landmark_in_sensor_frame self (set_ventry eta k t) i))
                  (fun t => snd (landmark_in_sensor_frame self (set_ventry eta k t) i))
                  (vget eta k) x' y' HX HY) as Hd.
    cbv beta in Hd. rewrite Hsame in Hd. apply Hd.
    set (X := fst (landmark_in_sensor_frame self eta i)) in *.
    set (Y := snd (landmark_in_sensor_frame self eta i)) in *.
    destruct (Rle_lt_or_eq_dec 0 (X * X + Y * Y) ltac:(nra)) as [Hlt | Heq]; [exact Hlt |].
    rewrite <- Heq, sqrt_0 in Hrange. contradiction.
Qed.

(** X12.  [h_jac] holds the derivatives of the bearings that [h] predicts:
    for a landmark whose predicted range is not zero and whose predicted
    bearing is not pi, the entry of the returned matrix in the landmark's
    bearing row and column [k] is the partial derivative of that bearing with
    respect to entry [k] of the state. *)
Theorem h_jac_is_the_jacobian_of_the_bearing
        (self : EKFSLAM) (eta zpred : vec R) (H : mat R) (L i k : nat) :
  vlen eta = (3 + 2 * L)%nat -> vlen (sensor_offset self) = 2%nat ->
  h self eta = Ok zpred -> h_jac (sensor_offset self) eta = Ok H ->
  (i < L)%nat -> (k < 3 + 2 * L)%nat ->
  vget zpred (2 * i) <> 0 -> vget zpred (2 * i + 1) <> PI ->
  partial_derivative (fun e => value_of (vzeros 0) (h self e)) (2 * i + 1) k eta
                     (mget H (2 * i + 1) k).
Proof.
  intros Heta _ Hh HH Hi Hk Hrange Hbearing.
  destruct (h_value self eta L Heta) as (zpred' & Hok & _ & Hval).
  rewrite Hok in Hh. injection Hh as <-.
  destruct (Hval i Hi) as [Hr Hb]. rewrite Hr in Hrange. rewrite Hb in Hbearing.
  destruct (sensor_frame_derivatives self eta H L i k Heta HH Hi Hk)
    as (x' & y' & HX & HY & _ & <-).
  unfold partial_derivative.
  apply (derivable_pt_lim_eq
           (fun t => arctan2 (snd (landmark_in_sensor_frame self (set_ventry eta k t) i))
                             (fst (landmark_in_sensor_frame self (set_ventry eta k t) i)))).
  - intros t. symmetry. apply (h_value_of self (set_ventry eta k t) L i); [exact Heta | exact Hi].
  - assert (Hat : forall j, vget (set_ventry eta k (vget eta k)) j = vget eta j).
    { intros j. cbn [vget set_ventry]. destruct (Nat.eqb_spec j k) as [-> | _]; reflexivity. }
    assert (Hsame : landmark_in_sensor_frame self (set_ventry eta k (vget eta k)) i
                    = landmark_in_sensor_frame self eta i).
    { unfold landmark_in_sensor_frame. rewrite !Hat. reflexivity. }
    pose proof (derivable_pt_lim_arctan2
                  (fun t => fst (landmark_in_sensor_frame self (set_ventry eta k t) i))
                  (fun t => snd (landmark_in_sensor_frame self (set_ventry eta k t) i))
                  (vget eta k) x' y' HX HY) as Hd.
    cbv beta in Hd. rewrite Hsame in Hd. apply Hd.
    set (X := fst (landmark_in_sensor_frame self eta i)) in *.
    set (Y := snd (landmark_in_sensor_frame self eta i)) in *.
    destruct (Req_dec Y 0) as [HY0 | HY0]; [right | left; exact HY0].
    destruct (Rlt_dec 0 X) as [HX0 | HX0]; [exact HX0 | exfalso].
    rewrite HY0 in Hrange, Hbearing.
    destruct (Req_dec X 0) as [HX1 | HX1].
    + apply Hrange. rewrite HX1. replace (0 * 0 + 0 * 0) with 0 by ring. apply sqrt_0.
    + apply Hbearing. unfold arctan2.
      destruct (Rlt_dec 0 X) as [? | _]; [contradiction |].
      destruct (Rlt_dec X 0) as [_ | ?]; [| lra].
      destruct (Rle_dec 0 0) as [_ | ?]; [| lra].
      unfold Rdiv. rewrite Rmult_0_l, atan_0. ring.
Qed.
End JacobianOfH.

(** ** More on the state augmentation *)

Section NewLandmarks.
Local Open Scope R_scope.
Variables (self : EKFSLAM) (eta z : vec R).

(** The world position that the loop of [add_landmarks] gives to
    measurement [j]. *)
Lemma add_landmarks_body_position (sow sowd : vec R) (st : add_bufs) (j a : nat) :
  (a < 2)%nat ->
  vget (buf_lmnew (add_landmarks_body self eta z sow sowd st j)) (2 * j + a)
  = vget eta a
    + (cos (vget eta 2) * (vget z (2 * j) * cos (vget z (2 * j + 1)))
       - sin (vget eta 2) * (vget z (2 * j) * sin (vget z (2 * j + 1))))
      * (if (a =? 0)%nat then 1 else 0)
    + (sin (vget eta 2) * (vget z (2 * j) * cos (vget z (2 * j + 1)))
       + cos (vget eta 2) * (vget z (2 * j) * sin (vget z (2 * j + 1))))
      * (if (a =? 0)%nat then 0 else 1)
    + vget sow a.
Proof.
  intros Ha. unfold add_landmarks_body.
  cbn [buf_lmnew vget set_vslice vlen vadd vec_of_list length].
  rewrite (within_true (2 * j) 2 (2 * j + a)) by lia.
  replace (2 * j + a - 2 * j)%nat with a by lia.
  assert (Ha' : a = 0%nat \/ a = 1%nat) by lia.
  destruct Ha' as [-> | ->];
    cbn [nth vget vslice matvec rotmat2d nrows ncols mget np_sum vec_of_list length Nat.eqb
         np_mul np_add np_sub np_zero np_neg np_cos np_sin R_scalar R_trig];
    rewrite ?Nat.add_0_r; ring.
Qed.

Lemma add_landmarks_body_position_kept (sow sowd : vec R) (st : add_bufs) (j p : nat) :
  ~ (2 * j <= p < 2 * j + 2)%nat ->
  vget (buf_lmnew (add_landmarks_body self eta z sow sowd st j)) p
  = vget (buf_lmnew st) p.
Proof.
  intros Hp. unfold add_landmarks_body.
  cbn [buf_lmnew vget set_vslice vlen vadd vec_of_list length].
  rewrite (within_false (2 * j) 2 p) by lia. reflexivity.
Qed.

Lemma add_landmarks_loop_position (sow sowd : vec R) (st : add_bufs) (n j a : nat) :
  (j < n)%nat -> (a < 2)%nat ->
  vget (buf_lmnew (fold_left (add_landmarks_body self eta z sow sowd) (seq 0 n) st))
       (2 * j + a)
  = vget eta a
    + (cos (vget eta 2) * (vget z (2 * j) * cos (vget z (2 * j + 1)))
       - sin (vget eta 2) * (vget z (2 * j) * sin (vget z (2 * j + 1))))
      * (if (a =? 0)%nat then 1 else 0)
    + (sin (vget eta 2) * (vget z (2 * j) * cos (vget z (2 * j + 1)))
       + cos (vget eta 2) * (vget z (2 * j) * sin (vget z (2 * j + 1))))
      * (if (a =? 0)%nat then 0 else 1)
    + vget sow a.
Proof.
  intros Hj Ha. induction n as [| n IH]; [lia |].
  rewrite seq_S, fold_left_app. cbn [fold_left Nat.add].
  destruct (Nat.eq_dec j n) as [-> | Hne].
  - apply add_landmarks_body_position, Ha.
  - rewrite add_landmarks_body_position_kept by lia.
    apply IH. lia.
Qed.
End NewLandmarks.

Section RoundTrip.
Local Open Scope R_scope.

(** X13.  [h] undoes [add_landmarks].  On a valid state with [L] landmarks,
    [add_landmarks] with [k] measurements returns a state on which [h]
    predicts, for each new landmark, the very measurement it was made from,
    provided its range is positive and its bearing lies in (-pi, pi]; for
    the old landmarks it predicts what it predicts on the old state. *)
Theorem h_inverts_add_landmarks
        (self : EKFSLAM) (eta : vec R) (P : mat R) (z : vec R) (L k : nat) :
  valid_state eta P -> vlen eta = (3 + 2 * L)%nat ->
  vlen (sensor_offset self) = 2%nat ->
  nrows (Rcov self) = 2%nat -> symmetric (Rcov self) -> psd (Rcov self) ->
  vlen z = (2 * k)%nat ->
  exists eta' P' zpred' zpred,
    add_landmarks self eta P z = Ok (eta', P')
    /\ h self eta' = Ok zpred' /\ h self eta = Ok zpred
    /\ vlen zpred' = (2 * L + 2 * k)%nat
    /\ (forall p, (p < 2 * L)%nat -> vget zpred' p = vget zpred p)
    /\ (forall j, (j < k)%nat -> 0 < vget z (2 * j) -> - PI < vget z (2 * j + 1) <= PI ->
          vget zpred' (2 * L + 2 * j) = vget z (2 * j)
          /\ vget zpred' (2 * L + 2 * j + 1) = vget z (2 * j + 1)).
Proof.
  intros Hv Heta _ HR1 HsR HpR Hz.
  destruct (add_landmarks_returns self eta P z k Hv HR1 HsR HpR Hz)
    as (Hok & Hl & _).
  set (lmnew := buf_lmnew (add_landmarks_loop self eta z)) in *.
  assert (Heta' : vlen (vappend eta lmnew) = (3 + 2 * (L + k))%nat)
    by (cbn [vlen vappend]; lia).
  destruct (h_value self _ (L + k) Heta') as (zpred' & Hh' & Hlen' & Hval').
  destruct (h_value self eta L Heta) as (zpred & Hh & Hlen & Hval).
  exists (vappend eta lmnew), (augment_cov P (buf_Gx (add_landmarks_loop self eta z))
                                          (buf_Rall (add_landmarks_loop self eta z))),
         zpred', zpred.
  split; [exact Hok |]. split; [exact Hh' |]. split; [exact Hh |].
  split; [lia |].
  assert (Hold : forall q, (q < vlen eta)%nat -> vget (vappend eta lmnew) q = vget eta q).
  { intros q Hq. cbn [vget vappend]. apply Nat.ltb_lt in Hq. rewrite Hq. reflexivity. }
  assert (Hnew : forall q, vget (vappend eta lmnew) (3 + 2 * L + q) = vget lmnew q).
  { intros q. cbn [vget vappend].
    replace (3 + 2 * L + q <? vlen eta)%nat with false
      by (symmetry; apply Nat.ltb_ge; lia).
    f_equal. lia. }
  split.
  - intros p Hp.
    pose proof (Nat.div_mod_eq p 2) as Hd.
    pose proof (Nat.mod_upper_bound p 2 ltac:(lia)) as Hm.
    assert (Hi : (p / 2 < L)%nat) by lia.
    assert (Hi' : (p / 2 < L + k)%nat) by lia.
    destruct (Hval' (p / 2)%nat Hi') as [E0' E1'].
    destruct (Hval (p / 2)%nat Hi) as [E0 E1].
    assert (Hsame : landmark_in_sensor_frame self (vappend eta lmnew) (p / 2)
                    = landmark_in_sensor_frame self eta (p / 2)).
    { unfold landmark_in_sensor_frame.
      rewrite (Hold 0%nat), (Hold 1%nat), (Hold 2%nat), (Hold (3 + 2 * (p / 2))%nat),
        (Hold (3 + 2 * (p / 2) + 1)%nat) by lia.
      reflexivity. }
    rewrite Hsame in E0', E1'.
    assert (Hcase : (p = 2 * (p / 2) \/ p = 2 * (p / 2) + 1)%nat) by lia.
    destruct Hcase as [Hc | Hc]; rewrite Hc; congruence.
  - intros j Hj Hr Hphi.
    assert (Hi' : (L + j < L + k)%nat) by lia.
    destruct (Hval' (L + j)%nat Hi') as [E0 E1].
    replace (2 * (L + j))%nat with (2 * L + 2 * j)%nat in E0, E1 by lia.
    rewrite E0, E1.
    assert (HXY : landmark_in_sensor_frame self (vappend eta lmnew) (L + j)
                  = (vget z (2 * j) * cos (vget z (2 * j + 1)),
                     vget z (2 * j) * sin (vget z (2 * j + 1)))).
    { unfold landmark_in_sensor_frame.
      rewrite (Hold 0%nat), (Hold 1%nat), (Hold 2%nat) by lia.
      replace (3 + 2 * (L + j))%nat with (3 + 2 * L + (2 * j + 0))%nat by lia.
      replace (3 + 2 * L + (2 * j + 0) + 1)%nat with (3 + 2 * L + (2 * j + 1))%nat by lia.
      rewrite !Hnew. unfold lmnew, add_landmarks_loop.
      rewrite Hz, half_even.
      rewrite !add_landmarks_loop_position by lia.
      cbn [Nat.eqb matvec rotmat2d nrows ncols mget vget np_sum
           np_mul np_add np_sub np_zero np_neg np_cos np_sin R_scalar R_trig].
      pose proof (sin2_cos2 (vget eta 2)) as E. unfold Rsqr in E.
      set (c := cos (vget eta 2)) in *. set (s := sin (vget eta 2)) in *.
      assert (E' : c * c = 1 - s * s) by lra.
      f_equal; ring [E']. }
    rewrite HXY. cbn [fst snd].
    split.
    + replace (vget z (2 * j) * cos (vget z (2 * j + 1))
               * (vget z (2 * j) * cos (vget z (2 * j + 1)))
               + vget z (2 * j) * sin (vget z (2 * j + 1))
                 * (vget z (2 * j) * sin (vget z (2 * j + 1))))
        with ((vget z (2 * j) * vget z (2 * j))
              * ((sin (vget z (2 * j + 1)))² + (cos (vget z (2 * j + 1)))²))
        by (unfold Rsqr; ring).
      rewrite sin2_cos2, Rmult_1_r. apply sqrt_square. lra.
    + apply arctan2_of_polar; assumption.
Qed.
End RoundTrip.

Section AugmentationMore.
Local Open Scope R_scope.

(** X14.  [add_landmarks] keeps the state valid: on a valid state, with a
    symmetric positive semi-definite measurement noise and a batch of [k]
    measurements, it returns a state that is valid again, with a symmetric
    positive semi-definite covariance of the shape of its mean. *)
Theorem add_landmarks_keeps_the_state_valid
        (self : EKFSLAM) (eta : vec R) (P : mat R) (z : vec R) (k : nat) :
  valid_state eta P ->
  nrows (Rcov self) = 2%nat -> symmetric (Rcov self) -> psd (Rcov self) ->
  vlen z = (2 * k)%nat ->
  exists eta' P', add_landmarks self eta P z = Ok (eta', P') /\ valid_state eta' P'.
Proof.
  intros Hv HR1 HsR HpR Hz.
  destruct (add_landmarks_returns self eta P z k Hv HR1 HsR HpR Hz)
    as (Hok & Hl & HG1 & HG2 & HA1 & HA2 & _ & Hsym & Hpsd).
  destruct Hv as (Hlen & [Hr Hc] & _ & _).
  destruct (augment_cov_shape P (buf_Gx (add_landmarks_loop self eta z))
              (buf_Rall (add_landmarks_loop self eta z)) (vlen eta - 3) (2 * k))
    as [Er Ec]; try assumption; try lia.
  eexists _, _. split; [exact Hok |].
  split; [cbn [vlen vappend]; lia |].
  split; [| split; assumption].
  unfold shape_twice. rewrite Er, Ec. cbn [vlen vappend]. rewrite Hl. lia.
Qed.

(** X15.  A measurement array of odd length is rejected: on a state, a
    sensor offset and a measurement noise of the shapes its loop needs,
    [add_landmarks] runs the loop over the complete pairs and then fails the
    assertion on the length of the new landmarks. *)
Theorem add_landmarks_rejects_odd_measurements
        (self : EKFSLAM) (eta : vec R) (P : mat R) (z : vec R) :
  (3 <= vlen eta)%nat -> vlen (sensor_offset self) = 2%nat ->
  nrows (Rcov self) = 2%nat -> ncols (Rcov self) = 2%nat ->
  (vlen z mod 2 = 1)%nat ->
  add_landmarks self eta P z = Raise AssertionError.
Proof.
  intros _ _ _ _ Hodd. unfold add_landmarks.
  assert (Hl : vlen (buf_lmnew (add_landmarks_loop self eta z)) = vlen z).
  { unfold add_landmarks_loop.
    apply (add_landmarks_loop_inv self eta z _ _ (vlen z / 2 * 2)).
    unfold add_inv.
    cbn [buf_lmnew buf_Gx buf_Rall vempty_like vzeros mzeros vlen nrows ncols mget].
    repeat (split; [reflexivity |]).
    intros a b. destruct ((a <? 2 * 0)%nat && (b <? 2 * 0)%nat) eqn:E; [| reflexivity].
    apply andb_true_iff in E. destruct E as [E _]. apply Nat.ltb_lt in E. lia. }
  rewrite Hl, Hodd. reflexivity.
Qed.
End AugmentationMore.

Section AugmentationJacobians.
Local Open Scope R_scope.
Variables (self : EKFSLAM) (eta z : vec R).

Lemma add_landmarks_body_Gx (sow sowd : vec R) (st : add_bufs) (j a c : nat) :
  (a < 2)%nat -> (c < 3)%nat ->
  mget (buf_Gx (add_landmarks_body self eta z sow sowd st j)) (2 * j + a) c
  = if (c <? 2)%nat then (if (a =? c)%nat then 1 else 0)
    else vget z (2 * j)
         * (if (a =? 0)%nat then - sin (vget z (2 * j + 1) + vget eta 2)
            else cos (vget z (2 * j + 1) + vget eta 2))
         + vget sowd a.
Proof.
  intros Ha Hc. unfold add_landmarks_body.
  cbn [buf_Gx mget set_colslice set_block vlen vadd vscale vec_of_list length nrows ncols eye].
  rewrite (within_true (2 * j) 2 (2 * j + a)) by lia.
  replace (2 * j + a - 2 * j)%nat with a by lia.
  assert (Ha' : a = 0%nat \/ a = 1%nat) by lia.
  assert (Hc' : c = 0%nat \/ c = 1%nat \/ c = 2%nat) by lia.
  destruct Ha' as [-> | ->]; destruct Hc' as [-> | [-> | ->]];
    cbn [Nat.eqb Nat.ltb Nat.leb andb within Nat.add Nat.sub
         nth vget vslice vec_of_list length
         np_mul np_add np_sub np_zero np_one np_neg R_scalar];
    rewrite ?Nat.add_0_r; try reflexivity.
Qed.

Lemma add_landmarks_body_Gx_kept (sow sowd : vec R) (st : add_bufs) (j r c : nat) :
  ~ (2 * j <= r < 2 * j + 2)%nat ->
  mget (buf_Gx (add_landmarks_body self eta z sow sowd st j)) r c = mget (buf_Gx st) r c.
Proof.
  intros Hr. unfold add_landmarks_body.
  cbn [buf_Gx mget set_colslice set_block vlen vadd vscale vec_of_list length nrows ncols eye].
  rewrite (within_false (2 * j) 2 r) by lia. reflexivity.
Qed.

Lemma add_landmarks_loop_Gx (sow sowd : vec R) (st : add_bufs) (n j a c : nat) :
  (j < n)%nat -> (a < 2)%nat -> (c < 3)%nat ->
  mget (buf_Gx (fold_left (add_landmarks_body self eta z sow sowd) (seq 0 n) st))
       (2 * j + a) c
  = if (c <? 2)%nat then (if (a =? c)%nat then 1 else 0)
    else vget z (2 * j)
         * (if (a =? 0)%nat then - sin (vget z (2 * j + 1) + vget eta 2)
            else cos (vget z (2 * j + 1) + vget eta 2))
         + vget sowd a.
Proof.
  intros Hj Ha Hc. induction n as [| n IH]; [lia |].
  rewrite seq_S, fold_left_app. cbn [fold_left Nat.add].
  destruct (Nat.eq_dec j n) as [-> | Hne].
  - apply add_landmarks_body_Gx; assumption.
  - rewrite add_landmarks_body_Gx_kept by lia.
    apply IH. lia.
Qed.
End AugmentationJacobians.

Section AugmentationJacobianTheorems.
Local Open Scope R_scope.

Lemma cos_plus_PI2 (x : R) : cos (x + PI / 2) = - sin x.
Proof. rewrite cos_plus, cos_PI2, sin_PI2. ring. Qed.

Lemma sin_plus_PI2 (x : R) : sin (x + PI / 2) = cos x.
Proof. rewrite sin_plus, cos_PI2, sin_PI2. ring. Qed.

Lemma derivable_pt_lim_trig_val (F : R -> R) (A B C x l : R) :
  (forall t, F t = A + B * cos t + C * sin t) -> l = - B * sin x + C * cos x ->
  derivable_pt_lim F x l.
Proof. intros HF ->. apply (derivable_pt_lim_trig_at F A B C x HF). Qed.

Lemma derivable_pt_lim_affine_val (F : R -> R) (b x l : R) :
  (forall t, F t = F 0 + b * t) -> l = b -> derivable_pt_lim F x l.
Proof. intros HF ->. apply (derivable_pt_lim_affine_at F b x HF). Qed.

(** X16.  The matrix [Gx] that the loop of [add_landmarks] fills is the
    Jacobian of the new landmarks with respect to the pose: its entry in
    row [2 j + a] and column [c] is the partial derivative, with respect to
    entry [c] of the state, of coordinate [a] of the landmark made from
    measurement [j]. *)
Theorem add_landmarks_Gx_is_the_jacobian
        (self : EKFSLAM) (eta z : vec R) (k j a c : nat) :
  (3 <= vlen eta)%nat -> vlen (sensor_offset self) = 2%nat ->
  vlen z = (2 * k)%nat -> (j < k)%nat -> (a < 2)%nat -> (c < 3)%nat ->
  partial_derivative (fun e => buf_lmnew (add_landmarks_loop self e z)) (2 * j + a) c eta
                     (mget (buf_Gx (add_landmarks_loop self eta z)) (2 * j + a) c).
Proof.
  intros _ _ Hz Hj Ha Hc.
  unfold partial_derivative, add_landmarks_loop.
  rewrite Hz, half_even.
  rewrite add_landmarks_loop_Gx by assumption.
  apply (derivable_pt_lim_eq
           (fun t =>
              vget (set_ventry eta c t) a
              + (cos (vget (set_ventry eta c t) 2)
                 * (vget z (2 * j) * cos (vget z (2 * j + 1)))
                 - sin (vget (set_ventry eta c t) 2)
                   * (vget z (2 * j) * sin (vget z (2 * j + 1))))
                * (if (a =? 0)%nat then 1 else 0)
              + (sin (vget (set_ventry eta c t) 2)
                 * (vget z (2 * j) * cos (vget z (2 * j + 1)))
                 + cos (vget (set_ventry eta c t) 2)
                   * (vget z (2 * j) * sin (vget z (2 * j + 1))))
                * (if (a =? 0)%nat then 0 else 1)
              + vget (matvec (rotmat2d (vget (set_ventry eta c t) 2)) (sensor_offset self)) a)).
  - intros t. symmetry. apply add_landmarks_loop_position; assumption.
  - assert (Ha' : a = 0%nat \/ a = 1%nat) by lia.
    assert (Hc' : c = 0%nat \/ c = 1%nat \/ c = 2%nat) by lia.
    destruct Ha' as [-> | ->]; destruct Hc' as [-> | [-> | ->]];
      cbn [Nat.eqb Nat.ltb Nat.leb vget set_ventry matvec rotmat2d nrows ncols mget np_sum
           np_mul np_add np_sub np_zero np_one np_neg np_cos np_sin R_scalar R_trig].
    1, 2, 4, 5: apply derivable_pt_lim_affine_at; intros; cbv beta; ring.
    + apply (derivable_pt_lim_trig_val _ (vget eta 0)
               (vget z (2 * j) * cos (vget z (2 * j + 1)) + vget (sensor_offset self) 0)
               (- (vget z (2 * j) * sin (vget z (2 * j + 1))) - vget (sensor_offset self) 1)).
      * intros t. ring.
      * rewrite sin_plus, cos_plus_PI2, sin_plus_PI2. ring.
    + apply (derivable_pt_lim_trig_val _ (vget eta 1)
               (vget z (2 * j) * sin (vget z (2 * j + 1)) + vget (sensor_offset self) 1)
               (vget z (2 * j) * cos (vget z (2 * j + 1)) + vget (sensor_offset self) 0)).
      * intros t. ring.
      * rewrite cos_plus, cos_plus_PI2, sin_plus_PI2. ring.
Qed.

(** X17.  The matrix [Gz] that the loop of [add_landmarks] forms for
    measurement [j] is the Jacobian of the new landmark with respect to that
    measurement: its entry [(a, b)] is the partial derivative of coordinate
    [a] of the landmark with respect to the range ([b = 0]) or the bearing
    ([b = 1]) of the measurement. *)
Theorem add_landmarks_Gz_is_the_jacobian
        (self : EKFSLAM) (eta z : vec R) (k j a b : nat) :
  (3 <= vlen eta)%nat -> vlen (sensor_offset self) = 2%nat ->
  vlen z = (2 * k)%nat -> (j < k)%nat -> (a < 2)%nat -> (b < 2)%nat ->
  partial_derivative (fun z' => buf_lmnew (add_landmarks_loop self eta z'))
                     (2 * j + a) (2 * j + b) z
                     (mget (Gz_of (vget eta 2) (vget z (2 * j)) (vget z (2 * j + 1))) a b).
Proof.
  intros _ _ Hz Hj Ha Hb.
  unfold partial_derivative, add_landmarks_loop.
  cbn [vlen set_ventry]. rewrite Hz, half_even.
  apply (derivable_pt_lim_eq
           (fun t =>
              vget eta a
              + (cos (vget eta 2)
                 * (vget (set_ventry z (2 * j + b) t) (2 * j)
                    * cos (vget (set_ventry z (2 * j + b) t) (2 * j + 1)))
                 - sin (vget eta 2)
                   * (vget (set_ventry z (2 * j + b) t) (2 * j)
                      * sin (vget (set_ventry z (2 * j + b) t) (2 * j + 1))))
                * (if (a =? 0)%nat then 1 else 0)
              + (sin (vget eta 2)
                 * (vget (set_ventry z (2 * j + b) t) (2 * j)
                    * cos (vget (set_ventry z (2 * j + b) t) (2 * j + 1)))
                 + cos (vget eta 2)
                   * (vget (set_ventry z (2 * j + b) t) (2 * j)
                      * sin (vget (set_ventry z (2 * j + b) t) (2 * j + 1))))
                * (if (a =? 0)%nat then 0 else 1)
              + vget (matvec (rotmat2d (vget eta 2)) (sensor_offset self)) a)).
  - intros t. symmetry.
    apply (add_landmarks_loop_position self eta (set_ventry z (2 * j + b) t)); assumption.
  - assert (Ha' : a = 0%nat \/ a = 1%nat) by lia.
    assert (Hb' : b = 0%nat \/ b = 1%nat) by lia.
    destruct Ha' as [-> | ->]; destruct Hb' as [-> | ->];
      cbn [vget set_ventry]; rewrite ?Nat.add_0_r; eqb_decide;
      cbn [Nat.eqb Gz_of matmul set_entry eye rotmat2d nrows ncols mget np_sum
           andb np_mul np_add np_sub np_zero np_one np_neg np_cos np_sin R_scalar R_trig].
    all: set (sow := matvec (rotmat2d (vget eta 2)) (sensor_offset self)).
    + apply (derivable_pt_lim_affine_val _
               (cos (vget eta 2) * cos (vget z (2 * j + 1))
                - sin (vget eta 2) * sin (vget z (2 * j + 1)))).
      * intros t. ring.
      * rewrite cos_plus. ring.
    + apply (derivable_pt_lim_trig_val _ (vget eta 0 + vget sow 0)
               (vget z (2 * j) * cos (vget eta 2)) (- (vget z (2 * j) * sin (vget eta 2)))).
      * intros t. ring.
      * rewrite sin_plus. ring.
    + apply (derivable_pt_lim_affine_val _
               (sin (vget eta 2) * cos (vget z (2 * j + 1))
                + cos (vget eta 2) * sin (vget z (2 * j + 1)))).
      * intros t. ring.
      * rewrite sin_plus. ring.
    + apply (derivable_pt_lim_trig_val _ (vget eta 1 + vget sow 1)
               (vget z (2 * j) * sin (vget eta 2)) (vget z (2 * j) * cos (vget eta 2))).
      * intros t. ring.
      * rewrite cos_plus. ring.
Qed.
End AugmentationJacobianTheorems.

Section NewCovariance.
Local Open Scope R_scope.
Local Open Scope mat_scope.

(** X18.  The covariance of the new landmarks.  In the state that
    [add_landmarks] returns, the block of two new landmarks [j] and [j'] is
    the corresponding block of [Gx P_rr Gx^T], plus [Gz R Gz^T] of the
    measurement when [j = j']; the block between the old state and a new
    landmark is that of [P[:, 0:3] Gx^T], and its mirror image is its exact
    transpose. *)
Theorem add_landmarks_new_covariance
        (self : EKFSLAM) (eta : vec R) (P : mat R) (z : vec R) (k : nat) :
  valid_state eta P ->
  nrows (Rcov self) = 2%nat -> symmetric (Rcov self) -> psd (Rcov self) ->
  vlen z = (2 * k)%nat ->
  exists eta' P',
    add_landmarks self eta P z = Ok (eta', P')
    /\ (forall j j' r s, (j < k)%nat -> (j' < k)%nat -> (r < 2)%nat -> (s < 2)%nat ->
          mget P' (vlen eta + 2 * j + r) (vlen eta + 2 * j' + s)
          = (mget (buf_Gx (add_landmarks_loop self eta z) @ mslice P 0 3 0 3
                   @ transpose (buf_Gx (add_landmarks_loop self eta z)))
                  (2 * j + r) (2 * j' + s)
             + (if (j =? j')%nat then mget (landmark_noise self eta z j) r s else 0))%R)
    /\ (forall i j r, (i < vlen eta)%nat -> (j < k)%nat -> (r < 2)%nat ->
          mget P' i (vlen eta + 2 * j + r)
          = mget (mslice P 0 (nrows P) 0 3
                  @ transpose (buf_Gx (add_landmarks_loop self eta z))) i (2 * j + r)
          /\ mget P' (vlen eta + 2 * j + r) i = mget P' i (vlen eta + 2 * j + r)).
Proof.
  intros Hv HR1 HsR HpR Hz.
  destruct (add_landmarks_returns self eta P z k Hv HR1 HsR HpR Hz)
    as (Hok & Hl & HG1 & HG2 & HA1 & HA2 & Hcl & _ & _).
  destruct Hv as (Hlen & [Hr Hc] & _ & _).
  set (st := add_landmarks_loop self eta z) in *.
  set (m := (vlen eta - 3)%nat).
  assert (HP1 : nrows P = (3 + m)%nat) by (unfold m; lia).
  assert (HP2 : ncols P = (3 + m)%nat) by (unfold m; lia).
  assert (Hn : vlen eta = (3 + m)%nat) by (unfold m; lia).
  eexists _, _. split; [exact Hok |]. split.
  - intros j j' r s Hj Hj' Hr' Hs'.
    rewrite Hn.
    replace (3 + m + 2 * j + r)%nat with (3 + m + (2 * j + r))%nat by lia.
    replace (3 + m + 2 * j' + s)%nat with (3 + m + (2 * j' + s))%nat by lia.
    rewrite (augment_cov_br P _ _ m (2 * k)) by (assumption || lia).
    rewrite Hcl by lia.
    f_equal.
    + cbn [mget madd matmul mslice transpose nrows ncols].
      rewrite ?HP1, ?HP2, ?HG2, !Nat.sub_0_r.
      replace (Nat.min 3 (3 + m)) with 3%nat by lia.
      reflexivity.
    + unfold Rall_closed.
      replace ((2 * j + r) / 2)%nat with j
        by (symmetry; rewrite Nat.mul_comm; rewrite Nat.div_add_l by lia;
            rewrite (Nat.div_small r 2) by lia; lia).
      replace ((2 * j' + s) / 2)%nat with j'
        by (symmetry; rewrite Nat.mul_comm; rewrite Nat.div_add_l by lia;
            rewrite (Nat.div_small s 2) by lia; lia).
      replace ((2 * j + r) mod 2)%nat with r
        by (symmetry; rewrite Nat.add_comm, Nat.mul_comm, Nat.Div0.mod_add;
            apply Nat.mod_small; lia).
      replace ((2 * j' + s) mod 2)%nat with s
        by (symmetry; rewrite Nat.add_comm, Nat.mul_comm, Nat.Div0.mod_add;
            apply Nat.mod_small; lia).
      reflexivity.
  - intros i j r Hi Hj Hr'.
    rewrite Hn.
    replace (3 + m + 2 * j + r)%nat with (3 + m + (2 * j + r))%nat by lia.
    rewrite (augment_cov_tr P _ _ m (2 * k)) by (assumption || lia).
    rewrite (augment_cov_bl P _ _ m (2 * k)) by (assumption || lia).
    split; [| reflexivity].
    cbn [mget madd matmul mslice transpose nrows ncols].
    rewrite ?HP1, ?HP2, ?HG2, !Nat.sub_0_r.
    replace (Nat.min 3 (3 + m)) with 3%nat by lia.
    reflexivity.
Qed.
End NewCovariance.

(** ** More on the association and the correction *)

Section PairedMasks.

Lemma filter_pairs (g : nat -> bool) (n : nat) :
  filter (fun p => g (p / 2)%nat) (seq 0 (2 * n))
  = flat_map (fun i => [2 * i; 2 * i + 1]%nat) (filter g (seq 0 n)).
Proof.
  induction n as [| n IH]; [reflexivity |].
  replace (2 * S n)%nat with (S (S (2 * n))) by lia.
  rewrite !seq_S, !filter_app, flat_map_app, IH. cbn [Nat.add].
  rewrite <- app_assoc. f_equal.
  cbn [filter app].
  replace (S (2 * n)) with (2 * n + 1)%nat by lia.
  rewrite half_even, half_odd.
  destruct (g n); reflexivity.
Qed.

Lemma length_flat_pairs (l : list nat) :
  length (flat_map (fun i => [2 * i; 2 * i + 1]%nat) l) = (2 * length l)%nat.
Proof. induction l as [| x l IH]; cbn [flat_map length app]; lia. Qed.

Lemma nth_flat_pairs (l : list nat) (t c : nat) :
  (t < length l)%nat -> (c < 2)%nat ->
  nth (2 * t + c) (flat_map (fun i => [2 * i; 2 * i + 1]%nat) l) 0%nat
  = (2 * nth t l 0 + c)%nat.
Proof.
  revert t. induction l as [| x l IH]; intros t Ht Hc; cbn [length] in Ht; [lia |].
  cbn [flat_map app].
  destruct t as [| t].
  - assert (Hc' : c = 0%nat \/ c = 1%nat) by lia.
    destruct Hc' as [-> | ->]; cbn [Nat.mul Nat.add nth]; lia.
  - replace (2 * S t + c)%nat with (S (S (2 * t + c))) by lia.
    cbn [nth]. apply IH; lia.
Qed.

Lemma mask_indices_pair_mask (z : vec R) (b : vec bool) :
  vlen z = (2 * vlen b)%nat ->
  mask_indices (pair_mask z b)
  = flat_map (fun i => [2 * i; 2 * i + 1]%nat) (mask_indices b).
Proof.
  intros Hz. unfold mask_indices. cbn [vlen pair_mask vget]. rewrite Hz.
  apply filter_pairs.
Qed.
End PairedMasks.

Section AssociationFacts.
Variable JCBB : vec R -> vec R -> mat R -> R -> R -> vec Z.
Local Open Scope R_scope.

Lemma nth_map_seq {A : Type} (g : nat -> A) (n p : nat) (d : A) :
  (p < n)%nat -> nth p (map g (seq 0 n)) d = g p.
Proof.
  intros Hp. rewrite (nth_indep _ d (g 0%nat)) by (rewrite length_map, length_seq; exact Hp).
  rewrite map_nth, seq_nth by exact Hp. reflexivity.
Qed.

Lemma div2_pair (t c : nat) : (c < 2)%nat -> ((2 * t + c) / 2 = t)%nat.
Proof.
  intros Hc. rewrite Nat.mul_comm, Nat.div_add_l by lia.
  rewrite (Nat.div_small c 2) by lia. lia.
Qed.

Lemma mod2_pair (t c : nat) : (c < 2)%nat -> ((2 * t + c) mod 2 = c)%nat.
Proof.
  intros Hc. rewrite Nat.add_comm, Nat.mul_comm, Nat.Div0.mod_add.
  apply Nat.mod_small. exact Hc.
Qed.

(** X19.  What [associate] extracts.  With association on, for an
    association vector [a] with one entry per measurement and every matched
    landmark in the map, [associate] returns the measurements that have a
    match, in their order, and beside each the prediction, the rows of [H]
    and the rows and columns of [S] of the landmark it is matched with. *)
Theorem associate_pairs_measurements_with_landmarks
        (self : EKFSLAM) (z zpred : vec R) (H S : mat R) (a : vec Z) (L : nat) :
  do_asso self = true ->
  JCBB z zpred S (vget (alphas self) 0) (vget (alphas self) 1) = a ->
  vlen z = (2 * vlen a)%nat ->
  vlen zpred = (2 * L)%nat -> nrows H = (2 * L)%nat ->
  nrows S = (2 * L)%nat -> ncols S = (2 * L)%nat ->
  (forall i, (i < vlen a)%nat -> (vget a i < Z.of_nat L)%Z) ->
  let matches := mask_indices (gt_m1 a) in
  exists zass zpredass Hass Sass,
    associate JCBB self z zpred H S = Ok (Some (zass, zpredass, Hass, Sass, a))
    /\ (forall i, In i matches <-> (i < vlen a)%nat /\ (-1 < vget a i)%Z)
    /\ vlen zass = (2 * length matches)%nat
    /\ vlen zpredass = (2 * length matches)%nat
    /\ nrows Hass = (2 * length matches)%nat /\ ncols Hass = ncols H
    /\ nrows Sass = (2 * length matches)%nat /\ ncols Sass = (2 * length matches)%nat
    /\ forall t c, (t < length matches)%nat -> (c < 2)%nat ->
         let l := Z.to_nat (vget a (nth t matches 0%nat)) in
         (l < L)%nat
         /\ vget zass (2 * t + c) = vget z (2 * nth t matches 0%nat + c)
         /\ vget zpredass (2 * t + c) = vget zpred (2 * l + c)
         /\ (forall q, mget Hass (2 * t + c) q = mget H (2 * l + c) q)
         /\ (forall t' c', (t' < length matches)%nat -> (c' < 2)%nat ->
               mget Sass (2 * t + c) (2 * t' + c')
               = mget S (2 * l + c)
                        (2 * Z.to_nat (vget a (nth t' matches 0%nat)) + c')).
Proof.
  intros Hdo Ha Hz Hzp HH HS1 HS2 Hin matches.
  unfold associate. rewrite Hdo, Ha.
  assert (Hidx : mask_indices (pair_mask z (gt_m1 a))
                 = flat_map (fun i => [2 * i; 2 * i + 1]%nat) matches).
  { apply mask_indices_pair_mask. exact Hz. }
  assert (Hlen : vlen (vmask z (pair_mask z (gt_m1 a))) = (2 * length matches)%nat).
  { unfold vmask. cbn [vlen vtake]. rewrite Hidx. apply length_flat_pairs. }
  cbn [vlen vtake nrows ncols mtake_rows mtake_cols].
  rewrite !length_map, !length_seq, !Nat.eqb_refl.
  cbn [andb assertb bind].
  eexists _, _, _, _. split; [reflexivity |].
  assert (Hmatch : forall i, In i matches <-> (i < vlen a)%nat /\ (-1 < vget a i)%Z).
  { intros i. unfold matches, mask_indices. rewrite filter_In, in_seq.
    cbn [vlen vget gt_m1]. rewrite Z.ltb_lt. split; intros [H1 H2]; split; (lia || assumption). }
  split; [exact Hmatch |].
  split; [exact Hlen |].
  cbn [vlen vtake nrows ncols mtake_rows mtake_cols].
  rewrite !length_map, !length_seq.
  repeat (split; [exact Hlen || reflexivity |]).
  intros t c Ht Hc.
  set (l := Z.to_nat (vget a (nth t matches 0%nat))).
  assert (Hnth : In (nth t matches 0%nat) matches) by (apply nth_In; exact Ht).
  apply Hmatch in Hnth. destruct Hnth as [Hi1 Hi2].
  assert (Hl : (l < L)%nat).
  { unfold l. specialize (Hin _ Hi1). lia. }
  split; [exact Hl |].
  assert (Hbar : forall t0 c0, (t0 < length matches)%nat -> (c0 < 2)%nat ->
            nth (2 * t0 + c0)
              (map (fun p => if (p mod 2 =? 0)%nat
                             then (2 * nth (p / 2)
                                     (map (fun i => Z.to_nat (vget a i)) matches) 0)%nat
                             else (2 * nth (p / 2)
                                     (map (fun i => Z.to_nat (vget a i)) matches) 0 + 1)%nat)
                   (seq 0 (vlen (vmask z (pair_mask z (gt_m1 a)))))) 0%nat
            = (2 * Z.to_nat (vget a (nth t0 matches 0%nat)) + c0)%nat).
  { intros t0 c0 Ht0 Hc0.
    rewrite nth_map_seq by (rewrite Hlen; lia).
    rewrite div2_pair, mod2_pair by exact Hc0.
    rewrite (nth_indep _ 0%nat (Z.to_nat (vget a 0%nat)))
      by (rewrite length_map; exact Ht0).
    rewrite (map_nth (fun i => Z.to_nat (vget a i))).
    assert (Hc0' : c0 = 0%nat \/ c0 = 1%nat) by lia.
    destruct Hc0' as [-> | ->]; cbn [Nat.eqb]; lia. }
  split; [| split; [| split]].
  - unfold vmask. cbn [vget vtake]. rewrite Hidx.
    rewrite nth_flat_pairs by assumption. reflexivity.
  - cbn [vget vtake]. rewrite Hbar by assumption. reflexivity.
  - intros q. cbn [mget mtake_rows]. rewrite Hbar by assumption. reflexivity.
  - intros t' c' Ht' Hc'. cbn [mget mtake_rows mtake_cols].
    rewrite !Hbar by assumption. reflexivity.
Qed.
End AssociationFacts.

Section UnmatchedMeasurements.
Variable JCBB : vec R -> vec R -> mat R -> R -> R -> vec Z.
Variable cho_factor : mat R -> result (mat R * bool).
Variable cho_solve : mat R * bool -> mat R -> mat R.
Local Open Scope R_scope.
Local Open Scope mat_scope.

Lemma filter_none {A : Type} (g : A -> bool) (l : list A) :
  (forall x, In x l -> g x = false) -> filter g l = [].
Proof.
  induction l as [| x l IH]; intros H; [reflexivity |].
  cbn [filter]. rewrite H by (left; reflexivity).
  apply IH. intros y Hy. apply H. right. exact Hy.
Qed.

Lemma np_any_all_true (b : vec bool) :
  (forall i, (i < vlen b)%nat -> vget b i = true) -> np_any b = (0 <? vlen b)%nat.
Proof.
  intros Hb. unfold np_any. destruct (vlen b) as [| n]; [reflexivity |].
  cbn [seq existsb]. rewrite Hb by lia. reflexivity.
Qed.

Lemma associate_none (self : EKFSLAM) (z zpred : vec R) (H S : mat R) (a : vec Z) :
  do_asso self = true ->
  JCBB z zpred S (vget (alphas self) 0) (vget (alphas self) 1) = a ->
  vlen z = (2 * vlen a)%nat ->
  (forall i, (i < vlen a)%nat -> vget a i = (-1)%Z) ->
  exists za zp Ha Sa,
    associate JCBB self z zpred H S = Ok (Some (za, zp, Ha, Sa, a)) /\ vlen za = 0%nat.
Proof.
  intros Hdo Ha Hz Hall. unfold associate. rewrite Hdo, Ha.
  assert (Hnone : mask_indices (gt_m1 a) = []).
  { unfold mask_indices. apply filter_none. intros i Hi. apply in_seq in Hi.
    cbn [vlen vget gt_m1] in *. rewrite Hall by lia. reflexivity. }
  assert (Hidx : mask_indices (pair_mask z (gt_m1 a)) = []).
  { rewrite mask_indices_pair_mask by exact Hz. rewrite Hnone. reflexivity. }
  unfold vmask. rewrite Hidx, Hnone.
  cbn [vlen vtake length seq map nrows ncols mtake_rows mtake_cols Nat.eqb andb assertb bind].
  eexists _, _, _, _. split; reflexivity.
Qed.

(** X20.  When no measurement is matched.  On a valid state with landmarks,
    with association on and an association vector that holds -1 for every
    detection, [update] makes no correction: it returns NIS 1 and the
    association vector, and the state it returns is what [add_landmarks]
    makes of the input state and all the measurements (the input state
    itself when there is no detection), so that the old part of the state
    is that of the input. *)
Theorem update_without_matches
        (self : EKFSLAM) (eta : vec R) (P : mat R) (z : mat R)
        (zpred : vec R) (H : mat R) (a : vec Z) (L : nat) :
  valid_state eta P -> vlen eta = (3 + 2 * L)%nat -> (0 < L)%nat ->
  vlen (sensor_offset self) = 2%nat ->
  nrows (Rcov self) = 2%nat -> symmetric (Rcov self) -> psd (Rcov self) ->
  ncols z = 2%nat -> do_asso self = true ->
  h self eta = Ok zpred -> h_jac (sensor_offset self) eta = Ok H ->
  JCBB (ravel z) zpred (madd (H @ P @ transpose H) (kron (eye L L) (Rcov self)))
       (vget (alphas self) 0) (vget (alphas self) 1) = a ->
  vlen a = nrows z -> (forall i, (i < nrows z)%nat -> vget a i = (-1)%Z) ->
  exists eta' P',
    update JCBB cho_factor cho_solve self eta P z = Ok (eta', P', 1%R, a)
    /\ (if (0 <? nrows z)%nat
        then add_landmarks self eta P
               (vmask (ravel z) (pair_mask (ravel z) (eq_m1 a))) = Ok (eta', P')
             /\ vlen (vmask (ravel z) (pair_mask (ravel z) (eq_m1 a))) = (2 * nrows z)%nat
             /\ (forall p, (p < 2 * nrows z)%nat ->
                   vget (vmask (ravel z) (pair_mask (ravel z) (eq_m1 a))) p
                   = vget (ravel z) p)
        else eta' = eta /\ P' = P)
    /\ (forall i, (i < vlen eta)%nat -> vget eta' i = vget eta i)
    /\ (forall i j, (i < vlen eta)%nat -> (j < vlen eta)%nat -> mget P' i j = mget P i j).
Proof.
  intros Hv Heta HL _ HR1 HsR HpR Hz Hdo Hh HH Ha Hla Hall.
  assert (HR2 : ncols (Rcov self) = 2%nat) by (destruct HsR as [E _]; lia).
  destruct (h_returns self eta L Heta) as (zpred' & Hh' & Hzl).
  rewrite Hh in Hh'. injection Hh' as <-.
  destruct (h_jac_returns (sensor_offset self) eta L Heta) as (st & HH' & Hinv).
  rewrite HH in HH'. injection HH' as ->.
  destruct Hinv as (HrH & HcH & _).
  unfold update.
  rewrite Heta.
  replace (Z.of_nat (3 + 2 * L) - 3)%Z with (Z.of_nat L * 2)%Z by lia.
  rewrite Z.mod_mul, Z.div_mul by lia.
  cbn [Z.eqb assertb bind].
  replace (0 <? Z.of_nat L)%Z with true by (symmetry; apply Z.ltb_lt; lia).
  rewrite Hh, HH. cbn [bind]. rewrite Nat2Z.id.
  set (S := madd (buf_H st @ P @ transpose (buf_H st)) (kron (eye L L) (Rcov self))) in *.
  assert (HS : ((nrows S =? vlen zpred)%nat && (ncols S =? vlen zpred)%nat) = true).
  { unfold S. cbn [nrows ncols madd matmul transpose]. rewrite HrH, Hzl, Nat.eqb_refl.
    reflexivity. }
  rewrite HS. cbn [assertb bind].
  assert (Hzr : vlen (ravel z) = (2 * vlen a)%nat) by (cbn [vlen ravel]; lia).
  destruct (associate_none self (ravel z) zpred (buf_H st) S a Hdo Ha Hzr)
    as (za & zp & Ha' & Sa & Hasso & Hza); [intros i Hi; apply Hall; lia |].
  rewrite Hasso. cbn [bind unpack5]. rewrite Hza. cbn [Nat.eqb bind].
  rewrite Hdo.
  assert (Hnew : forall i, (i < vlen (eq_m1 a))%nat -> vget (eq_m1 a) i = true).
  { intros i Hi. cbn [vlen vget eq_m1] in *. rewrite Hall by lia. reflexivity. }
  rewrite np_any_all_true by exact Hnew.
  change (vlen (eq_m1 a)) with (vlen a). rewrite Hla.
  destruct Hv as (Hl3 & [Hr Hc] & HsP & HpP).
  destruct (0 <? nrows z)%nat eqn:Hn.
  - set (z_new := vmask (ravel z) (pair_mask (ravel z) (eq_m1 a))).
    assert (Hidx : mask_indices (pair_mask (ravel z) (eq_m1 a)) = seq 0 (2 * nrows z)).
    { unfold mask_indices. cbn [vlen pair_mask ravel]. rewrite Hz.
      replace (nrows z * 2)%nat with (2 * nrows z)%nat by lia.
      apply filter_all. intros p Hp. apply in_seq in Hp.
      cbn [vget]. apply Hnew. cbn [vlen eq_m1]. rewrite Hla.
      pose proof (Nat.div_mod_eq p 2). pose proof (Nat.mod_upper_bound p 2 ltac:(lia)). lia. }
    assert (Hzn : vlen z_new = (2 * nrows z)%nat).
    { unfold z_new, vmask. cbn [vlen vtake]. rewrite Hidx. apply length_seq. }
    destruct (add_landmarks_returns self eta P z_new (nrows z)) as
        (Hok & Hlm & HG1 & HG2 & HA1 & HA2 & _ & Hsym & Hpsd);
      [exact (conj Hl3 (conj (conj Hr Hc) (conj HsP HpP))) | assumption .. |].
    set (st' := add_landmarks_loop self eta z_new) in *.
    exists (vappend eta (buf_lmnew st')), (augment_cov P (buf_Gx st') (buf_Rall st')).
    split.
    { rewrite Hok. cbn [bind].
      rewrite (assert_true (allclose _ _)) by (apply symmetric_allclose, Hsym).
      cbn [bind].
      rewrite (assert_true (eigvals_ge0 _))
        by (apply psd_eigvals_ge0; [apply Hsym | exact Hpsd]).
      reflexivity. }
    split; [split; [exact Hok | split; [exact Hzn |]] |].
    { intros p Hp. unfold z_new, vmask. cbn [vget vtake]. rewrite Hidx.
      rewrite seq_nth by exact Hp. reflexivity. }
    split.
    + intros i Hi. cbn [vget vappend].
      replace (i <? vlen eta)%nat with true by (symmetry; apply Nat.ltb_lt; lia).
      reflexivity.
    + intros i j Hi Hj.
      apply (augment_cov_tl P _ _ (2 * L) (2 * nrows z)); lia.
  - exists eta, P. cbn [bind].
    rewrite (assert_true (allclose _ _)) by (apply symmetric_allclose, HsP).
    cbn [bind].
    rewrite (assert_true (eigvals_ge0 _))
      by (apply psd_eigvals_ge0; [apply HsP | exact HpP]).
    repeat split; intros; reflexivity.
Qed.
End UnmatchedMeasurements.

(** ** More on the consistency metrics *)

Section ConsistencyMetricsMore.
Variable wrapToPi64 : float -> float.
Variable solve : mat float -> vec float -> result (vec float).

Lemma assertb_bind_inv {A : Type} (c : bool) (k : unit -> result A) (r : A) :
  bind (assertb c) k = Ok r -> c = true /\ k tt = Ok r.
Proof. destruct c; cbn; [auto | discriminate]. Qed.

Lemma float64_ge0_not_nan (x : float) :
  PrimFloat.leb 0%float x = true -> PrimFloat.is_nan x = false.
Proof.
  unfold PrimFloat.is_nan. rewrite leb_spec, FloatAxioms.eqb_spec.
  change (Prim2SF 0%float) with (S754_zero false).
  destruct (Prim2SF x) as [s | s | | s m e]; cbn.
  - reflexivity.
  - destruct s; reflexivity.
  - discriminate.
  - destruct s; [discriminate |]. intros _.
    unfold SFeqb. cbn. rewrite Z.compare_refl, Pos.compare_cont_refl. reflexivity.
Qed.

(** X21.  What [NEESes] never returns.  Whenever [NEESes] returns, it
    returns three numbers, for the whole pose, the position and the heading,
    none of which is negative and none of which is a NaN; in every other
    case it raises. *)
Theorem NEESes_returns_three_nonnegative_numbers
        (x : vec float) (P : mat float) (x_gt v : vec float) :
  NEESes wrapToPi64 solve x P x_gt = Ok v ->
  vlen v = 3%nat
  /\ forall i, (i < 3)%nat ->
       PrimFloat.leb 0%float (vget v i) = true /\ PrimFloat.is_nan (vget v i) = false.
Proof.
  unfold NEESes. intros H.
  apply assertb_bind_inv in H. destruct H as [_ H].
  apply assertb_bind_inv in H. destruct H as [_ H].
  apply assertb_bind_inv in H. destruct H as [_ H].
  apply assertb_bind_inv in H. destruct H as [_ H].
  apply assertb_bind_inv in H. destruct H as [_ H].
  destruct (solve P _) as [s_all | e]; [| discriminate].
  cbn [bind] in H.
  destruct (solve (mslice P 0 2 0 2) _) as [s_pos | e]; [| discriminate].
  cbn [bind float64_truediv try_except] in H.
  apply assertb_bind_inv in H. destruct H as [Hge H].
  injection H as <-.
  split; [reflexivity |].
  intros i Hi.
  unfold all_ge0 in Hge. rewrite forallb_forall in Hge.
  assert (Hle := Hge i).
  match type of Hle with
  | ?A -> _ =>
      assert (Hin : A)
        by (apply in_seq; cbn [vlen replace_nan vec_of_list length]; lia)
  end.
  specialize (Hle Hin).
  split; [exact Hle | apply float64_ge0_not_nan, Hle].
Qed.
End ConsistencyMetricsMore.

(** ** More instances *)

Section MoreInstances.
Local Open Scope R_scope.

Lemma qform_eye (n : nat) (w : nat -> R) :
  qform (eye n n) w = np_sum n (fun i => w i * w i).
Proof.
  unfold qform. cbn [nrows ncols eye mget np_one np_zero R_scalar].
  apply np_sum_ext. intros i Hi.
  rewrite <- (np_sum_delta n i (fun j => w i * w j) Hi).
  apply np_sum_ext. intros j _.
  destruct (i =? j)%nat; ring.
Qed.

Lemma eye_psd (n : nat) : psd (eye (T := R) n n).
Proof.
  intros w. rewrite qform_eye. apply np_sum_ge0. intros i _. nra.
Qed.

Lemma eye_pd (n : nat) : pd (eye (T := R) n n).
Proof.
  intros w Hw. rewrite qform_eye. apply np_sum_squares_pos. exact Hw.
Qed.

Lemma eye_valid_state (eta : vec R) :
  (3 <= vlen eta)%nat -> valid_state eta (eye (vlen eta) (vlen eta)).
Proof.
  intros Hlen. split; [exact Hlen |]. split; [split; reflexivity |].
  split; [apply eye_symmetric | apply eye_psd].
Qed.

(** [predict] returns on a valid state with a positive definite covariance. *)
Lemma predict_returns (self : EKFSLAM) (eta : vec R) (P : mat R) (z_odo : vec R) :
  valid_state eta P -> pd P ->
  nrows (Qcov self) = 3%nat -> symmetric (Qcov self) -> psd (Qcov self) ->
  exists eta' P', predict self eta P z_odo = Ok (eta', P').
Proof.
  intros (Hlen & [Hr Hc] & HsP & HpP) Hpd HQ1 HsQ HpQ.
  assert (HQ2 : ncols (Qcov self) = 3%nat) by (destruct HsQ as [E _]; lia).
  set (m := (vlen eta - 3)%nat).
  assert (HP1 : nrows P = (3 + m)%nat) by (unfold m; lia).
  assert (HP2 : ncols P = (3 + m)%nat) by (unfold m; lia).
  set (P' := predict_cov (Qcov self) (Fx (vslice eta 0 3) z_odo)
                         (Fu (vslice eta 0 3) z_odo) P).
  assert (Hsym : symmetric P') by (apply (predict_cov_symmetric _ _ _ _ m); auto).
  assert (Hpd' : pd P').
  { apply (predict_cov_pd _ _ _ _ m); auto. }
  unfold predict.
  rewrite (assert_true (allclose P (transpose P))) by (apply symmetric_allclose, HsP).
  rewrite (assert_true (eigvals_ge0 P))
    by (apply psd_eigvals_ge0; [apply HsP | exact HpP]).
  rewrite (assert_true (shape_twice eta P)) by (split; assumption).
  cbn [bind]. fold P'.
  rewrite (assert_true (allclose P' (transpose P'))) by (apply symmetric_allclose, Hsym).
  rewrite (assert_true (eigvals_gt0 P'))
    by (apply pd_eigvals_gt0; [apply Hsym | exact Hpd']).
  cbn [bind].
  rewrite assert_true.
  - cbn [bind]. eexists _, _. reflexivity.
  - destruct (predict_cov_shape (Qcov self) (Fx (vslice eta 0 3) z_odo)
                (Fu (vslice eta 0 3) z_odo) P m HP1 HP2) as [E1 E2].
    unfold shape_twice. fold P' in E1, E2. rewrite E1, E2.
    cbn [vlen set_vslice vempty_like vzeros]. unfold m. lia.
Qed.

Lemma f_zero_odometry_witness :
  vget (f (vec_of_list 0 [1; 2; 0]) (vec_of_list 0 [0; 0; 0])) 1
  = vget (vec_of_list 0 [1; 2; 0]) 1.
Proof.
  apply f_zero_odometry; [reflexivity | reflexivity | reflexivity | | lia].
  cbn. pose proof PI_RGT_0. lra.
Defined.

Lemma Fu_orthonormal_witness :
  let x := vec_of_list 0 [1; 2; 3] in
  let u := vec_of_list 0 [1; 0; 0] in
  mget (Fu x u @ transpose (Fu x u))%mat 0 1 = mget (eye 3 3) 0 1.
Proof. cbv zeta. apply Fu_orthonormal; lia. Defined.

Lemma Fu_jacobian_of_f_but_one_witness :
  let x := vec_of_list 0 [1; 2; 3] in
  let u := vec_of_list 0 [1; 0; 0] in
  (1 < 3)%nat /\ partial_derivative (f x) 1 0 u (mget (Fu x u) 1 0).
Proof.
  cbv zeta. split; [lia |].
  apply Fu_jacobian_of_f_but_one; [lia | lia | intros [_ E]; discriminate E |].
  intros E. discriminate E.
Defined.

Lemma Fx_jacobian_of_f_but_one_witness :
  let x := vec_of_list 0 [1; 2; 3] in
  let u := vec_of_list 0 [1; 0; 0] in
  (0 < 3)%nat /\ partial_derivative (fun x' => f x' u) 0 2 x (mget (Fx x u) 0 2).
Proof.
  cbv zeta. split; [lia |].
  apply Fx_jacobian_of_f_but_one; [lia | lia | intros [E _]; discriminate E |].
  intros E. discriminate E.
Defined.

Lemma predict_frame_witness :
  let self := mkEKFSLAM (eye 3 3) (eye 2 2) true
                        (vec_of_list 0 [0.001; 0.0001]) (vec_of_list 0 [0; 0]) in
  let eta := vec_of_list 0 [0; 0; 0; 1; 0] in
  let z_odo := vec_of_list 0 [1; 0; 0] in
  exists eta' P',
    predict self eta (eye 5 5) z_odo = Ok (eta', P')
    /\ vlen eta' = vlen eta
    /\ nrows P' = 5%nat /\ ncols P' = 5%nat
    /\ (forall i, (i < 3)%nat -> vget eta' i = vget (f (vslice eta 0 3) z_odo) i)
    /\ (forall i, (3 <= i < vlen eta)%nat -> vget eta' i = vget eta i)
    /\ (forall i j, (3 <= i < vlen eta)%nat -> (3 <= j < vlen eta)%nat ->
          mget P' i j = mget (eye 5 5) i j).
Proof.
  cbv zeta.
  destruct (predict_returns
              (mkEKFSLAM (eye 3 3) (eye 2 2) true
                         (vec_of_list 0 [0.001; 0.0001]) (vec_of_list 0 [0; 0]))
              (vec_of_list 0 [0; 0; 0; 1; 0]) (eye 5 5) (vec_of_list 0 [1; 0; 0]))
    as (eta' & P' & Hok);
    [apply (eye_valid_state (vec_of_list 0 [0; 0; 0; 1; 0])); cbn; lia
    | apply eye_pd | reflexivity | apply eye_symmetric | apply eye3_psd |].
  exists eta', P'. split; [exact Hok |].
  apply (predict_frame _ _ _ _ _ _ Hok); [cbn; lia | reflexivity | reflexivity].
Defined.

Lemma predict_zero_displacement_witness :
  let self := mkEKFSLAM (eye 3 3) (eye 2 2) true
                        (vec_of_list 0 [0.001; 0.0001]) (vec_of_list 0 [0; 0]) in
  let eta := vec_of_list 0 [0; 0; 0; 1; 0] in
  let z_odo := vec_of_list 0 [0; 0; 1] in
  exists eta' P',
    predict self eta (eye 5 5) z_odo = Ok (eta', P')
    /\ (forall i j, (i < vlen eta)%nat -> (j < vlen eta)%nat ->
          (3 <= i)%nat \/ (3 <= j)%nat -> mget P' i j = mget (eye 5 5) i j)
    /\ (forall i j, (i < 3)%nat -> (j < 3)%nat ->
          mget P' i j
          = mget (eye 5 5) i j
            + mget (Fu (vslice eta 0 3) z_odo @ Qcov self
                    @ transpose (Fu (vslice eta 0 3) z_odo))%mat i j).
Proof.
  cbv zeta.
  destruct (predict_returns
              (mkEKFSLAM (eye 3 3) (eye 2 2) true
                         (vec_of_list 0 [0.001; 0.0001]) (vec_of_list 0 [0; 0]))
              (vec_of_list 0 [0; 0; 0; 1; 0]) (eye 5 5) (vec_of_list 0 [0; 0; 1]))
    as (eta' & P' & Hok);
    [apply (eye_valid_state (vec_of_list 0 [0; 0; 0; 1; 0])); cbn; lia
    | apply eye_pd | reflexivity | apply eye_symmetric | apply eye3_psd |].
  exists eta', P'. split; [exact Hok |].
  apply (predict_zero_displacement _ _ _ _ _ _ Hok);
    [cbn; lia | reflexivity | reflexivity | reflexivity | reflexivity].
Defined.

Lemma h_polar_coordinates_witness :
  let self := mkEKFSLAM (eye 3 3) (eye 2 2) true
                        (vec_of_list 0 [0.001; 0.0001]) (vec_of_list 0 [0; 0]) in
  let eta := vec_of_list 0 [0; 0; 0; 1; 0] in
  exists zpred, h self eta = Ok zpred /\ vlen zpred = (2 * 1)%nat
    /\ forall i, (i < 1)%nat ->
       0 <= vget zpred (2 * i)
       /\ - PI < vget zpred (2 * i + 1) <= PI
       /\ vget zpred (2 * i) * cos (vget zpred (2 * i + 1))
          = fst (landmark_in_sensor_frame self eta i)
       /\ vget zpred (2 * i) * sin (vget zpred (2 * i + 1))
          = snd (landmark_in_sensor_frame self eta i).
Proof.
  cbv zeta. apply h_polar_coordinates; reflexivity.
Defined.

Lemma h_range_is_h_jac_range_witness :
  let self := mkEKFSLAM (eye 3 3) (eye 2 2) true
                        (vec_of_list 0 [0.001; 0.0001]) (vec_of_list 0 [0; 0]) in
  let eta := vec_of_list 0 [0; 0; 0; 1; 0] in
  exists zpred m,
    h self eta = Ok zpred /\ landmarks_of eta = Ok m
    /\ vget zpred (2 * 0) = vget (h_jac_zpred_r (sensor_offset self) eta m) 0.
Proof.
  cbv zeta. eexists _, _. split; [reflexivity |]. split; [reflexivity |].
  apply (h_range_is_h_jac_range _ _ _ _ 1 0); [reflexivity | reflexivity | reflexivity
                                              | reflexivity | lia].
Defined.

Lemma odd_state_rejected_witness :
  let self := mkEKFSLAM (eye 3 3) (eye 2 2) true
                        (vec_of_list 0 [0.001; 0.0001]) (vec_of_list 0 [0; 0]) in
  let JCBB := fun (_ _ : vec R) (_ : mat R) (_ _ : R) => mkvec 0 (fun _ => 0%Z) in
  let cho_factor := fun A : mat R => Ok (A, true) in
  let cho_solve := fun (_ : mat R * bool) (B : mat R) => B in
  let eta := vec_of_list 0 [0; 0; 0; 1] in
  h self eta = Raise ValueError
  /\ h_jac (sensor_offset self) eta = Raise ValueError
  /\ update JCBB cho_factor cho_solve self eta (eye 4 4) (mat_of_rows 0 2 [[1; 0]])
     = Raise AssertionError.
Proof.
  cbv zeta. apply odd_state_rejected. reflexivity.
Defined.

(** A landmark one unit ahead of a robot at the origin: range 1, bearing 0. *)
Lemma landmark_ahead (self : EKFSLAM) (zpred : vec R) :
  vget (sensor_offset self) 0 = 0 -> vget (sensor_offset self) 1 = 0 ->
  h self (vec_of_list 0 [0; 0; 0; 1; 0]) = Ok zpred ->
  vget zpred (2 * 0) = 1 /\ vget zpred (2 * 0 + 1) = 0.
Proof.
  intros Ho0 Ho1 Hh.
  destruct (h_value self (vec_of_list 0 [0; 0; 0; 1; 0]) 1 eq_refl)
    as (zpred' & Hok & _ & Hval).
  rewrite Hok in Hh. injection Hh as <-.
  destruct (Hval 0%nat ltac:(lia)) as [E0 E1].
  assert (HXY : landmark_in_sensor_frame self (vec_of_list 0 [0; 0; 0; 1; 0]) 0 = (1, 0)).
  { unfold landmark_in_sensor_frame. cbn [vget vec_of_list nth Nat.add Nat.mul].
    rewrite Ho0, Ho1, cos_0, sin_0. f_equal; ring. }
  rewrite HXY in E0, E1. cbn [fst snd] in E0, E1.
  split.
  - rewrite E0. replace (1 * 1 + 0 * 0) with 1 by ring. apply sqrt_1.
  - rewrite E1. unfold arctan2.
    destruct (Rlt_dec 0 1) as [_ | Hn]; [| lra].
    replace (0 / 1) with 0 by field. apply atan_0.
Qed.

Lemma h_jac_is_the_jacobian_of_the_range_witness :
  let self := mkEKFSLAM (eye 3 3) (eye 2 2) true
                        (vec_of_list 0 [0.001; 0.0001]) (vec_of_list 0 [0; 0]) in
  let eta := vec_of_list 0 [0; 0; 0; 1; 0] in
  exists zpred H,
    h self eta = Ok zpred /\ h_jac (sensor_offset self) eta = Ok H
    /\ vget zpred (2 * 0) <> 0
    /\ partial_derivative (fun e => value_of (vzeros 0) (h self e)) (2 * 0) 3 eta
                          (mget H (2 * 0) 3).
Proof.
  cbv zeta. eexists _, _. split; [reflexivity |]. split; [reflexivity |].
  destruct (landmark_ahead
              (mkEKFSLAM (eye 3 3) (eye 2 2) true
                         (vec_of_list 0 [0.001; 0.0001]) (vec_of_list 0 [0; 0]))
              _ eq_refl eq_refl eq_refl) as [E0 _].
  match goal with
  | |- ?A <> 0 /\ _ =>
      assert (Hne : A <> 0);
      [ assert (E : A = 1) by exact E0; rewrite E; lra
      | split; [exact Hne |] ]
  end.
  eapply (h_jac_is_the_jacobian_of_the_range _ _ _ _ 1 0 3);
    [reflexivity | reflexivity | reflexivity | reflexivity | lia | lia | exact Hne].
Defined.

Lemma h_jac_is_the_jacobian_of_the_bearing_witness :
  let self := mkEKFSLAM (eye 3 3) (eye 2 2) true
                        (vec_of_list 0 [0.001; 0.0001]) (vec_of_list 0 [0; 0]) in
  let eta := vec_of_list 0 [0; 0; 0; 1; 0] in
  exists zpred H,
    h self eta = Ok zpred /\ h_jac (sensor_offset self) eta = Ok H
    /\ vget zpred (2 * 0) <> 0 /\ vget zpred (2 * 0 + 1) <> PI
    /\ partial_derivative (fun e => value_of (vzeros 0) (h self e)) (2 * 0 + 1) 2 eta
                          (mget H (2 * 0 + 1) 2).
Proof.
  cbv zeta. eexists _, _. split; [reflexivity |]. split; [reflexivity |].
  destruct (landmark_ahead
              (mkEKFSLAM (eye 3 3) (eye 2 2) true
                         (vec_of_list 0 [0.001; 0.0001]) (vec_of_list 0 [0; 0]))
              _ eq_refl eq_refl eq_refl) as [E0 E1].
  match goal with
  | |- ?A <> 0 /\ ?B <> PI /\ _ =>
      assert (Hne : A <> 0);
      [ assert (E : A = 1) by exact E0; rewrite E; lra |];
      assert (Hnb : B <> PI);
      [ assert (E : B = 0) by exact E1; rewrite E; pose proof PI_RGT_0; lra |];
      split; [exact Hne | split; [exact Hnb |]]
  end.
  eapply (h_jac_is_the_jacobian_of_the_bearing _ _ _ _ 1 0 2);
    [reflexivity | reflexivity | reflexivity | reflexivity | lia | lia
    | exact Hne | exact Hnb].
Defined.

Lemma h_inverts_add_landmarks_witness :
  let self := mkEKFSLAM (eye 3 3) (eye 2 2) true
                        (vec_of_list 0 [0.001; 0.0001]) (vec_of_list 0 [0; 0]) in
  let eta := vec_of_list 0 [0; 0; 0] in
  let z := vec_of_list 0 [2; 0] in
  exists eta' P' zpred' zpred,
    add_landmarks self eta (eye 3 3) z = Ok (eta', P')
    /\ h self eta' = Ok zpred' /\ h self eta = Ok zpred
    /\ vlen zpred' = (2 * 0 + 2 * 1)%nat
    /\ (forall p, (p < 2 * 0)%nat -> vget zpred' p = vget zpred p)
    /\ (forall j, (j < 1)%nat -> 0 < vget z (2 * j) -> - PI < vget z (2 * j + 1) <= PI ->
          vget zpred' (2 * 0 + 2 * j) = vget z (2 * j)
          /\ vget zpred' (2 * 0 + 2 * j + 1) = vget z (2 * j + 1)).
Proof.
  cbv zeta.
  apply (h_inverts_add_landmarks _ _ _ _ 0 1);
    [apply eye3_valid_state | reflexivity | reflexivity | reflexivity
     | apply eye_symmetric | apply eye2_psd | reflexivity].
Defined.

Lemma add_landmarks_keeps_the_state_valid_witness :
  let self := mkEKFSLAM (eye 3 3) (eye 2 2) true
                        (vec_of_list 0 [0.001; 0.0001]) (vec_of_list 0 [0; 0]) in
  exists eta' P',
    add_landmarks self (vec_of_list 0 [0; 0; 0]) (eye 3 3) (vec_of_list 0 [2; 0])
    = Ok (eta', P')
    /\ valid_state eta' P'.
Proof.
  cbv zeta.
  apply (add_landmarks_keeps_the_state_valid _ _ _ _ 1);
    [apply eye3_valid_state | reflexivity | apply eye_symmetric | apply eye2_psd
     | reflexivity].
Defined.

Lemma add_landmarks_rejects_odd_measurements_witness :
  let self := mkEKFSLAM (eye 3 3) (eye 2 2) true
                        (vec_of_list 0 [0.001; 0.0001]) (vec_of_list 0 [0; 0]) in
  add_landmarks self (vec_of_list 0 [0; 0; 0]) (eye 3 3) (vec_of_list 0 [2; 0; 1])
  = Raise AssertionError.
Proof.
  cbv zeta.
  apply add_landmarks_rejects_odd_measurements;
    [cbn; lia | reflexivity | reflexivity | reflexivity | reflexivity].
Defined.

Lemma add_landmarks_Gx_is_the_jacobian_witness :
  let self := mkEKFSLAM (eye 3 3) (eye 2 2) true
                        (vec_of_list 0 [0.001; 0.0001]) (vec_of_list 0 [0; 0]) in
  let eta := vec_of_list 0 [0; 0; 0] in
  let z := vec_of_list 0 [2; 0] in
  (0 < 1)%nat
  /\ partial_derivative (fun e => buf_lmnew (add_landmarks_loop self e z)) (2 * 0 + 1) 2 eta
                        (mget (buf_Gx (add_landmarks_loop self eta z)) (2 * 0 + 1) 2).
Proof.
  cbv zeta. split; [lia |].
  apply (add_landmarks_Gx_is_the_jacobian _ _ _ 1 0 1 2);
    [cbn; lia | reflexivity | reflexivity | lia | lia | lia].
Defined.

Lemma add_landmarks_Gz_is_the_jacobian_witness :
  let self := mkEKFSLAM (eye 3 3) (eye 2 2) true
                        (vec_of_list 0 [0.001; 0.0001]) (vec_of_list 0 [0; 0]) in
  let eta := vec_of_list 0 [0; 0; 0] in
  let z := vec_of_list 0 [2; 0] in
  (0 < 1)%nat
  /\ partial_derivative (fun z' => buf_lmnew (add_landmarks_loop self eta z'))
                        (2 * 0 + 1) (2 * 0 + 1) z
                        (mget (Gz_of (vget eta 2) (vget z (2 * 0)) (vget z (2 * 0 + 1))) 1 1).
Proof.
  cbv zeta. split; [lia |].
  apply (add_landmarks_Gz_is_the_jacobian _ _ _ 1 0 1 1);
    [cbn; lia | reflexivity | reflexivity | lia | lia | lia].
Defined.

Lemma add_landmarks_new_covariance_witness :
  let self := mkEKFSLAM (eye 3 3) (eye 2 2) true
                        (vec_of_list 0 [0.001; 0.0001]) (vec_of_list 0 [0; 0]) in
  let eta := vec_of_list 0 [0; 0; 0] in
  let P := eye 3 3 in
  let z := vec_of_list 0 [2; 0] in
  exists eta' P',
    add_landmarks self eta P z = Ok (eta', P')
    /\ (forall j j' r s, (j < 1)%nat -> (j' < 1)%nat -> (r < 2)%nat -> (s < 2)%nat ->
          mget P' (vlen eta + 2 * j + r) (vlen eta + 2 * j' + s)
          = mget (buf_Gx (add_landmarks_loop self eta z) @ mslice P 0 3 0 3
                  @ transpose (buf_Gx (add_landmarks_loop self eta z)))%mat
                 (2 * j + r) (2 * j' + s)
            + (if (j =? j')%nat then mget (landmark_noise self eta z j) r s else 0))
    /\ (forall i j r, (i < vlen eta)%nat -> (j < 1)%nat -> (r < 2)%nat ->
          mget P' i (vlen eta + 2 * j + r)
          = mget (mslice P 0 (nrows P) 0 3
                  @ transpose (buf_Gx (add_landmarks_loop self eta z)))%mat i (2 * j + r)
          /\ mget P' (vlen eta + 2 * j + r) i = mget P' i (vlen eta + 2 * j + r)).
Proof.
  cbv zeta.
  apply (add_landmarks_new_covariance _ _ _ _ 1);
    [apply eye3_valid_state | reflexivity | apply eye_symmetric | apply eye2_psd
     | reflexivity].
Defined.

Lemma associate_pairs_measurements_with_landmarks_witness :
  let self := mkEKFSLAM (eye 3 3) (eye 2 2) true
                        (vec_of_list 0 [0.001; 0.0001]) (vec_of_list 0 [0; 0]) in
  let a := vec_of_list (-1)%Z [(-1)%Z; 0%Z] in
  let JCBB := fun (_ _ : vec R) (_ : mat R) (_ _ : R) => a in
  let z := vec_of_list 0 [5; 1; 2; 0] in
  let zpred := vec_of_list 0 [2; 0.1] in
  let H := mzeros 2 5 in
  let S := eye 2 2 in
  exists zass zpredass Hass Sass,
    associate JCBB self z zpred H S = Ok (Some (zass, zpredass, Hass, Sass, a))
    /\ (forall i, In i (mask_indices (gt_m1 a)) <-> (i < vlen a)%nat /\ (-1 < vget a i)%Z)
    /\ vlen zass = (2 * length (mask_indices (gt_m1 a)))%nat
    /\ vlen zpredass = (2 * length (mask_indices (gt_m1 a)))%nat
    /\ nrows Hass = (2 * length (mask_indices (gt_m1 a)))%nat /\ ncols Hass = ncols H
    /\ nrows Sass = (2 * length (mask_indices (gt_m1 a)))%nat
    /\ ncols Sass = (2 * length (mask_indices (gt_m1 a)))%nat
    /\ forall t c, (t < length (mask_indices (gt_m1 a)))%nat -> (c < 2)%nat ->
         (Z.to_nat (vget a (nth t (mask_indices (gt_m1 a)) 0%nat)) < 1)%nat
         /\ vget zass (2 * t + c) = vget z (2 * nth t (mask_indices (gt_m1 a)) 0%nat + c)
         /\ vget zpredass (2 * t + c)
            = vget zpred (2 * Z.to_nat (vget a (nth t (mask_indices (gt_m1 a)) 0%nat)) + c)
         /\ (forall q, mget Hass (2 * t + c) q
                       = mget H (2 * Z.to_nat (vget a (nth t (mask_indices (gt_m1 a)) 0%nat))
                                 + c) q)
         /\ (forall t' c', (t' < length (mask_indices (gt_m1 a)))%nat -> (c' < 2)%nat ->
               mget Sass (2 * t + c) (2 * t' + c')
               = mget S (2 * Z.to_nat (vget a (nth t (mask_indices (gt_m1 a)) 0%nat)) + c)
                        (2 * Z.to_nat (vget a (nth t' (mask_indices (gt_m1 a)) 0%nat))
                         + c')).
Proof.
  cbv zeta.
  apply (associate_pairs_measurements_with_landmarks
           (fun (_ _ : vec R) (_ : mat R) (_ _ : R) => vec_of_list (-1)%Z [(-1)%Z; 0%Z])
           _ _ _ _ _ _ 1);
    [reflexivity | reflexivity | reflexivity | reflexivity | reflexivity | reflexivity
     | reflexivity |].
  intros i Hi. cbn [vlen vec_of_list length] in Hi.
  destruct i as [| [| i]]; cbn; lia.
Defined.

Lemma update_without_matches_witness :
  let self := mkEKFSLAM (eye 3 3) (eye 2 2) true
                        (vec_of_list 0 [0.001; 0.0001]) (vec_of_list 0 [0; 0]) in
  let a := mkvec 1 (fun _ => (-1)%Z) in
  let JCBB := fun (_ _ : vec R) (_ : mat R) (_ _ : R) => a in
  let cho_factor := fun A : mat R => Ok (A, true) in
  let cho_solve := fun (_ : mat R * bool) (B : mat R) => B in
  let eta := vec_of_list 0 [0; 0; 0; 1; 0] in
  let P := eye 5 5 in
  let z := mat_of_rows 0 2 [[2; 1]] in
  exists eta' P',
    update JCBB cho_factor cho_solve self eta P z = Ok (eta', P', 1, a)
    /\ (if (0 <? nrows z)%nat
        then add_landmarks self eta P
               (vmask (ravel z) (pair_mask (ravel z) (eq_m1 a))) = Ok (eta', P')
             /\ vlen (vmask (ravel z) (pair_mask (ravel z) (eq_m1 a))) = (2 * nrows z)%nat
             /\ (forall p, (p < 2 * nrows z)%nat ->
                   vget (vmask (ravel z) (pair_mask (ravel z) (eq_m1 a))) p
                   = vget (ravel z) p)
        else eta' = eta /\ P' = P)
    /\ (forall i, (i < vlen eta)%nat -> vget eta' i = vget eta i)
    /\ (forall i j, (i < vlen eta)%nat -> (j < vlen eta)%nat -> mget P' i j = mget P i j).
Proof.
  cbv zeta.
  eapply (update_without_matches
            (fun (_ _ : vec R) (_ : mat R) (_ _ : R) => mkvec 1 (fun _ => (-1)%Z))
            _ _ _ _ _ _ _ _ _ 1);
    [apply (eye_valid_state (vec_of_list 0 [0; 0; 0; 1; 0])); cbn; lia
    | reflexivity | lia | reflexivity | reflexivity | apply eye_symmetric | apply eye2_psd
    | reflexivity | reflexivity | reflexivity | reflexivity | reflexivity | reflexivity
    | intros; reflexivity].
Defined.

Lemma NEESes_returns_three_nonnegative_numbers_witness :
  exists v,
    NEESes (fun a => a) gesv (vec_of_list 0%float [1; 2; 0.5]%float)
           (mat_of_rows 0%float 3 [[1; 0; 0]; [0; 1; 0]; [0; 0; 1]]%float)
           (vec_of_list 0%float [0; 0; 0]%float) = Ok v
    /\ vlen v = 3%nat
    /\ forall i, (i < 3)%nat ->
         PrimFloat.leb 0%float (vget v i) = true /\ PrimFloat.is_nan (vget v i) = false.
Proof.
  assert (E : exists v,
             NEESes (fun a => a) gesv (vec_of_list 0%float [1; 2; 0.5]%float)
                    (mat_of_rows 0%float 3 [[1; 0; 0]; [0; 1; 0]; [0; 0; 1]]%float)
                    (vec_of_list 0%float [0; 0; 0]%float) = Ok v)
    by (vm_compute; eexists; reflexivity).
  destruct E as [v E]. exists v. split; [exact E |].
  exact (NEESes_returns_three_nonnegative_numbers _ _ _ _ _ _ E).
Defined.
End MoreInstances.
